(** * Graphs: a directed weighted graph on an adjacency matrix and an
      undirected graph on an adjacency list

    Shallow embedding of [d_graph.py] (class [DirectedGraph]) and
    [ud_graph.py] (class [UndirectedGraph]).

    Python values are modelled as follows.
    - [int] is [Z], vertex ids and the positions [count] and [vi] included;
      [v_count], which is only counted up from 0, is [nat].
    - a Python [list] is a Rocq [list]; indexing by an [int] follows Python:
      a negative index [-k] addresses the [k]-th element from the end and
      anything outside [-len .. len-1] raises [IndexError].
    - [str] is [string]; the empty string is the only falsy string.
    - [float('inf')] is the constructor [Inf] of [dist].
    - a [dict] keeps its keys in insertion order: an association list.
    - an exception is the constructor [Raise] of [outcome]; loops and
      recursion that Python runs unbounded take a [fuel] argument and yield
      [OutOfFuel] when it is exhausted.  For a [while] loop [fuel] bounds
      the number of rounds.  For the recursive helpers ([has_Cycle_helper]
      of both classes, [count_helper]) every nested call takes one unit, so
      [fuel] is the nesting depth that is allowed: with the recursion limit
      of the interpreter for [fuel], [OutOfFuel] is Python's
      [RecursionError].  Memory is not modelled. *)

From Stdlib Require Import String Ascii ZArith List Bool Lia Arith PeanoNat.
From Stdlib Require Import Permutation Sorted.
Import ListNotations.
Open Scope Z_scope.

(** ** Outcomes of a call *)

Inductive exn : Type := IndexError | TypeError | ValueError | KeyError.

Inductive outcome (A : Type) : Type :=
| Ret (a : A)
| Raise (e : exn)
| OutOfFuel.
Arguments Ret {A} a.
Arguments Raise {A} e.
Arguments OutOfFuel {A}.

Definition bind {A B : Type} (m : outcome A) (k : A -> outcome B) : outcome B :=
  match m with
  | Ret a => k a
  | Raise e => Raise e
  | OutOfFuel => OutOfFuel
  end.

Notation "x <- m ;; k" := (bind m (fun x => k))
  (at level 61, m at next level, right associativity).

(** ** Python lists *)

Module Py.

(** Position addressed by the Python index [i] in a list of length [len]. *)
Definition index (len : nat) (i : Z) : option nat :=
  if (0 <=? i) && (i <? Z.of_nat len) then Some (Z.to_nat i)
  else if (i <? 0) && (- Z.of_nat len <=? i) then Some (Z.to_nat (Z.of_nat len + i))
  else None.

Fixpoint update {A : Type} (l : list A) (k : nat) (a : A) : list A :=
  match l, k with
  | [], _ => []
  | _ :: t, O => a :: t
  | h :: t, S k' => h :: update t k' a
  end.

(** [l[i]] *)
Definition get {A : Type} (l : list A) (i : Z) : outcome A :=
  match index (length l) i with
  | Some k => match nth_error l k with
              | Some a => Ret a
              | None => Raise IndexError
              end
  | None => Raise IndexError
  end.

(** [l[i] = a] *)
Definition set {A : Type} (l : list A) (i : Z) (a : A) : outcome (list A) :=
  match index (length l) i with
  | Some k => Ret (update l k a)
  | None => Raise IndexError
  end.

(** [x in l] *)
Definition mem {A : Type} (eqb : A -> A -> bool) (x : A) (l : list A) : bool :=
  existsb (eqb x) l.

(** [l.remove(x)]: deletes the first occurrence, [ValueError] when absent. *)
Fixpoint remove_first {A : Type} (eqb : A -> A -> bool) (x : A) (l : list A)
  : list A :=
  match l with
  | [] => []
  | h :: t => if eqb x h then t else h :: remove_first eqb x t
  end.

Definition remove {A : Type} (eqb : A -> A -> bool) (x : A) (l : list A)
  : outcome (list A) :=
  if mem eqb x l then Ret (remove_first eqb x l) else Raise ValueError.

(** [l.sort()] and [l.sort(reverse=True)] for a total order [leb]: stable
    insertion into the sorted prefix. *)
Fixpoint insert_sorted {A : Type} (leb : A -> A -> bool) (x : A) (l : list A)
  : list A :=
  match l with
  | [] => [x]
  | h :: t => if leb x h then x :: h :: t else h :: insert_sorted leb x t
  end.

Definition sort {A : Type} (leb : A -> A -> bool) (l : list A) : list A :=
  fold_right (insert_sorted leb) [] l.

Definition sort_reverse {A : Type} (leb : A -> A -> bool) (l : list A)
  : list A :=
  sort (fun a b => leb b a) l.

End Py.

(** ** DirectedGraph (d_graph.py) *)

Module Directed.

Record DirectedGraph : Type := mkDirected {
  v_count : nat;
  adj_matrix : list (list Z)
}.

(** [__init__] without [start_edges]. *)
Definition empty : DirectedGraph := mkDirected 0 [].

(** [add_vertex]: returns the graph after the call and the returned count. *)
Definition add_vertex (g : DirectedGraph) : DirectedGraph * nat :=
  let c := S (v_count g) in
  let v := repeat 0 c in
  let rows := map (fun vertex => vertex ++ [0]) (adj_matrix g) in
  (mkDirected c (rows ++ [v]), c).

Definition len_matrix (g : DirectedGraph) : Z := Z.of_nat (length (adj_matrix g)).

(** [self.adj_matrix[src][dst] = w] *)
Definition set_entry (g : DirectedGraph) (src dst w : Z) : outcome DirectedGraph :=
  row <- Py.get (adj_matrix g) src ;;
  row' <- Py.set row dst w ;;
  m' <- Py.set (adj_matrix g) src row' ;;
  Ret (mkDirected (v_count g) m').

(** [add_edge(src, dst, weight)] *)
Definition add_edge (g : DirectedGraph) (src dst weight : Z)
  : outcome DirectedGraph :=
  if negb (src =? dst) && (weight >=? 0)
     && (len_matrix g >? src) && (len_matrix g >? dst)
  then set_entry g src dst weight
  else Ret g.

(** [remove_edge(src, dst)] *)
Definition remove_edge (g : DirectedGraph) (src dst : Z)
  : outcome DirectedGraph :=
  if (len_matrix g >? src) && (len_matrix g >? dst) && (src >=? 0) && (dst >=? 0)
  then set_entry g src dst 0
  else Ret g.

(** [DirectedGraph(start_edges)] *)
Definition max_vertex (start_edges : list (Z * Z * Z)) : Z :=
  fold_left (fun c '(u, v, _) => Z.max (Z.max c u) v) start_edges 0.

Definition add_vertices (k : nat) (g : DirectedGraph) : DirectedGraph :=
  Nat.iter k (fun g => fst (add_vertex g)) g.

Fixpoint add_edges (es : list (Z * Z * Z)) (g : DirectedGraph)
  : outcome DirectedGraph :=
  match es with
  | [] => Ret g
  | (u, v, w) :: rest => g' <- add_edge g u v w ;; add_edges rest g'
  end.

Definition init (start_edges : list (Z * Z * Z)) : outcome DirectedGraph :=
  add_edges start_edges
    (add_vertices (Z.to_nat (max_vertex start_edges + 1)) empty).

(** Entry [M[i][j]] for in-range positions, [None] elsewhere. *)
Definition entry (g : DirectedGraph) (i j : nat) : option Z :=
  match nth_error (adj_matrix g) i with
  | Some row => nth_error row j
  | None => None
  end.

(** The matrix is [v_count] by [v_count]. *)
Definition square (g : DirectedGraph) : Prop :=
  length (adj_matrix g) = v_count g /\
  Forall (fun row => length row = v_count g) (adj_matrix g).

(** A call issued by a client; a call that raises leaves the graph as it
    was (every exception of the three mutators is raised before the
    assignment). *)
Inductive call : Type :=
| AddVertex
| AddEdge (src dst weight : Z)
| RemoveEdge (src dst : Z).

Definition after {A : Type} (g : A) (o : outcome A) : A :=
  match o with Ret g' => g' | _ => g end.

Definition exec (g : DirectedGraph) (c : call) : DirectedGraph :=
  match c with
  | AddVertex => fst (add_vertex g)
  | AddEdge s d w => after g (add_edge g s d w)
  | RemoveEdge s d => after g (remove_edge g s d)
  end.

Definition run (cs : list call) : DirectedGraph := fold_left exec cs empty.

(** *** Traversals *)

(** The loop that fills [temp_list]: positions of the nonzero entries of a
    row, [count] being the position of the head of [row]. *)
Fixpoint adjacent_from (row : list Z) (count : Z) : list Z :=
  match row with
  | [] => []
  | u :: rest =>
      if negb (u =? 0) then count :: adjacent_from rest (count + 1)
      else adjacent_from rest (count + 1)
  end.

(** [v == v_end], [v_end] defaulting to [None]. *)
Definition is_end (v : Z) (v_end : option Z) : bool :=
  match v_end with
  | Some e => v =? e
  | None => false
  end.

(** [stack.pop(len(stack) - 1)] on a nonempty list. *)
Definition pop_last {A : Type} (l : list A) : option (list A * A) :=
  match rev l with
  | [] => None
  | x :: r => Some (rev r, x)
  end.

(** One round of the [while] loop of [dfs]; the top of the stack is the
    last element of [stack]. *)
Fixpoint dfs_loop (fuel : nat) (g : DirectedGraph) (v_end : option Z)
  (stack visited : list Z) : outcome (list Z) :=
  match fuel with
  | O => OutOfFuel
  | S fuel' =>
      match pop_last stack with
      | None => Ret visited
      | Some (stack, v) =>
          st <- (if negb (Py.mem Z.eqb v visited) then
                   let visited := visited ++ [v] in
                   row <- Py.get (adj_matrix g) v ;;
                   let temp_list := Py.sort_reverse Z.leb (adjacent_from row 0) in
                   Ret (stack ++ temp_list, visited)
                 else Ret (stack, visited)) ;;
          if is_end v v_end then Ret (snd st)
          else dfs_loop fuel' g v_end (fst st) (snd st)
      end
  end.

Definition dfs (fuel : nat) (g : DirectedGraph) (v_start : Z) (v_end : option Z)
  : outcome (list Z) :=
  if v_start >? len_matrix g then Ret []
  else dfs_loop fuel g v_end [v_start] [].

(** One round of the [while] loop of [bfs]; the front of the queue is the
    head of [queue]. *)
Fixpoint bfs_loop (fuel : nat) (g : DirectedGraph) (v_end : option Z)
  (queue visited : list Z) : outcome (list Z) :=
  match fuel with
  | O => OutOfFuel
  | S fuel' =>
      match queue with
      | [] => Ret visited
      | v :: queue =>
          st <- (if negb (Py.mem Z.eqb v visited) then
                   let visited := visited ++ [v] in
                   row <- Py.get (adj_matrix g) v ;;
                   let temp_list := Py.sort Z.leb (adjacent_from row 0) in
                   Ret (queue ++ temp_list, visited)
                 else Ret (queue, visited)) ;;
          if is_end v v_end then Ret (snd st)
          else bfs_loop fuel' g v_end (fst st) (snd st)
      end
  end.

Definition bfs (fuel : nat) (g : DirectedGraph) (v_start : Z) (v_end : option Z)
  : outcome (list Z) :=
  if v_start >? len_matrix g then Ret []
  else bfs_loop fuel g v_end [v_start] [].

(** *** Cycle detection *)

(** The [for] loop of [has_Cycle_helper]: [count] is the position of the
    head of [row], [helper] the recursive call. *)
Fixpoint scan_row (helper : Z -> list Z -> outcome (bool * list Z))
  (row : list Z) (count : Z) (visited : list Z) : outcome (bool * list Z) :=
  match row with
  | [] => Ret (false, visited)
  | i :: rest =>
      if negb (Py.mem Z.eqb count visited) && negb (i =? 0) then
        r <- helper count visited ;;
        if fst r then Ret (true, snd r)
        else scan_row helper rest (count + 1) (snd r)
      else if Py.mem Z.eqb count visited && negb (i =? 0) then
        Ret (true, visited)
      else scan_row helper rest (count + 1) visited
  end.

(** [has_Cycle_helper(v, visited)]: the result and the shared [visited]
    list as the call leaves it. *)
Fixpoint has_Cycle_helper (fuel : nat) (g : DirectedGraph) (v : Z)
  (visited : list Z) {struct fuel} : outcome (bool * list Z) :=
  match fuel with
  | O => OutOfFuel
  | S fuel' =>
      let visited := visited ++ [v] in
      row <- Py.get (adj_matrix g) v ;;
      r <- scan_row (has_Cycle_helper fuel' g) row 0 visited ;;
      if fst r then Ret (true, snd r)
      else Ret (false, removelast (snd r))
  end.

(** The [for] loop of [has_cycle] over the rows that remain. *)
Fixpoint has_cycle_from (fuel : nat) (g : DirectedGraph) (rows : list (list Z))
  (count : Z) (visited : list Z) : outcome bool :=
  match rows with
  | [] => Ret false
  | _ :: rest =>
      if negb (Py.mem Z.eqb count visited) then
        r <- has_Cycle_helper fuel g count visited ;;
        if fst r then Ret true
        else has_cycle_from fuel g rest (count + 1) (snd r)
      else has_cycle_from fuel g rest (count + 1) visited
  end.

Definition has_cycle (fuel : nat) (g : DirectedGraph) : outcome bool :=
  has_cycle_from fuel g (adj_matrix g) 0 [].

(** *** Shortest distances *)

(** An entry of [map]: an [int] or [float('inf')]. *)
Inductive dist : Type := Fin (d : Z) | Inf.

(** [d < m] for an [int] [d]. *)
Definition lt_dist (d : Z) (m : dist) : bool :=
  match m with
  | Fin x => d <? x
  | Inf => true
  end.

(** The [for d in self.adj_matrix[v]] loop: [vi] is the position of the
    head of [row]; the queue grows at its end. *)
Fixpoint relax (row : list Z) (vi di : Z) (map : list dist) (visited : list Z)
  (queue : list (Z * Z)) : outcome (list (Z * Z)) :=
  match row with
  | [] => Ret queue
  | d :: rest =>
      if negb (d =? 0) && negb (Py.mem Z.eqb vi visited) then
        relax rest (vi + 1) di map visited (queue ++ [(vi, di + d)])
      else if negb (d =? 0) && Py.mem Z.eqb vi visited then
        m <- Py.get map vi ;;
        if lt_dist (di + d) m then
          relax rest (vi + 1) di map visited (queue ++ [(vi, di + d)])
        else relax rest (vi + 1) di map visited queue
      else relax rest (vi + 1) di map visited queue
  end.

Fixpoint dijkstra_loop (fuel : nat) (g : DirectedGraph) (map : list dist)
  (visited : list Z) (queue : list (Z * Z)) : outcome (list dist) :=
  match fuel with
  | O => OutOfFuel
  | S fuel' =>
      match queue with
      | [] => Ret map
      | (v, d) :: queue =>
          let di := d in
          m <- Py.get map v ;;
          map <- (if lt_dist d m then Py.set map v (Fin d) else Ret map) ;;
          row <- Py.get (adj_matrix g) v ;;
          queue <- relax row 0 di map visited queue ;;
          dijkstra_loop fuel' g map (visited ++ [v]) queue
      end
  end.

Definition dijkstra (fuel : nat) (g : DirectedGraph) (src : Z)
  : outcome (list dist) :=
  dijkstra_loop fuel g (repeat Inf (v_count g)) [] [(src, 0)].

End Directed.

(** ** UndirectedGraph (ud_graph.py) *)

Module Undirected.

(** [self.adj_list]: the keys in insertion order, each with its list of
    adjacent vertices. *)
Definition UndirectedGraph : Type := list (string * list string).

(** [UndirectedGraph()] *)
Definition empty : UndirectedGraph := [].

(** [k in self.adj_list] *)
Definition has_key (k : string) (g : UndirectedGraph) : bool :=
  existsb (fun e => String.eqb k (fst e)) g.

(** [self.adj_list.get(k)], [None] for a missing key. *)
Fixpoint get (k : string) (g : UndirectedGraph) : option (list string) :=
  match g with
  | [] => None
  | (k', l) :: rest => if String.eqb k k' then Some l else get k rest
  end.

(** [self.adj_list[k]] *)
Definition getitem (k : string) (g : UndirectedGraph) : outcome (list string) :=
  match get k g with
  | Some l => Ret l
  | None => Raise KeyError
  end.

(** [x in self.adj_list.get(k)]: a missing key makes the right operand
    [None], which is not iterable. *)
Definition mem_get (x k : string) (g : UndirectedGraph) : outcome bool :=
  match get k g with
  | Some l => Ret (Py.mem String.eqb x l)
  | None => Raise TypeError
  end.

(** Replaces in place the list stored under the existing key [k]. *)
Fixpoint store (k : string) (l : list string) (g : UndirectedGraph)
  : UndirectedGraph :=
  match g with
  | [] => []
  | (k', l') :: rest =>
      if String.eqb k k' then (k', l) :: rest else (k', l') :: store k l rest
  end.

(** [add_vertex(v)] *)
Definition add_vertex (v : string) (g : UndirectedGraph) : UndirectedGraph :=
  if negb (has_key v g) then g ++ [(v, [])] else g.

(** [self.adj_list[k].append(x)] *)
Definition append_to (k x : string) (g : UndirectedGraph)
  : outcome UndirectedGraph :=
  l <- getitem k g ;; Ret (store k (l ++ [x]) g).

(** [self.adj_list[k].remove(x)] *)
Definition remove_from (k x : string) (g : UndirectedGraph)
  : outcome UndirectedGraph :=
  l <- getitem k g ;; l' <- Py.remove String.eqb x l ;; Ret (store k l' g).

(** [add_edge(u, v)] *)
Definition add_edge (u v : string) (g : UndirectedGraph)
  : outcome UndirectedGraph :=
  let g := if negb (has_key u g) && negb (String.eqb v u)
           then add_vertex u g else g in
  let g := if negb (has_key v g) && negb (String.eqb v u)
           then add_vertex v g else g in
  if negb (String.eqb v u) then
    b1 <- mem_get v u g ;;
    if negb b1 then
      b2 <- mem_get u v g ;;
      if negb b2 then
        g <- append_to v u g ;;
        append_to u v g
      else Ret g
    else Ret g
  else Ret g.

(** Truth value of a [str]. *)
Definition truthy (s : string) : bool := negb (String.eqb s EmptyString).

(** [remove_edge(v, u)]; the condition reads
    [v and (u in self.adj_list) and (v in self.adj_list.get(u)) and
     (u in self.adj_list.get(v))]. *)
Definition remove_edge (v u : string) (g : UndirectedGraph)
  : outcome UndirectedGraph :=
  if truthy v then
    if has_key u g then
      b1 <- mem_get v u g ;;
      if b1 then
        b2 <- mem_get u v g ;;
        if b2 then
          g <- remove_from v u g ;;
          remove_from u v g
        else Ret g
      else Ret g
    else Ret g
  else Ret g.

(** [self.adj_list.pop(v)] for a key that is present. *)
Definition pop_key (v : string) (g : UndirectedGraph) : UndirectedGraph :=
  filter (fun e => negb (String.eqb v (fst e))) g.

(** [remove_vertex(v)] *)
Definition remove_vertex (v : string) (g : UndirectedGraph) : UndirectedGraph :=
  if has_key v g then
    map (fun e => if Py.mem String.eqb v (snd e)
                  then (fst e, Py.remove_first String.eqb v (snd e))
                  else e)
        (pop_key v g)
  else g.

(** [UndirectedGraph(start_edges)] *)
Fixpoint init_from (start_edges : list (string * string)) (g : UndirectedGraph)
  : outcome UndirectedGraph :=
  match start_edges with
  | [] => Ret g
  | (u, v) :: rest => g' <- add_edge u v g ;; init_from rest g'
  end.

Definition init (start_edges : list (string * string)) : outcome UndirectedGraph :=
  init_from start_edges empty.

(** [get_vertices()] *)
Definition get_vertices (g : UndirectedGraph) : list string := map fst g.

(** A call issued by a client. *)
Inductive call : Type :=
| AddVertex (v : string)
| AddEdge (u v : string)
| RemoveEdge (v u : string)
| RemoveVertex (v : string).

Definition exec (c : call) (g : UndirectedGraph) : outcome UndirectedGraph :=
  match c with
  | AddVertex v => Ret (add_vertex v g)
  | AddEdge u v => add_edge u v g
  | RemoveEdge v u => remove_edge v u g
  | RemoveVertex v => Ret (remove_vertex v g)
  end.

(** The calls of [cs] in order, stopping at the first one that raises. *)
Fixpoint run_from (cs : list call) (g : UndirectedGraph)
  : outcome UndirectedGraph :=
  match cs with
  | [] => Ret g
  | c :: rest => g' <- exec c g ;; run_from rest g'
  end.

Definition run (cs : list call) : outcome UndirectedGraph := run_from cs empty.

(** *** Traversals *)

Definition is_end (v : string) (v_end : option string) : bool :=
  match v_end with
  | Some e => String.eqb v e
  | None => false
  end.

Fixpoint dfs_loop (fuel : nat) (g : UndirectedGraph) (v_end : option string)
  (stack visited : list string) : outcome (list string) :=
  match fuel with
  | O => OutOfFuel
  | S fuel' =>
      match Directed.pop_last stack with
      | None => Ret visited
      | Some (stack, v) =>
          st <- (if negb (Py.mem String.eqb v visited) then
                   let visited := visited ++ [v] in
                   adj <- getitem v g ;;
                   let temp_list := Py.sort_reverse String.leb adj in
                   Ret (stack ++ temp_list, visited)
                 else Ret (stack, visited)) ;;
          if is_end v v_end then Ret (snd st)
          else dfs_loop fuel' g v_end (fst st) (snd st)
      end
  end.

Definition dfs (fuel : nat) (g : UndirectedGraph) (v_start : string)
  (v_end : option string) : outcome (list string) :=
  if negb (has_key v_start g) then Ret []
  else dfs_loop fuel g v_end [v_start] [].

Fixpoint bfs_loop (fuel : nat) (g : UndirectedGraph) (v_end : option string)
  (queue visited : list string) : outcome (list string) :=
  match fuel with
  | O => OutOfFuel
  | S fuel' =>
      match queue with
      | [] => Ret visited
      | v :: queue =>
          st <- (if negb (Py.mem String.eqb v visited) then
                   let visited := visited ++ [v] in
                   adj <- getitem v g ;;
                   let temp_list := Py.sort String.leb adj in
                   Ret (queue ++ temp_list, visited)
                 else Ret (queue, visited)) ;;
          if is_end v v_end then Ret (snd st)
          else bfs_loop fuel' g v_end (fst st) (snd st)
      end
  end.

Definition bfs (fuel : nat) (g : UndirectedGraph) (v_start : string)
  (v_end : option string) : outcome (list string) :=
  if negb (has_key v_start g) then Ret []
  else bfs_loop fuel g v_end [v_start] [].

(** *** Cycle detection *)

(** [parent != i]: the parent is [-1] (here [None]) at a root and a label
    below it. *)
Definition parent_differs (parent : option string) (i : string) : bool :=
  match parent with
  | Some p => negb (String.eqb p i)
  | None => true
  end.

(** The [for] loop of [has_Cycle_helper]: [helper] is the recursive call
    [has_Cycle_helper(i, visited, v)]. *)
Fixpoint scan_adj (helper : string -> list string -> outcome (bool * list string))
  (parent : option string) (adj : list string) (visited : list string)
  : outcome (bool * list string) :=
  match adj with
  | [] => Ret (false, visited)
  | i :: rest =>
      if negb (Py.mem String.eqb i visited) then
        r <- helper i visited ;;
        if fst r then Ret (true, snd r)
        else scan_adj helper parent rest (snd r)
      else if parent_differs parent i then Ret (true, visited)
      else scan_adj helper parent rest visited
  end.

(** [has_Cycle_helper(v, visited, parent)]: the result and the shared
    [visited] list as the call leaves it. *)
Fixpoint has_Cycle_helper (fuel : nat) (g : UndirectedGraph) (v : string)
  (visited : list string) (parent : option string) {struct fuel}
  : outcome (bool * list string) :=
  match fuel with
  | O => OutOfFuel
  | S fuel' =>
      let visited := visited ++ [v] in
      adj <- getitem v g ;;
      scan_adj (fun i visited => has_Cycle_helper fuel' g i visited (Some v))
               parent adj visited
  end.

(** The [for] loop of [has_cycle] over the keys that remain. *)
Fixpoint has_cycle_from (fuel : nat) (g : UndirectedGraph) (keys : list string)
  (visited : list string) : outcome bool :=
  match keys with
  | [] => Ret false
  | v :: rest =>
      if negb (Py.mem String.eqb v visited) then
        r <- has_Cycle_helper fuel g v visited None ;;
        if fst r then Ret true
        else has_cycle_from fuel g rest (snd r)
      else has_cycle_from fuel g rest visited
  end.

Definition has_cycle (fuel : nat) (g : UndirectedGraph) : outcome bool :=
  has_cycle_from fuel g (get_vertices g) [].

End Undirected.

(** ** Notions the properties are stated with *)

Module DirectedSpec.
Import Directed.

(** All entries are non-negative. *)
Definition nonneg (g : DirectedGraph) : Prop :=
  Forall (Forall (fun w => 0 <= w)) (adj_matrix g).

(** The graphs of one and of two vertices without edges. *)
Definition g1 : DirectedGraph := fst (add_vertex empty).
Definition g2 : DirectedGraph := fst (add_vertex g1).

End DirectedSpec.

Module UndirectedSpec.
Import Undirected.

(** [v] is listed in the adjacency list of the vertex [u]. *)
Definition adjacent (g : UndirectedGraph) (u v : string) : Prop :=
  exists l, get u g = Some l /\ In v l.

(** The state of a well-formed graph: every key occurs once (a [dict]),
    adjacency lists name vertices of the graph, adjacency is symmetric,
    there is no self-loop and no adjacency list repeats a vertex. *)
Record wf (g : UndirectedGraph) : Prop := mk_wf {
  wf_keys : NoDup (get_vertices g);
  wf_closed : forall u v, adjacent g u v -> has_key v g = true;
  wf_symmetric : forall u v, adjacent g u v <-> adjacent g v u;
  wf_irreflexive : forall u, ~ adjacent g u u;
  wf_simple : forall u l, get u g = Some l -> NoDup l
}.

(** The graph with the single edge between the empty label and ["A"]. *)
Definition g_empty_label : UndirectedGraph :=
  [(""%string, ["A"%string]); ("A"%string, [""%string])].

End UndirectedSpec.

(** ** Edges and paths of a directed graph *)

Module DirectedPaths.
Import Directed.

(** [M[i][j]] for vertex ids [0 <= i, j]. *)
Definition weight (g : DirectedGraph) (i j : Z) : option Z :=
  if (0 <=? i) && (0 <=? j) then entry g (Z.to_nat i) (Z.to_nat j) else None.

(** There is an edge from [i] to [j], of weight [w]. *)
Definition edge (g : DirectedGraph) (i j w : Z) : Prop :=
  weight g i j = Some w /\ w <> 0.

(** [path g a b d]: a directed path leads from [a] to [b] and the weights
    of its edges sum to [d]; the path without edges leads from [a] to [a]. *)
Inductive path (g : DirectedGraph) (a : Z) : Z -> Z -> Prop :=
| path_here : path g a a 0
| path_edge (b c d w : Z) :
    path g a b d -> edge g b c w -> path g a c (d + w).

Definition reachable (g : DirectedGraph) (a b : Z) : Prop :=
  exists d, path g a b d.

(** [map[u]] for [0 <= u < len(map)]. *)
Definition dist_at (map : list dist) (u : Z) : dist :=
  nth (Z.to_nat u) map Inf.

(** The graph of the example: edges (0,1,10), (1,2,5), (0,2,20). *)
Definition g_example : DirectedGraph :=
  mkDirected 3 [[0; 10; 20]; [0; 0; 5]; [0; 0; 0]].

End DirectedPaths.

(** ** The queue of [dijkstra] *)

Module DijkstraQueue.
Import Directed DirectedPaths.

(** The pairs one run of the [for] loop appends to the queue. *)
Fixpoint children (row : list Z) (vi di : Z) (map : list dist)
  (visited : list Z) : list (Z * Z) :=
  match row with
  | [] => []
  | d :: rest =>
      if negb (d =? 0) &&
         (negb (Py.mem Z.eqb vi visited) || lt_dist (di + d) (dist_at map vi))
      then (vi, di + d) :: children rest (vi + 1) di map visited
      else children rest (vi + 1) di map visited
  end.

(** [e <= m] for an [int] [e]. *)
Definition le_dist (e : Z) (m : dist) : bool :=
  match m with
  | Fin x => e <=? x
  | Inf => true
  end.

(** A pair [(u, e)] can still be appended: [u] is not visited, or its
    recorded distance is not below [e]. *)
Definition open (map : list dist) (visited : list Z) (u e : Z) : bool :=
  negb (Py.mem Z.eqb u visited) || le_dist e (dist_at map u).

(** Potential of the queue entry [(x, e)]: the open vertices, each counted
    twice except [x] itself. *)
Definition potential (n : nat) (map : list dist) (visited : list Z)
  (x e : Z) : nat :=
  list_sum
    (List.map (fun k => if open map visited (Z.of_nat k) e
                        then (if Z.of_nat k =? x then 1%nat else 2%nat)
                        else 0%nat)
              (seq 0 n)).

(** Measure of a loop state: it decreases with every round. *)
Definition measure (n : nat) (map : list dist) (visited : list Z)
  (queue : list (Z * Z)) : nat :=
  list_sum
    (List.map (fun p => Nat.pow (S n) (potential n map visited (fst p) (snd p)))
              queue).

End DijkstraQueue.

(** ** What holds at the head of the [while] loop of [dijkstra] *)

Module DijkstraInv.
Import Directed DirectedPaths.

(** [map] has one entry per vertex; every queued pair and every recorded
    distance is the weight of a path from [src]; [src] is queued with
    distance 0 or has it recorded; and along every edge out of a vertex with
    a recorded distance the target is recorded or queued with at most that
    distance plus the weight of the edge. *)
Record inv (g : DirectedGraph) (src : Z) (n : nat) (map : list dist)
  (queue : list (Z * Z)) : Prop := mk_inv {
  inv_len : length map = n;
  inv_queue : forall v d, In (v, d) queue ->
                          0 <= v < Z.of_nat n /\ path g src v d;
  inv_sound : forall u d, 0 <= u -> dist_at map u = Fin d -> path g src u d;
  inv_src : In (src, 0) queue \/ dist_at map src = Fin 0;
  inv_relaxed : forall u d c w,
      0 <= u -> dist_at map u = Fin d -> edge g u c w ->
      (exists d', dist_at map c = Fin d' /\ d' <= d + w) \/
      (exists d', In (c, d') queue /\ d' <= d + w)
}.

End DijkstraInv.

(** ** Cycles of a directed graph *)

Module DirectedCycles.
Import Directed DirectedPaths.

(** There is an edge from [i] to [j]. *)
Definition arc (g : DirectedGraph) (i j : Z) : Prop := exists w, edge g i j w.

(** [walk g a b]: at least one edge leads from [a] to [b]. *)
Inductive walk (g : DirectedGraph) : Z -> Z -> Prop :=
| walk_arc (a b : Z) : arc g a b -> walk g a b
| walk_cons (a b c : Z) : arc g a b -> walk g b c -> walk g a c.

(** The graph has a directed cycle: some vertex leads back to itself. *)
Definition cyclic (g : DirectedGraph) : Prop := exists v, walk g v v.

(** The vertex ids [0 .. n-1]. *)
Definition vertices (n : nat) : list Z := List.map Z.of_nat (seq 0 n).

(** Graphs for the examples: the path 0 -> 1 -> 2 with the chord 0 -> 2,
    and the triangle 0 -> 1 -> 2 -> 0. *)
Definition g_triangle : DirectedGraph :=
  mkDirected 3 [[0; 10; 0]; [0; 0; 5]; [20; 0; 0]].

End DirectedCycles.

(** ** Cycles of an undirected graph *)

Module UndirectedCycles.
Import Undirected UndirectedSpec.

(** Consecutive vertices of [l] are adjacent. *)
Fixpoint chain (g : UndirectedGraph) (l : list string) : Prop :=
  match l with
  | a :: ((b :: _) as t) => adjacent g a b /\ chain g t
  | _ => True
  end.

(** [c] lists the vertices of a cycle: at least three, all distinct, each
    adjacent to the next and the last one adjacent to the first. *)
Definition cycle (g : UndirectedGraph) (c : list string) : Prop :=
  (3 <= length c)%nat /\ NoDup c /\ chain g (c ++ firstn 1 c).

Definition cyclic (g : UndirectedGraph) : Prop := exists c, cycle g c.

(** Position of the first occurrence of [u] in [l], [length l] if none. *)
Fixpoint pos (l : list string) (u : string) : nat :=
  match l with
  | [] => O
  | h :: t => if String.eqb u h then O else S (pos t u)
  end.

(** [a] was visited before [u]. *)
Definition earlier (l : list string) (a u : string) : Prop :=
  In a l /\ (pos l a < pos l u)%nat.

(** [u] has at most one neighbour that was visited before it. *)
Definition one_back (g : UndirectedGraph) (l : list string) (u : string) : Prop :=
  forall a b, adjacent g u a -> adjacent g u b ->
              earlier l a u -> earlier l b u -> a = b.

(** The last element of a list, [None] for the empty list. *)
Definition last_error (l : list string) : option string :=
  match rev l with
  | [] => None
  | x :: _ => Some x
  end.

(** State of the search: [visited] holds distinct vertices; every visited
    vertex that is not on the current branch [open] has all its neighbours
    visited and at most one of them before itself. *)
Record searched (g : UndirectedGraph) (visited open : list string) : Prop :=
  mk_searched {
  sd_nodup : NoDup visited;
  sd_keys : forall u, In u visited -> has_key u g = true;
  sd_closed : forall u, In u visited -> ~ In u open ->
                forall w, adjacent g u w -> In w visited;
  sd_back : forall u, In u visited -> ~ In u open -> one_back g visited u
}.

(** What holds when the loop of [has_Cycle_helper(v, visited, parent)] has
    handled the neighbours [done] of [v]: the visited list is now
    [visited ++ v :: new], with [visited] as the call found it and [open]
    the branch that led to [v]. *)
Record scanning (g : UndirectedGraph) (visited open : list string)
  (v : string) (parent : option string) (done new : list string) : Prop :=
  mk_scanning {
  sc_searched : searched g (visited ++ v :: new) (open ++ [v]);
  sc_child : forall u a, In u new -> In a (open ++ [v]) ->
               adjacent g u a -> a = v /\ In u done;
  sc_done : forall i, In i done -> In i (visited ++ v :: new);
  sc_parent : forall i, In i done -> In i visited -> parent = Some i
}.

(** What holds when [has_Cycle_helper(v, visited, parent)] has returned
    [False] and left [visited ++ v :: new] behind. *)
Record returned (g : UndirectedGraph) (visited open : list string)
  (v : string) (parent : option string) (new : list string) : Prop :=
  mk_returned {
  rt_searched : searched g (visited ++ v :: new) open;
  rt_child : forall u a, In u (v :: new) -> In a open ->
               adjacent g u a -> u = v /\ parent = Some a
}.

(** The triangle on ["A"], ["B"], ["C"] of the example. *)
Definition g_triangle : UndirectedGraph :=
  [("A"%string, ["B"%string; "C"%string]);
   ("B"%string, ["A"%string; "C"%string]);
   ("C"%string, ["B"%string; "A"%string])].

End UndirectedCycles.

(** ** The order of a traversal *)

Module SearchOrder.

Section Order.

Variable V : Type.
(** [nbr u x]: [x] is a neighbour of [u]; [lt]: the order of the labels. *)
Variable nbr : V -> V -> Prop.
Variable lt : V -> V -> Prop.

(** [a] leads to [b] along edges. *)
Inductive reach (a : V) : V -> Prop :=
| reach_here : reach a a
| reach_next (b c : V) : reach a b -> nbr b c -> reach a c.

(** [x] is a neighbour of [u], and every smaller neighbour of [u] is among
    the vertices [P] visited so far. *)
Definition least_new (P : list V) (u x : V) : Prop :=
  nbr u x /\ forall y, nbr u y -> lt y x -> In y P.

(** Every neighbour of [u] is among [P]. *)
Definition exhausted (P : list V) (u : V) : Prop :=
  forall y, nbr u y -> In y P.

(** [R] is in depth-first order with ascending choice: every vertex [x]
    after the first is, among the vertices not visited before it, the
    least neighbour of the most recently visited vertex [u] that has such
    a neighbour. *)
Definition depth_first (R : list V) : Prop :=
  forall P x S, R = P ++ x :: S -> P <> [] ->
    exists P1 u P2, P = P1 ++ u :: P2 /\ least_new P u x /\
                    Forall (exhausted P) P2.

(** [R] is in breadth-first order with ascending choice: the same with the
    earliest visited vertex [u] that has such a neighbour. *)
Definition breadth_first (R : list V) : Prop :=
  forall P x S, R = P ++ x :: S -> P <> [] ->
    exists P1 u P2, P = P1 ++ u :: P2 /\ least_new P u x /\
                    Forall (exhausted P) P1.

End Order.

Arguments reach {V} nbr a _.
Arguments least_new {V} nbr lt P u x.
Arguments exhausted {V} nbr P u.
Arguments depth_first {V} nbr lt R.
Arguments breadth_first {V} nbr lt R.

Section Lists.

Variable V : Type.
(** [explore u]: the neighbours of [u] in the order in which the search
    takes them out of its stack or queue. *)
Variable explore : V -> list V.

(** [x] comes in [explore u] after vertices of [P] only. *)
Definition next_in (P : list V) (u x : V) : Prop :=
  exists a1 a2, explore u = a1 ++ x :: a2 /\ incl a1 P.

Definition spent (P : list V) (u : V) : Prop := incl (explore u) P.

Definition stacked (R : list V) : Prop :=
  forall P x S, R = P ++ x :: S -> P <> [] ->
    exists P1 u P2, P = P1 ++ u :: P2 /\ next_in P u x /\ Forall (spent P) P2.

Definition queued (R : list V) : Prop :=
  forall P x S, R = P ++ x :: S -> P <> [] ->
    exists P1 u P2, P = P1 ++ u :: P2 /\ next_in P u x /\ Forall (spent P) P1.

(** A visited vertex with the part of [explore] that is still in the stack
    or queue: the part taken out consists of visited vertices. *)
Definition frame_ok (R : list V) (fr : V * list V) : Prop :=
  exists done, explore (fst fr) = done ++ snd fr /\ incl done R.

(** What the unvisited vertices of [U] can still add to the stack or queue,
    plus one for each. *)
Definition weight (eqb : V -> V -> bool) (temp : V -> list V)
  (U R : list V) : nat :=
  list_sum (List.map (fun u => S (length (temp u)))
                     (filter (fun u => negb (Py.mem eqb u R)) U)).

(** State of [dfs]: the stack holds, bottom to top, what is left of the
    neighbours of the visited vertices in the order of their visit. *)
Record stack_inv (U : list V) (stack R : list V)
  (frames : list (V * list V)) : Prop := mk_stack_inv {
  sk_frames : List.map fst frames = R;
  sk_ok : Forall (frame_ok R) frames;
  sk_stack : stack = concat (List.map (fun fr => rev (snd fr)) frames);
  sk_nodup : NoDup R;
  sk_in : incl R U;
  sk_order : stacked R
}.

(** State of [bfs]: the queue holds, front to back, what is left of the
    neighbours of the visited vertices in the order of their visit. *)
Record queue_inv (U : list V) (queue R : list V)
  (frames : list (V * list V)) : Prop := mk_queue_inv {
  qu_frames : List.map fst frames = R;
  qu_ok : Forall (frame_ok R) frames;
  qu_queue : queue = concat (List.map snd frames);
  qu_nodup : NoDup R;
  qu_in : incl R U;
  qu_order : queued R
}.

(** What a finished search returns. *)
Record finished (order : list V -> Prop) (U : list V) (v0 : V) (R : list V)
  : Prop := mk_finished {
  fi_nodup : NoDup R;
  fi_in : incl R U;
  fi_first : exists S, R = v0 :: S;
  fi_order : order R;
  fi_spent : forall u, In u R -> spent R u
}.

End Lists.

Arguments next_in {V} explore P u x.
Arguments spent {V} explore P u.
Arguments stacked {V} explore R.
Arguments queued {V} explore R.
Arguments frame_ok {V} explore R fr.
Arguments weight {V} eqb temp U R.
Arguments stack_inv {V} explore U stack R frames.
Arguments queue_inv {V} explore U queue R frames.
Arguments finished {V} explore order U v0 R.

End SearchOrder.

(** ** DirectedGraph: the queries *)

Module DirectedQueries.
Import Directed.

(** [get_vertices()] *)
Definition get_vertices (g : DirectedGraph) : list Z :=
  List.map Z.of_nat (seq 0 (v_count g)).

(** The inner loop of [get_edges]: [u_count] is the position of the head
    of [row]. *)
Fixpoint row_edges (row : list Z) (v_count u_count : Z) : list (Z * Z * Z) :=
  match row with
  | [] => []
  | u :: rest =>
      if negb (u =? 0)
      then (v_count, u_count, u) :: row_edges rest v_count (u_count + 1)
      else row_edges rest v_count (u_count + 1)
  end.

(** The outer loop of [get_edges]: [v_count] is the position of the head
    of [rows]. *)
Fixpoint edges_from (rows : list (list Z)) (v_count : Z) : list (Z * Z * Z) :=
  match rows with
  | [] => []
  | v :: rest => row_edges v v_count 0 ++ edges_from rest (v_count + 1)
  end.

(** [get_edges()] *)
Definition get_edges (g : DirectedGraph) : list (Z * Z * Z) :=
  edges_from (adj_matrix g) 0.

(** The loop of [is_valid_path]: [todo] is what is left of [path] and
    [count] the number of rounds done.  [Some b] is the Boolean returned,
    [None] the [None] of a function that ends without [return]. *)
Fixpoint valid_path_from (g : DirectedGraph) (path todo : list Z) (count : Z)
  : outcome (option bool) :=
  match todo with
  | [] => Ret None
  | v :: rest =>
      let count := count + 1 in
      if count =? Z.of_nat (length path) then Ret (Some true)
      else
        u <- Py.get path count ;;
        row <- Py.get (adj_matrix g) v ;;
        w <- Py.get row u ;;
        if w =? 0 then Ret (Some false)
        else valid_path_from g path rest count
  end.

(** [is_valid_path(path)] *)
Definition is_valid_path (g : DirectedGraph) (path : list Z)
  : outcome (option bool) :=
  match path with
  | [] => Ret (Some true)
  | _ => valid_path_from g path path 0
  end.

(** [e1] comes before [e2] in row-major order: a smaller source, or the
    same source and a smaller destination. *)
Definition row_major (e1 e2 : Z * Z * Z) : Prop :=
  fst (fst e1) < fst (fst e2) \/
  (fst (fst e1) = fst (fst e2) /\ snd (fst e1) < snd (fst e2)).

(** Consecutive vertices of [l] are joined by an edge. *)
Fixpoint linked (g : DirectedGraph) (l : list Z) : Prop :=
  match l with
  | a :: ((b :: _) as t) => DirectedCycles.arc g a b /\ linked g t
  | _ => True
  end.

End DirectedQueries.

(** ** UndirectedGraph: the queries *)

Module UndirectedQueries.
Import Undirected.

(** Equality of two pairs of labels. *)
Definition pair_eqb (p q : string * string) : bool :=
  String.eqb (fst p) (fst q) && String.eqb (snd p) (snd q).

(** The inner loop of [get_edges] over the neighbours of [key]. *)
Fixpoint edges_of (key : string) (values : list string)
  (edges : list (string * string)) : list (string * string) :=
  match values with
  | [] => edges
  | value :: rest =>
      let pair := (key, value) in
      if negb (Py.mem pair_eqb (value, key) edges)
      then edges_of key rest (edges ++ [pair])
      else edges_of key rest edges
  end.

(** The outer loop of [get_edges] over the keys that remain. *)
Fixpoint edges_over (g : UndirectedGraph) (keys : list string)
  (edges : list (string * string)) : outcome (list (string * string)) :=
  match keys with
  | [] => Ret edges
  | key :: rest =>
      match get key g with
      | Some values => edges_over g rest (edges_of key values edges)
      | None => Raise TypeError
      end
  end.

(** [get_edges()] *)
Definition get_edges (g : UndirectedGraph) : outcome (list (string * string)) :=
  edges_over g (get_vertices g) [].

(** The loop of [is_valid_path] over the consecutive pairs of [path]. *)
Fixpoint valid_pairs (g : UndirectedGraph) (path : list string) : outcome bool :=
  match path with
  | a :: ((b :: _) as t) =>
      if negb (has_key a g) then Ret false
      else
        m <- mem_get b a g ;;
        if negb m then Ret false else valid_pairs g t
  | _ => Ret true
  end.

(** [is_valid_path(path)] *)
Definition is_valid_path (g : UndirectedGraph) (path : list string)
  : outcome bool :=
  match path with
  | [] => Ret true
  | [a] => if negb (has_key a g) then Ret false else valid_pairs g path
  | _ => valid_pairs g path
  end.

(** The loop of [count_helper]: [helper] is the recursive call. *)
Fixpoint flood (helper : string -> list string -> outcome (list string))
  (adj : list string) (visited : list string) : outcome (list string) :=
  match adj with
  | [] => Ret visited
  | u :: rest =>
      if negb (Py.mem String.eqb u visited) then
        visited <- helper u visited ;; flood helper rest visited
      else flood helper rest visited
  end.

(** [count_helper(v, visited)]: the shared [visited] list as the call
    leaves it. *)
Fixpoint count_helper (fuel : nat) (g : UndirectedGraph) (v : string)
  (visited : list string) {struct fuel} : outcome (list string) :=
  match fuel with
  | O => OutOfFuel
  | S fuel' =>
      let visited := visited ++ [v] in
      adj <- getitem v g ;;
      flood (count_helper fuel' g) adj visited
  end.

(** The loop of [count_connected_components] over the keys that remain. *)
Fixpoint count_from (fuel : nat) (g : UndirectedGraph) (keys : list string)
  (visited : list string) (count : nat) : outcome nat :=
  match keys with
  | [] => Ret count
  | v :: rest =>
      if negb (Py.mem String.eqb v visited) then
        visited <- count_helper fuel g v visited ;;
        count_from fuel g rest visited (S count)
      else count_from fuel g rest visited count
  end.

(** [count_connected_components()] *)
Definition count_connected_components (fuel : nat) (g : UndirectedGraph)
  : outcome nat :=
  count_from fuel g (get_vertices g) [] O.

(** State of the flood fill: every visited vertex that is not on the
    current branch [open] has all its neighbours visited. *)
Record flooded (g : UndirectedGraph) (visited open : list string) : Prop :=
  mk_flooded {
  fl_nodup : NoDup visited;
  fl_keys : forall u, In u visited -> has_key u g = true;
  fl_closed : forall u, In u visited -> ~ In u open ->
                forall w, UndirectedSpec.adjacent g u w -> In w visited
}.

End UndirectedQueries.

(** ** Stopping a search at [v_end] *)

Module SearchStop.

(** [l] up to and including the first [e]; all of [l] when [e] is not in
    it. *)
Fixpoint cut_after {A : Type} (eqb : A -> A -> bool) (e : A) (l : list A)
  : list A :=
  match l with
  | [] => []
  | h :: t => if eqb h e then [h] else h :: cut_after eqb e t
  end.

End SearchStop.

(** ** The pairs [get_edges] of an UndirectedGraph goes through *)

Module UndirectedEdges.
Import Undirected.

(** The pairs [(key, value)] the two loops of [get_edges] take, in order,
    for the keys [keys]. *)
Definition pairs_of (g : UndirectedGraph) (keys : list string)
  : list (string * string) :=
  flat_map (fun k => match get k g with
                     | Some l => List.map (pair k) l
                     | None => []
                     end) keys.

(** [edges] after the loops have taken the pairs [P]: it holds pairs of
    [P] only, each pair of [P] in one direction, and nothing twice. *)
Record listed (P edges : list (string * string)) : Prop := mk_listed {
  li_in : incl edges P;
  li_cover : forall u v, In (u, v) P -> In (u, v) edges \/ In (v, u) edges;
  li_nodup : NoDup edges;
  li_once : forall u v, In (u, v) edges -> ~ In (v, u) edges
}.

End UndirectedEdges.

(** ** Cycles longer than the recursion limit *)

Module LongCycles.


(** The vertex after [k] on the ring of [n] vertices. *)
Definition ring_next (n k : nat) : nat :=
  if Nat.eqb (S k) n then O else S k.

(** Row [v] of the matrix of the ring [0 -> 1 -> ... -> n-1 -> 0]: weight 1
    at the position of the next vertex. *)
Definition ring_row (n v : nat) : list Z :=
  List.map (fun j => if Nat.eqb j (ring_next n v) then 1 else 0) (seq 0 n).

(** The directed ring on [n] vertices, as [DirectedGraph(ring_edges n)]
    builds it. *)
Definition ring_graph (n : nat) : Directed.DirectedGraph :=
  Directed.mkDirected n (List.map (ring_row n) (seq 0 n)).

(** The triples [(v, next v, 1)] of the ring on [n] vertices. *)
Definition ring_edges (n : nat) : list (Z * Z * Z) :=
  List.map (fun v => (Z.of_nat v, Z.of_nat (ring_next n v), 1)) (seq 0 n).

(** The label of vertex [k]: ["v"], ["va"], ["vaa"], ... *)
Fixpoint tail_of (k : nat) : string :=
  match k with
  | O => EmptyString
  | S k' => String "a"%char (tail_of k')
  end.

Definition label (k : nat) : string := String "v"%char (tail_of k).

(** The adjacency list of vertex [k] of the ring on [n] vertices, in the
    order in which [add_edge] fills it. *)
Definition ring_adj (n k : nat) : list string :=
  match k with
  | O => [label 1; label (pred n)]
  | S j => [label j; label (ring_next n k)]
  end.

(** The undirected ring on [n] vertices, as [UndirectedGraph(ring_pairs n)]
    builds it. *)
Definition ud_ring (n : nat) : Undirected.UndirectedGraph :=
  List.map (fun k => (label k, ring_adj n k)) (seq 0 n).

(** The pairs [(label k, label (next k))] of the ring on [n] vertices. *)
Definition ring_pairs (n : nat) : list (string * string) :=
  List.map (fun k => (label k, label (ring_next n k))) (seq 0 n).


End LongCycles.

(** * Properties *)

(** ** Python lists *)

Module PyFacts.
Import Py.

Lemma index_nonneg (len : nat) (i : Z) :
  0 <= i < Z.of_nat len -> index len i = Some (Z.to_nat i).
Proof.
  intros H. unfold index.
  destruct (Z.leb_spec 0 i); destruct (Z.ltb_spec i (Z.of_nat len)); simpl;
    try lia; reflexivity.
Qed.

Lemma index_too_large (len : nat) (i : Z) :
  Z.of_nat len <= i -> index len i = None.
Proof.
  intros H. unfold index.
  destruct (Z.leb_spec 0 i); destruct (Z.ltb_spec i (Z.of_nat len));
    destruct (Z.ltb_spec i 0); simpl; try lia; reflexivity.
Qed.

Lemma index_bound (len : nat) (i : Z) (k : nat) :
  index len i = Some k -> (k < len)%nat.
Proof.
  unfold index.
  destruct (Z.leb_spec 0 i); destruct (Z.ltb_spec i (Z.of_nat len));
    destruct (Z.ltb_spec i 0); destruct (Z.leb_spec (- Z.of_nat len) i);
    simpl; intros E; inversion E; lia.
Qed.

Lemma get_nonneg {A : Type} (l : list A) (i : Z) :
  0 <= i < Z.of_nat (length l) ->
  exists a, get l i = Ret a /\ nth_error l (Z.to_nat i) = Some a.
Proof.
  intros H. unfold get. rewrite index_nonneg by exact H.
  destruct (nth_error l (Z.to_nat i)) eqn:E.
  - eauto.
  - apply nth_error_None in E. lia.
Qed.

Lemma get_nth {A : Type} (l : list A) (i : Z) (a : A) :
  0 <= i -> nth_error l (Z.to_nat i) = Some a -> get l i = Ret a.
Proof.
  intros Hi E.
  assert (Z.to_nat i < length l)%nat by (apply nth_error_Some; congruence).
  destruct (get_nonneg l i) as (b & Hb & Hn); [lia|]. congruence.
Qed.

Lemma get_too_large {A : Type} (l : list A) (i : Z) :
  Z.of_nat (length l) <= i -> get l i = Raise IndexError.
Proof. intros H. unfold get. now rewrite index_too_large. Qed.

Lemma set_nonneg {A : Type} (l : list A) (i : Z) (a : A) :
  0 <= i < Z.of_nat (length l) -> set l i a = Ret (update l (Z.to_nat i) a).
Proof. intros H. unfold set. now rewrite index_nonneg. Qed.

Lemma length_update {A : Type} (l : list A) (k : nat) (a : A) :
  length (update l k a) = length l.
Proof.
  revert k; induction l as [|h t IH]; intros [|k]; simpl; auto.
Qed.

Lemma nth_update_same {A : Type} (l : list A) (k : nat) (a : A) :
  (k < length l)%nat -> nth_error (update l k a) k = Some a.
Proof.
  revert k; induction l as [|h t IH]; intros [|k]; simpl; intros H;
    try lia; auto. apply IH; lia.
Qed.

Lemma nth_update_other {A : Type} (l : list A) (k j : nat) (a : A) :
  k <> j -> nth_error (update l k a) j = nth_error l j.
Proof.
  revert k j; induction l as [|h t IH]; intros [|k] [|j]; simpl; intros H;
    try congruence; auto.
Qed.

Lemma In_update {A : Type} (l : list A) (k : nat) (a x : A) :
  In x (update l k a) -> x = a \/ In x l.
Proof.
  revert k; induction l as [|h t IH]; intros [|k]; simpl; intros H; auto.
  - destruct H; auto.
  - destruct H as [H|H]; auto. apply IH in H. tauto.
Qed.

Lemma mem_In_Z (x : Z) (l : list Z) : mem Z.eqb x l = true <-> In x l.
Proof.
  unfold mem. rewrite existsb_exists. split.
  - intros (y & Hy & E). apply Z.eqb_eq in E. now subst.
  - intros H. exists x. split; auto. apply Z.eqb_refl.
Qed.

Lemma mem_In_string (x : string) (l : list string) :
  mem String.eqb x l = true <-> In x l.
Proof.
  unfold mem. rewrite existsb_exists. split.
  - intros (y & Hy & E). apply String.eqb_eq in E. now subst.
  - intros H. exists x. split; auto. apply String.eqb_refl.
Qed.

Lemma mem_false_Z (x : Z) (l : list Z) : mem Z.eqb x l = false <-> ~ In x l.
Proof.
  rewrite <- mem_In_Z. destruct (mem Z.eqb x l); split; congruence.
Qed.

Lemma mem_false_string (x : string) (l : list string) :
  mem String.eqb x l = false <-> ~ In x l.
Proof.
  rewrite <- mem_In_string. destruct (mem String.eqb x l); split; congruence.
Qed.

End PyFacts.

(** ** DirectedGraph: mutation *)

Module DirectedFacts.
Import Py PyFacts Directed DirectedSpec.

Lemma square_empty : square empty.
Proof. split; simpl; auto. Qed.

Lemma square_add_vertex (g : DirectedGraph) :
  square g -> square (fst (add_vertex g)).
Proof.
  intros [Hl Hr]. split; simpl.
  - rewrite length_app, length_map. simpl. lia.
  - apply Forall_app. split.
    + rewrite Forall_map. eapply Forall_impl; [|exact Hr].
      simpl. intros row E. rewrite length_app. simpl. lia.
    + constructor; [|constructor]. simpl. now rewrite repeat_length.
Qed.

Lemma set_entry_Ret (g g' : DirectedGraph) (src dst w : Z) :
  set_entry g src dst w = Ret g' ->
  exists i j row,
    index (length (adj_matrix g)) src = Some i /\
    nth_error (adj_matrix g) i = Some row /\
    index (length row) dst = Some j /\
    g' = mkDirected (v_count g) (update (adj_matrix g) i (update row j w)).
Proof.
  unfold set_entry, get, set.
  destruct (index (length (adj_matrix g)) src) as [i|] eqn:Ei; simpl; [|discriminate].
  destruct (nth_error (adj_matrix g) i) as [row|] eqn:Er; simpl; [|discriminate].
  destruct (index (length row) dst) as [j|] eqn:Ej; simpl; [|discriminate].
  intros E. inversion E. exists i, j, row. auto.
Qed.

Lemma square_set_entry (g g' : DirectedGraph) (src dst w : Z) :
  square g -> set_entry g src dst w = Ret g' -> square g'.
Proof.
  intros [Hl Hr] E. apply set_entry_Ret in E.
  destruct E as (i & j & row & Hi & Hrow & Hj & ->). split; simpl.
  - now rewrite length_update.
  - rewrite Forall_forall in *. intros r Hin.
    apply In_update in Hin. destruct Hin as [->|Hin]; auto.
    rewrite length_update. apply Hr. eapply nth_error_In; eauto.
Qed.

Lemma square_exec (g : DirectedGraph) (c : call) : square g -> square (exec g c).
Proof.
  intros H. destruct c as [|s d w|s d]; simpl.
  - now apply square_add_vertex.
  - unfold add_edge.
    destruct (negb (s =? d) && (w >=? 0) && (len_matrix g >? s) && (len_matrix g >? d));
      simpl; auto.
    destruct (set_entry g s d w) eqn:E; simpl; auto.
    eapply square_set_entry; eauto.
  - unfold remove_edge.
    destruct ((len_matrix g >? s) && (len_matrix g >? d) && (s >=? 0) && (d >=? 0));
      simpl; auto.
    destruct (set_entry g s d 0) eqn:E; simpl; auto.
    eapply square_set_entry; eauto.
Qed.

Lemma square_fold (cs : list call) (g : DirectedGraph) :
  square g -> square (fold_left exec cs g).
Proof.
  revert g; induction cs as [|c cs IH]; simpl; intros g H; auto.
  apply IH. now apply square_exec.
Qed.

(** Every state a client can reach is a [v_count] by [v_count] matrix. *)
Lemma square_run (cs : list call) : square (run cs).
Proof. apply square_fold, square_empty. Qed.

Lemma nonneg_set_entry (g g' : DirectedGraph) (src dst w : Z) :
  nonneg g -> 0 <= w -> set_entry g src dst w = Ret g' -> nonneg g'.
Proof.
  unfold nonneg. intros H Hw E. apply set_entry_Ret in E.
  destruct E as (i & j & row & Hi & Hrow & Hj & ->). simpl.
  rewrite Forall_forall in *. intros r Hin.
  apply In_update in Hin. destruct Hin as [->|Hin]; auto.
  rewrite Forall_forall. intros x Hx. apply In_update in Hx.
  destruct Hx as [->|Hx]; auto.
  assert (Hr : Forall (fun w => 0 <= w) row)
    by (apply H; eapply nth_error_In; eauto).
  rewrite Forall_forall in Hr. auto.
Qed.

Lemma nonneg_exec (g : DirectedGraph) (c : call) : nonneg g -> nonneg (exec g c).
Proof.
  intros H. destruct c as [|s d w|s d]; simpl.
  - unfold nonneg; simpl. apply Forall_app. split.
    + rewrite Forall_map. eapply Forall_impl; [|exact H].
      simpl. intros row Hrow. apply Forall_app. split; auto.
      constructor; [lia|constructor].
    + constructor; [|constructor].
      rewrite Forall_forall. intros x Hx.
      apply (repeat_spec (S (v_count g)) 0 x) in Hx. lia.
  - unfold add_edge.
    destruct (negb (s =? d)); simpl; auto.
    destruct (Z.geb_spec w 0) as [Hw|Hw]; simpl; auto.
    destruct ((len_matrix g >? s) && (len_matrix g >? d)); simpl; auto.
    destruct (set_entry g s d w) eqn:E; simpl; auto.
    eapply nonneg_set_entry; eauto; lia.
  - unfold remove_edge.
    destruct ((len_matrix g >? s) && (len_matrix g >? d) && (s >=? 0) && (d >=? 0));
      simpl; auto.
    destruct (set_entry g s d 0) eqn:E; simpl; auto.
    eapply nonneg_set_entry; eauto; lia.
Qed.

(** Every weight a client can store is positive: a nonzero entry of a
    reachable matrix is greater than zero. *)
Lemma nonneg_fold (cs : list call) (g : DirectedGraph) :
  nonneg g -> nonneg (fold_left exec cs g).
Proof.
  revert g; induction cs as [|c cs IH]; simpl; intros g H; auto.
  apply IH. now apply nonneg_exec.
Qed.

Lemma nonneg_run (cs : list call) : nonneg (run cs).
Proof. apply nonneg_fold. constructor. Qed.

Lemma entry_nonneg (g : DirectedGraph) (i j : nat) (w : Z) :
  nonneg g -> entry g i j = Some w -> 0 <= w.
Proof.
  unfold nonneg, entry. intros H E.
  destruct (nth_error (adj_matrix g) i) as [row|] eqn:Er; [|discriminate].
  rewrite Forall_forall in H. specialize (H row (nth_error_In _ _ Er)).
  rewrite Forall_forall in H. apply H. eapply nth_error_In; eauto.
Qed.

(** [add_edge] with a self-loop, a negative weight or an endpoint at or
    beyond the vertex count returns without touching the graph. *)
Lemma add_edge_rejected (g : DirectedGraph) (src dst weight : Z) :
  src = dst \/ weight < 0 \/ len_matrix g <= src \/ len_matrix g <= dst ->
  add_edge g src dst weight = Ret g.
Proof.
  intros H. unfold add_edge.
  destruct (Z.eqb_spec src dst); simpl; auto.
  destruct (Z.geb_spec weight 0); simpl; auto.
  destruct (Z.gtb_spec (len_matrix g) src); simpl; auto.
  destruct (Z.gtb_spec (len_matrix g) dst); simpl; auto.
  lia.
Qed.

(** [add_edge] between two distinct vertices [0 <= src, dst < v_count] with
    a weight that is not negative stores the weight at [M[src][dst]] and
    nothing else. *)
Lemma add_edge_accepted (g : DirectedGraph) (src dst weight : Z) :
  square g ->
  0 <= src < Z.of_nat (v_count g) -> 0 <= dst < Z.of_nat (v_count g) ->
  src <> dst -> 0 <= weight ->
  exists g',
    add_edge g src dst weight = Ret g' /\
    v_count g' = v_count g /\
    entry g' (Z.to_nat src) (Z.to_nat dst) = Some weight /\
    forall i j, (i, j) <> (Z.to_nat src, Z.to_nat dst) ->
                entry g' i j = entry g i j.
Proof.
  intros [Hl Hr] Hs Hd Hne Hw. unfold add_edge, len_matrix. rewrite Hl.
  destruct (Z.eqb_spec src dst); [lia|].
  destruct (Z.geb_spec weight 0); [|lia].
  destruct (Z.gtb_spec (Z.of_nat (v_count g)) src); [|lia].
  destruct (Z.gtb_spec (Z.of_nat (v_count g)) dst); [|lia]. simpl.
  unfold set_entry.
  destruct (get_nonneg (adj_matrix g) src) as (row & -> & Hrow); [lia|]. simpl.
  assert (Hlen : length row = v_count g).
  { rewrite Forall_forall in Hr. apply Hr. eapply nth_error_In; eauto. }
  rewrite set_nonneg by lia. simpl. rewrite set_nonneg by lia. simpl.
  eexists. split; [reflexivity|]. split; [reflexivity|]. unfold entry; simpl.
  split.
  - rewrite nth_update_same by lia. apply nth_update_same. lia.
  - intros i j Hij. destruct (Nat.eq_dec (Z.to_nat src) i) as [<-|Hi].
    + rewrite nth_update_same by lia. rewrite Hrow.
      apply nth_update_other. congruence.
    + now rewrite nth_update_other.
Qed.

Lemma remove_edge_accepted (g : DirectedGraph) (src dst : Z) :
  0 <= src < len_matrix g -> 0 <= dst < len_matrix g ->
  remove_edge g src dst = set_entry g src dst 0.
Proof.
  intros Hs Hd. unfold remove_edge.
  destruct (Z.gtb_spec (len_matrix g) src); [|lia].
  destruct (Z.gtb_spec (len_matrix g) dst); [|lia].
  destruct (Z.geb_spec src 0); [|lia].
  destruct (Z.geb_spec dst 0); [|lia]. reflexivity.
Qed.

(** C3, at a negative endpoint: on the graph of two vertices without edges
    [add_edge(-1, 0, 5)] is not ignored but stores 5 at [M[1][0]], and
    [add_edge(-3, 0, 5)] raises [IndexError]. *)
Theorem add_edge_negative_endpoint :
  add_edge g2 (-1) 0 5 = Ret (mkDirected 2 [[0; 0]; [5; 0]]) /\
  add_edge g2 (-1) 0 5 <> Ret g2 /\
  add_edge g2 (-3) 0 5 = Raise IndexError.
Proof.
  split; [reflexivity|]. split; [|reflexivity].
  intros H. vm_compute in H. discriminate.
Qed.

(** C4, at a negative endpoint: after [add_vertex()] and
    [add_edge(-1, 0, 5)] the matrix is [[5]], a self-loop on vertex 0. *)
Theorem self_loop_reachable :
  run [AddVertex; AddEdge (-1) 0 5] = mkDirected 1 [[5]] /\
  entry (run [AddVertex; AddEdge (-1) 0 5]) 0 0 = Some 5.
Proof. split; reflexivity. Qed.

(** C9: between two distinct valid vertices [add_edge(src, dst, 0)] passes
    the guard, does exactly what [remove_edge(src, dst)] does, and leaves 0
    at [M[src][dst]]. *)
Theorem add_edge_zero_is_remove_edge (g : DirectedGraph) (src dst : Z) :
  square g ->
  0 <= src < Z.of_nat (v_count g) -> 0 <= dst < Z.of_nat (v_count g) ->
  src <> dst ->
  add_edge g src dst 0 = set_entry g src dst 0 /\
  add_edge g src dst 0 = remove_edge g src dst /\
  exists g', add_edge g src dst 0 = Ret g' /\
             entry g' (Z.to_nat src) (Z.to_nat dst) = Some 0.
Proof.
  intros Hsq Hs Hd Hne.
  assert (Hlen : len_matrix g = Z.of_nat (v_count g))
    by (unfold len_matrix; destruct Hsq as [-> _]; reflexivity).
  assert (Ha : add_edge g src dst 0 = set_entry g src dst 0).
  { unfold add_edge. rewrite Hlen.
    destruct (Z.eqb_spec src dst); [lia|].
    destruct (Z.gtb_spec (Z.of_nat (v_count g)) src); [|lia].
    destruct (Z.gtb_spec (Z.of_nat (v_count g)) dst); [|lia]. reflexivity. }
  split; [exact Ha|]. split.
  - rewrite Ha. symmetry. apply remove_edge_accepted; lia.
  - destruct (add_edge_accepted g src dst 0 Hsq Hs Hd Hne) as (g' & E & _ & He & _);
      [lia|]. exists g'. auto.
Qed.

Lemma add_edge_zero_is_remove_edge_witness :
  add_edge DirectedPaths.g_example 0 1 0
  = set_entry DirectedPaths.g_example 0 1 0 /\
  add_edge DirectedPaths.g_example 0 1 0
  = remove_edge DirectedPaths.g_example 0 1 /\
  exists g', add_edge DirectedPaths.g_example 0 1 0 = Ret g' /\
             entry g' 0 1 = Some 0.
Proof.
  apply (add_edge_zero_is_remove_edge DirectedPaths.g_example 0 1).
  - split; [reflexivity|]. repeat constructor.
  - simpl; lia.
  - simpl; lia.
  - lia.
Defined.

(** The guard of [dfs] and [bfs] answers a start above the vertex count. *)
Lemma search_start_above_count (fuel : nat) (g : DirectedGraph) (v_start : Z) :
  len_matrix g < v_start ->
  dfs fuel g v_start None = Ret [] /\ bfs fuel g v_start None = Ret [].
Proof.
  intros H. unfold dfs, bfs.
  destruct (Z.gtb_spec v_start (len_matrix g)); [auto|lia].
Qed.

(** C5, at the first id beyond the range and at a negative id: on the graph
    with the single vertex 0, [dfs(1)] and [bfs(1)] raise [IndexError], and
    [dfs(-1)] and [bfs(-1)] return [[-1]]. *)
Theorem search_start_out_of_range (fuel : nat) :
  dfs (S fuel) g1 1 None = Raise IndexError /\
  bfs (S fuel) g1 1 None = Raise IndexError /\
  dfs (S (S fuel)) g1 (-1) None = Ret [-1] /\
  bfs (S (S fuel)) g1 (-1) None = Ret [-1].
Proof. repeat split; reflexivity. Qed.

End DirectedFacts.

(** ** UndirectedGraph: mutation *)

Module UndirectedFacts.
Import Py PyFacts Undirected UndirectedSpec.

Ltac str_eq :=
  repeat match goal with
  | |- context [String.eqb ?a ?b] => destruct (String.eqb_spec a b); subst
  | H : context [String.eqb ?a ?b] |- _ => destruct (String.eqb_spec a b); subst
  end.

Lemma has_key_get (k : string) (g : UndirectedGraph) :
  has_key k g = match get k g with Some _ => true | None => false end.
Proof.
  induction g as [|[k' l] g IH]; simpl; auto.
  destruct (String.eqb_spec k k'); simpl; auto.
Qed.

Lemma has_key_In (k : string) (g : UndirectedGraph) :
  has_key k g = true <-> In k (get_vertices g).
Proof.
  unfold has_key, get_vertices. rewrite existsb_exists, in_map_iff. split.
  - intros (e & He & E). apply String.eqb_eq in E. subst. eauto.
  - intros (e & <- & He). exists e. split; auto. apply String.eqb_refl.
Qed.

Lemma get_In_keys (k : string) (l : list string) (g : UndirectedGraph) :
  get k g = Some l -> In k (get_vertices g).
Proof.
  intros E. apply has_key_In. rewrite has_key_get, E. reflexivity.
Qed.

Lemma get_app (k : string) (g h : UndirectedGraph) :
  get k (g ++ h) = match get k g with Some l => Some l | None => get k h end.
Proof.
  induction g as [|[k' l] g IH]; simpl; auto.
  destruct (String.eqb_spec k k'); auto.
Qed.

Lemma get_add_vertex (k v : string) (g : UndirectedGraph) :
  get k (add_vertex v g) =
  match get k g with
  | Some l => Some l
  | None => if String.eqb k v then Some [] else None
  end.
Proof.
  unfold add_vertex. rewrite has_key_get.
  destruct (get v g) eqn:Ev; simpl.
  - destruct (get k g) eqn:Ek; auto. str_eq; congruence.
  - rewrite get_app. simpl. reflexivity.
Qed.

Lemma keys_add_vertex (v : string) (g : UndirectedGraph) :
  get_vertices (add_vertex v g) =
  if has_key v g then get_vertices g else get_vertices g ++ [v].
Proof.
  unfold add_vertex, get_vertices. destruct (has_key v g); simpl; auto.
  now rewrite map_app.
Qed.

Lemma get_store (k k' : string) (l : list string) (g : UndirectedGraph) :
  get k (store k' l g) =
  if String.eqb k k'
  then match get k' g with Some _ => Some l | None => None end
  else get k g.
Proof.
  induction g as [|[k0 l0] g IH]; simpl.
  - destruct (String.eqb k k'); auto.
  - destruct (String.eqb_spec k' k0); simpl.
    + subst. destruct (String.eqb_spec k k0); auto.
    + destruct (String.eqb_spec k k0); subst.
      * destruct (String.eqb_spec k0 k'); congruence.
      * exact IH.
Qed.

Lemma keys_store (k : string) (l : list string) (g : UndirectedGraph) :
  get_vertices (store k l g) = get_vertices g.
Proof.
  unfold get_vertices. induction g as [|[k0 l0] g IH]; simpl; auto.
  destruct (String.eqb k k0); simpl; congruence.
Qed.

Lemma get_pop_key (k v : string) (g : UndirectedGraph) :
  get k (pop_key v g) = if String.eqb k v then None else get k g.
Proof.
  unfold pop_key. induction g as [|[k0 l0] g IH]; simpl.
  - destruct (String.eqb k v); auto.
  - destruct (String.eqb_spec v k0); simpl.
    + subst. destruct (String.eqb_spec k k0); auto.
    + destruct (String.eqb_spec k k0); subst; auto.
      destruct (String.eqb_spec k0 v); congruence.
Qed.

Lemma keys_pop_key (v : string) (g : UndirectedGraph) :
  get_vertices (pop_key v g) =
  filter (fun k => negb (String.eqb v k)) (get_vertices g).
Proof.
  unfold pop_key, get_vertices. induction g as [|[k0 l0] g IH]; simpl; auto.
  destruct (String.eqb v k0); simpl; congruence.
Qed.

Lemma remove_first_absent (x : string) (l : list string) :
  ~ In x l -> remove_first String.eqb x l = l.
Proof.
  induction l as [|h t IH]; simpl; intros H; auto.
  destruct (String.eqb_spec x h); [subst; tauto|]. f_equal. tauto.
Qed.

Lemma In_remove_first (x y : string) (l : list string) :
  NoDup l -> (In y (remove_first String.eqb x l) <-> In y l /\ y <> x).
Proof.
  induction l as [|h t IH]; simpl; intros H; [tauto|].
  inversion H as [|? ? Hn Ht]; subst.
  destruct (String.eqb_spec x h); subst.
  - split.
    + intros Hy. split; auto. intros ->. tauto.
    + intros [[E|Hy] Hne]; [congruence|assumption].
  - simpl. rewrite IH by assumption. intuition congruence.
Qed.

Lemma NoDup_remove_first (x : string) (l : list string) :
  NoDup l -> NoDup (remove_first String.eqb x l).
Proof.
  induction l as [|h t IH]; simpl; intros H; auto.
  inversion H as [|? ? Hn Ht]; subst.
  destruct (String.eqb_spec x h); auto.
  constructor; auto. rewrite In_remove_first by assumption. tauto.
Qed.

Lemma get_strip (k v : string) (g : UndirectedGraph) :
  get k (map (fun e => if mem String.eqb v (snd e)
                       then (fst e, remove_first String.eqb v (snd e))
                       else e) g) =
  option_map (remove_first String.eqb v) (get k g).
Proof.
  induction g as [|[k0 l0] g IH]; simpl; auto.
  destruct (mem String.eqb v l0) eqn:E; simpl.
  - destruct (String.eqb k k0); auto.
  - destruct (String.eqb k k0); auto. simpl.
    rewrite remove_first_absent; auto. now apply mem_false_string.
Qed.

Lemma keys_strip (v : string) (g : UndirectedGraph) :
  get_vertices (map (fun e => if mem String.eqb v (snd e)
                       then (fst e, remove_first String.eqb v (snd e))
                       else e) g) = get_vertices g.
Proof.
  unfold get_vertices. rewrite map_map. apply map_ext.
  intros [k l]. simpl. destruct (mem String.eqb v l); reflexivity.
Qed.

Lemma has_key_true (k : string) (g : UndirectedGraph) :
  has_key k g = true <-> exists l, get k g = Some l.
Proof.
  rewrite has_key_get. destruct (get k g); split; eauto; try congruence.
  intros (l & E). discriminate.
Qed.

Lemma wf_empty : wf empty.
Proof.
  split; simpl.
  - constructor.
  - intros u v (l & E & _). discriminate.
  - intros u v. split; intros (l & E & _); discriminate.
  - intros u (l & E & _). discriminate.
  - discriminate.
Qed.

(** *** [add_vertex] *)

Lemma adjacent_add_vertex (v a b : string) (g : UndirectedGraph) :
  adjacent (add_vertex v g) a b <-> adjacent g a b.
Proof.
  unfold adjacent. split; intros (l & E & Hin).
  - rewrite get_add_vertex in E. destruct (get a g) eqn:Ea.
    + inversion E; subst. eauto.
    + destruct (String.eqb a v); inversion E; subst. destruct Hin.
  - exists l. rewrite get_add_vertex, E. auto.
Qed.

Lemma has_key_add_vertex (v k : string) (g : UndirectedGraph) :
  has_key k (add_vertex v g) = has_key k g || String.eqb k v.
Proof.
  rewrite !has_key_get, get_add_vertex.
  destruct (get k g); simpl; auto. destruct (String.eqb k v); auto.
Qed.

Lemma wf_add_vertex (v : string) (g : UndirectedGraph) :
  wf g -> wf (add_vertex v g).
Proof.
  intros [Hk Hc Hs Hi Hn]. split.
  - rewrite keys_add_vertex. destruct (has_key v g) eqn:E; auto.
    assert (~ In v (get_vertices g)).
    { rewrite <- has_key_In. congruence. }
    apply NoDup_app; auto.
    + constructor; [intros []|constructor].
    + intros x Hx [<-|[]]. tauto.
  - intros a b H. apply adjacent_add_vertex in H. apply Hc in H.
    rewrite has_key_add_vertex, H. reflexivity.
  - intros a b. rewrite !adjacent_add_vertex. apply Hs.
  - intros a. rewrite adjacent_add_vertex. apply Hi.
  - intros a l E. rewrite get_add_vertex in E. destruct (get a g) eqn:Ea.
    + inversion E; subst. eauto.
    + destruct (String.eqb a v); inversion E. constructor.
Qed.

(** *** [add_edge] *)

Lemma add_edge_same (u : string) (g : UndirectedGraph) : add_edge u u g = Ret g.
Proof.
  unfold add_edge. rewrite String.eqb_refl. simpl.
  rewrite !andb_false_r. reflexivity.
Qed.

Lemma add_edge_step (u v : string) (g : UndirectedGraph) :
  u <> v ->
  add_edge u v g =
  let g := add_vertex v (add_vertex u g) in
  b1 <- mem_get v u g ;;
  if negb b1 then
    b2 <- mem_get u v g ;;
    if negb b2 then g <- append_to v u g ;; append_to u v g else Ret g
  else Ret g.
Proof.
  intros Hne. unfold add_edge.
  destruct (String.eqb_spec v u); [congruence|]. simpl. rewrite !andb_true_r.
  assert (E : forall w h, (if negb (has_key w h) then add_vertex w h else h)
                          = add_vertex w h).
  { intros w h. unfold add_vertex. destruct (has_key w h); reflexivity. }
  rewrite !E. reflexivity.
Qed.

(** A graph that extends the well-formed [g] by the edge between two of
    its distinct, non-adjacent vertices [u] and [v] is well formed. *)
Lemma wf_join (u v : string) (g g' : UndirectedGraph) :
  wf g -> u <> v -> has_key u g = true -> has_key v g = true ->
  ~ adjacent g u v ->
  get_vertices g' = get_vertices g ->
  (forall a b, adjacent g' a b <->
               adjacent g a b \/ (a = u /\ b = v) \/ (a = v /\ b = u)) ->
  (forall a l, get a g' = Some l -> NoDup l) ->
  wf g'.
Proof.
  intros [Hk Hc Hs Hi Hn] Hne Hu Hv Hnadj Hkeys Hadj Hsimple. split; auto.
  - now rewrite Hkeys.
  - intros a b H. apply has_key_In. rewrite Hkeys. apply has_key_In.
    apply Hadj in H. destruct H as [H|[[-> ->]|[-> ->]]]; eauto.
  - intros a b. rewrite !Hadj. rewrite (Hs a b). intuition.
  - intros a H. apply Hadj in H.
    destruct H as [H|[[-> ->]|[-> ->]]]; try congruence. eapply Hi; eauto.
Qed.

Lemma add_edge_wf (u v : string) (g : UndirectedGraph) :
  wf g -> exists g', add_edge u v g = Ret g' /\ wf g'.
Proof.
  intros Hwf. destruct (String.eqb_spec u v) as [->|Hne].
  { rewrite add_edge_same. eauto. }
  rewrite add_edge_step by assumption. cbv zeta.
  set (g2 := add_vertex v (add_vertex u g)).
  assert (Hwf2 : wf g2) by (apply wf_add_vertex, wf_add_vertex, Hwf).
  assert (Hu : has_key u g2 = true).
  { unfold g2. rewrite !has_key_add_vertex, String.eqb_refl.
    now rewrite orb_true_r. }
  assert (Hv : has_key v g2 = true).
  { unfold g2. rewrite !has_key_add_vertex, String.eqb_refl.
    now rewrite orb_true_r. }
  destruct (proj1 (has_key_true _ _) Hu) as (lu & Elu).
  destruct (proj1 (has_key_true _ _) Hv) as (lv & Elv).
  unfold mem_get. rewrite Elu. simpl.
  destruct (mem String.eqb v lu) eqn:Evu; simpl; [eauto|].
  rewrite Elv. simpl.
  destruct (mem String.eqb u lv) eqn:Euv; simpl; [eauto|].
  apply mem_false_string in Evu, Euv.
  unfold append_to, getitem. rewrite Elv. simpl.
  rewrite get_store, Elv.
  destruct (String.eqb_spec u v) as [|_]; [congruence|]. rewrite Elu. simpl.
  eexists. split; [reflexivity|].
  assert (Hget : forall k, get k (store u (lu ++ [v]) (store v (lv ++ [u]) g2)) =
                   if String.eqb k u then Some (lu ++ [v])
                   else if String.eqb k v then Some (lv ++ [u])
                   else get k g2).
  { intros k. rewrite !get_store, Elv.
    destruct (String.eqb_spec u v); [congruence|]. rewrite Elu.
    destruct (String.eqb k u); auto. }
  apply (wf_join u v g2); auto.
  - intros (l & E & Hin). congruence.
  - now rewrite !keys_store.
  - intros a b. unfold adjacent. setoid_rewrite Hget.
    destruct (String.eqb_spec a u) as [->|Hau];
      [|destruct (String.eqb_spec a v) as [->|Hav]].
    + split.
      * intros (l & E & Hin). inversion E; subst.
        apply in_app_or in Hin. destruct Hin as [Hin|[<-|[]]]; eauto.
      * intros [(l & E & Hin)|[[_ ->]|[-> ->]]].
        -- exists (lu ++ [v]). split; auto. apply in_or_app. left. congruence.
        -- exists (lu ++ [v]). split; auto. apply in_or_app. right. simpl; auto.
        -- congruence.
    + split.
      * intros (l & E & Hin). inversion E; subst.
        apply in_app_or in Hin. destruct Hin as [Hin|[<-|[]]]; eauto.
      * intros [(l & E & Hin)|[[-> ->]|[_ ->]]].
        -- exists (lv ++ [u]). split; auto. apply in_or_app. left. congruence.
        -- congruence.
        -- exists (lv ++ [u]). split; auto. apply in_or_app. right. simpl; auto.
    + split; [tauto|]. intros [H|[[-> _]|[-> _]]]; congruence || auto.
  - intros a l. rewrite Hget.
    pose proof (wf_simple _ Hwf2) as Hn.
    destruct (String.eqb a u); [|destruct (String.eqb a v)]; intros E.
    + inversion E; subst. apply NoDup_app; eauto.
      * constructor; [intros []|constructor].
      * intros x Hx [<-|[]]. tauto.
    + inversion E; subst. apply NoDup_app; eauto.
      * constructor; [intros []|constructor].
      * intros x Hx [<-|[]]. tauto.
    + eauto.
Qed.

(** *** [remove_edge] and [remove_vertex] *)

(** A graph whose adjacency is that of the well-formed [g] cut down by a
    symmetric condition is well formed. *)
Lemma wf_cut (P : string -> string -> Prop) (g g' : UndirectedGraph) :
  wf g ->
  (forall a b, P a b -> P b a) ->
  NoDup (get_vertices g') ->
  (forall a b, adjacent g' a b <-> adjacent g a b /\ P a b) ->
  (forall a b, adjacent g' a b -> has_key b g' = true) ->
  (forall a l, get a g' = Some l -> NoDup l) ->
  wf g'.
Proof.
  intros [Hk Hc Hs Hi Hn] HP Hkeys Hadj Hclosed Hsimple. split; auto.
  - intros a b. rewrite !Hadj. rewrite (Hs a b). split; intros [H1 H2]; auto.
  - intros a H. apply Hadj in H. destruct H as [H _]. eapply Hi; eauto.
Qed.

(** What [remove_edge(v, u)] does on a well-formed graph when [v] is not
    the empty string: the edge between [v] and [u] goes, if present, and
    nothing else changes. *)
Lemma remove_edge_truthy (v u : string) (g : UndirectedGraph) :
  wf g -> truthy v = true ->
  exists g',
    remove_edge v u g = Ret g' /\
    get_vertices g' = get_vertices g /\
    (forall a b, adjacent g' a b <->
                 adjacent g a b /\ ~ (a = v /\ b = u) /\ ~ (a = u /\ b = v)) /\
    (~ adjacent g v u -> g' = g) /\
    (forall a l, get a g' = Some l -> NoDup l).
Proof.
  intros Hwf Ht. pose proof Hwf as [Hk Hc Hs Hi Hn].
  unfold remove_edge. rewrite Ht.
  assert (Hsame : ~ adjacent g v u ->
            get_vertices g = get_vertices g /\
            (forall a b, adjacent g a b <->
               adjacent g a b /\ ~ (a = v /\ b = u) /\ ~ (a = u /\ b = v)) /\
            (~ adjacent g v u -> g = g) /\
            (forall a l, get a g = Some l -> NoDup l)).
  { intros Hna. split; auto. split; [|split; auto].
    intros a b. split; [|tauto]. intros H. split; auto.
    split; intros [-> ->]; auto. apply Hna. now apply Hs. }
  destruct (has_key u g) eqn:Hu.
  2:{ exists g. split; auto. apply Hsame. intros H. apply Hs in H.
      destruct H as (l & E & _).
      rewrite has_key_get, E in Hu. discriminate. }
  destruct (proj1 (has_key_true _ _) Hu) as (lu & Elu).
  unfold mem_get. rewrite Elu. simpl.
  destruct (mem String.eqb v lu) eqn:Evu.
  2:{ exists g. split; auto. apply Hsame. intros H. apply Hs in H.
      destruct H as (l & E & Hin). apply mem_false_string in Evu. congruence. }
  apply mem_In_string in Evu.
  assert (Huv : adjacent g u v) by (exists lu; auto).
  assert (Hvu : adjacent g v u) by (now apply Hs).
  destruct Hvu as (lv & Elv & Hin). rewrite Elv. simpl.
  assert (Euv : mem String.eqb u lv = true) by (now apply mem_In_string).
  rewrite Euv. unfold remove_from, getitem, remove. rewrite Elv. simpl.
  rewrite Euv. simpl. rewrite get_store, Elv.
  assert (Hne : u <> v).
  { intros ->. apply (Hi v). exists lv; auto. }
  destruct (String.eqb_spec u v); [congruence|]. rewrite Elu. simpl.
  assert (Emem : mem String.eqb v lu = true) by (now apply mem_In_string).
  rewrite Emem. simpl. eexists. split; [reflexivity|].
  assert (Hget : forall k,
            get k (store u (remove_first String.eqb v lu)
                     (store v (remove_first String.eqb u lv) g)) =
            if String.eqb k u then Some (remove_first String.eqb v lu)
            else if String.eqb k v then Some (remove_first String.eqb u lv)
            else get k g).
  { intros k. rewrite !get_store, Elv.
    destruct (String.eqb_spec u v); [congruence|]. rewrite Elu.
    destruct (String.eqb k u); auto. }
  split; [now rewrite !keys_store|]. split; [|split].
  - intros a b. unfold adjacent. setoid_rewrite Hget.
    destruct (String.eqb_spec a u) as [->|Hau];
      [|destruct (String.eqb_spec a v) as [->|Hav]].
    + split.
      * intros (l & E & Hb). inversion E; subst.
        apply In_remove_first in Hb; eauto. destruct Hb as [Hb Hbv].
        split; eauto. split; intros [? ?]; congruence.
      * intros [(l & E & Hb) [H1 H2]]. eexists. split; [reflexivity|].
        apply In_remove_first; eauto. split; [congruence|].
        intros ->. tauto.
    + split.
      * intros (l & E & Hb). inversion E; subst.
        apply In_remove_first in Hb; eauto. destruct Hb as [Hb Hbv].
        split; eauto. split; intros [? ?]; congruence.
      * intros [(l & E & Hb) [H1 H2]]. eexists. split; [reflexivity|].
        apply In_remove_first; eauto. split; [congruence|].
        intros ->. tauto.
    + split; [|tauto]. intros H. split; auto. split; intros [? ?]; congruence.
  - intros Hna. exfalso. apply Hna. exists lv; auto.
  - intros a l. rewrite Hget.
    destruct (String.eqb a u); [|destruct (String.eqb a v)]; intros E.
    + inversion E; subst. apply NoDup_remove_first; eauto.
    + inversion E; subst. apply NoDup_remove_first; eauto.
    + eauto.
Qed.

Lemma remove_edge_falsy (u : string) (g : UndirectedGraph) :
  remove_edge EmptyString u g = Ret g.
Proof. reflexivity. Qed.

Lemma remove_edge_wf (v u : string) (g : UndirectedGraph) :
  wf g -> exists g', remove_edge v u g = Ret g' /\ wf g'.
Proof.
  intros Hwf. destruct (truthy v) eqn:Ht.
  - destruct (remove_edge_truthy v u g Hwf Ht) as (g' & E & Hk & Hadj & _ & Hn).
    exists g'. split; auto.
    apply (wf_cut (fun a b => ~ (a = v /\ b = u) /\ ~ (a = u /\ b = v)) g);
      auto.
    + tauto.
    + rewrite Hk. apply Hwf.
    + intros a b H. apply Hadj in H. destruct H as [H _].
      apply has_key_In. rewrite Hk. apply has_key_In.
      eapply wf_closed; eauto.
  - unfold remove_edge. rewrite Ht. eauto.
Qed.

Lemma remove_vertex_wf (v : string) (g : UndirectedGraph) :
  wf g -> wf (remove_vertex v g).
Proof.
  intros Hwf. pose proof Hwf as [Hk Hc Hs Hi Hn].
  unfold remove_vertex. destruct (has_key v g) eqn:Hv; auto.
  assert (Hget : forall k,
            get k (map (fun e => if mem String.eqb v (snd e)
                                 then (fst e, remove_first String.eqb v (snd e))
                                 else e) (pop_key v g)) =
            if String.eqb k v then None
            else option_map (remove_first String.eqb v) (get k g)).
  { intros k. rewrite get_strip, get_pop_key.
    destruct (String.eqb k v); reflexivity. }
  assert (Hadj : forall a b,
            adjacent (map (fun e => if mem String.eqb v (snd e)
                                 then (fst e, remove_first String.eqb v (snd e))
                                 else e) (pop_key v g)) a b <->
            adjacent g a b /\ (a <> v /\ b <> v)).
  { intros a b. unfold adjacent. setoid_rewrite Hget.
    destruct (String.eqb_spec a v) as [->|Hav].
    - split; [intros (l & E & _); discriminate | tauto].
    - destruct (get a g) as [la|] eqn:Ea; simpl.
      + split.
        * intros (l & E & Hb). inversion E; subst.
          apply In_remove_first in Hb; eauto. destruct Hb. eauto.
        * intros [(l & E & Hb) [_ Hbv]]. inversion E; subst.
          eexists. split; [reflexivity|]. apply In_remove_first; eauto.
      + split; [intros (l & E & _); discriminate|].
        intros [(l & E & _) _]. discriminate. }
  apply (wf_cut (fun a b => a <> v /\ b <> v) g); auto.
  - tauto.
  - rewrite keys_strip, keys_pop_key. now apply NoDup_filter.
  - intros a b H. apply Hadj in H. destruct H as [H [_ Hb]].
    apply Hc in H. apply has_key_true in H. destruct H as (l & E).
    apply has_key_true. rewrite Hget.
    destruct (String.eqb_spec b v); [congruence|]. rewrite E. simpl. eauto.
  - intros a l. rewrite Hget. destruct (String.eqb a v); [discriminate|].
    destruct (get a g) eqn:Ea; simpl; intros E; inversion E; subst.
    apply NoDup_remove_first; eauto.
Qed.

Lemma exec_wf (c : call) (g : UndirectedGraph) :
  wf g -> exists g', exec c g = Ret g' /\ wf g'.
Proof.
  intros Hwf. destruct c as [v|u v|v u|v]; simpl.
  - eexists. split; [reflexivity|]. now apply wf_add_vertex.
  - now apply add_edge_wf.
  - now apply remove_edge_wf.
  - eexists. split; [reflexivity|]. now apply remove_vertex_wf.
Qed.

Lemma run_from_wf (cs : list call) (g : UndirectedGraph) :
  wf g -> exists g', run_from cs g = Ret g' /\ wf g'.
Proof.
  revert g; induction cs as [|c cs IH]; simpl; intros g Hwf; eauto.
  destruct (exec_wf c g Hwf) as (g1 & -> & Hwf1). simpl. now apply IH.
Qed.

(** C6: every sequence of [add_vertex], [add_edge], [remove_edge] and
    [remove_vertex] calls on the empty graph runs without an exception and
    leaves a graph whose adjacency is symmetric, without a self-loop and
    without a repeated entry in any adjacency list. *)
Theorem run_well_formed (cs : list call) :
  exists g,
    run cs = Ret g /\
    (forall u v, adjacent g u v <-> adjacent g v u) /\
    (forall u, ~ adjacent g u u) /\
    (forall u l, get u g = Some l -> NoDup l).
Proof.
  destruct (run_from_wf cs empty wf_empty) as (g & E & [Hk Hc Hs Hi Hn]).
  exists g. auto.
Qed.

(** C7, at the empty label: the graph built by [add_edge('', 'A')] has the
    edge between [''] and ['A'], and [remove_edge('', 'A')] leaves it there,
    while [remove_edge('A', '')] removes it. *)
Theorem remove_edge_empty_label :
  init [(""%string, "A"%string)] = Ret g_empty_label /\
  adjacent g_empty_label "" "A" /\ adjacent g_empty_label "A" "" /\
  remove_edge "" "A" g_empty_label = Ret g_empty_label /\
  remove_edge "A" "" g_empty_label = Ret [(""%string, []); ("A"%string, [])].
Proof.
  split; [reflexivity|]. split; [|split; [|split; reflexivity]].
  - exists ["A"%string]. simpl. auto.
  - exists [""%string]. simpl. auto.
Qed.

End UndirectedFacts.

(** ** DirectedGraph: shortest distances *)

Module DijkstraFacts.
Import Py PyFacts Directed DirectedSpec DirectedFacts DirectedPaths.
Import DijkstraQueue DijkstraInv.

(** *** Sums *)

Lemma list_sum_le {A : Type} (f h : A -> nat) (l : list A) :
  (forall x, In x l -> (f x <= h x)%nat) ->
  (list_sum (List.map f l) <= list_sum (List.map h l))%nat.
Proof.
  induction l as [|a l IH]; simpl; intros H; auto.
  assert (f a <= h a)%nat by auto.
  assert (list_sum (List.map f l) <= list_sum (List.map h l))%nat by auto.
  lia.
Qed.

Lemma list_sum_lt {A : Type} (f h : A -> nat) (l : list A) (x0 : A) :
  (forall x, In x l -> (f x <= h x)%nat) ->
  In x0 l -> (f x0 < h x0)%nat ->
  (list_sum (List.map f l) < list_sum (List.map h l))%nat.
Proof.
  induction l as [|a l IH]; simpl; intros H Hin Hlt; [tauto|].
  assert (f a <= h a)%nat by auto.
  assert (list_sum (List.map f l) <= list_sum (List.map h l))%nat
    by (apply list_sum_le; auto).
  destruct Hin as [->|Hin].
  - lia.
  - assert (list_sum (List.map f l) < list_sum (List.map h l))%nat by auto.
    lia.
Qed.

Lemma list_sum_bound {A : Type} (f : A -> nat) (l : list A) (b : nat) :
  (forall x, In x l -> (f x <= b)%nat) ->
  (list_sum (List.map f l) <= length l * b)%nat.
Proof.
  induction l as [|a l IH]; simpl; intros H; auto.
  assert (f a <= b)%nat by auto.
  assert (list_sum (List.map f l) <= length l * b)%nat by auto.
  lia.
Qed.

(** *** The [for] loop *)

Lemma get_dist_at (map : list dist) (u : Z) :
  0 <= u < Z.of_nat (length map) -> get map u = Ret (dist_at map u).
Proof.
  intros H. destruct (get_nonneg map u H) as (a & -> & E).
  unfold dist_at. now rewrite (nth_error_nth _ _ _ E).
Qed.

Lemma relax_children (row : list Z) (vi di : Z) (map : list dist)
  (visited : list Z) (queue : list (Z * Z)) :
  0 <= vi -> vi + Z.of_nat (length row) <= Z.of_nat (length map) ->
  relax row vi di map visited queue =
  Ret (queue ++ children row vi di map visited).
Proof.
  revert vi queue. induction row as [|d rest IH]; intros vi queue Hvi Hlen.
  - simpl. now rewrite app_nil_r.
  - simpl in Hlen. simpl.
    destruct (d =? 0); simpl.
    + apply IH; lia.
    + destruct (mem Z.eqb vi visited); simpl.
      * rewrite get_dist_at by lia. simpl.
        destruct (lt_dist (di + d) (dist_at map vi)).
        -- rewrite IH by lia. now rewrite <- app_assoc.
        -- apply IH; lia.
      * rewrite IH by lia. now rewrite <- app_assoc.
Qed.

Lemma In_children (row : list Z) (vi di : Z) (map : list dist)
  (visited : list Z) (c e : Z) :
  0 <= vi ->
  (In (c, e) (children row vi di map visited) <->
   exists w, vi <= c /\ nth_error row (Z.to_nat (c - vi)) = Some w /\
             w <> 0 /\ e = di + w /\
             (~ In c visited \/ lt_dist e (dist_at map c) = true)).
Proof.
  revert vi. induction row as [|d rest IH]; intros vi Hvi.
  - simpl. split; [tauto|]. intros (w & _ & E & _).
    destruct (Z.to_nat (c - vi)); discriminate.
  - assert (Hrest : In (c, e) (children rest (vi + 1) di map visited) <->
              exists w, vi + 1 <= c /\
                nth_error (d :: rest) (Z.to_nat (c - vi)) = Some w /\
                w <> 0 /\ e = di + w /\
                (~ In c visited \/ lt_dist e (dist_at map c) = true)).
    { rewrite IH by lia. split; intros (w & Hc & E & H).
      - exists w. split; auto. split; auto.
        replace (Z.to_nat (c - vi)) with (S (Z.to_nat (c - (vi + 1)))) by lia.
        exact E.
      - exists w. split; auto. split; auto.
        replace (Z.to_nat (c - vi)) with (S (Z.to_nat (c - (vi + 1)))) in E
          by lia.
        exact E. }
    simpl children.
    destruct (negb (d =? 0) &&
              (negb (mem Z.eqb vi visited) || lt_dist (di + d) (dist_at map vi)))
      eqn:Econd.
    + simpl. rewrite Hrest. split.
      * intros [E|(w & Hc & H)].
        -- inversion E; subst. exists d.
           replace (Z.to_nat (c - c)) with O by lia. simpl.
           apply andb_true_iff in Econd. destruct Econd as [Hd Ho].
           apply negb_true_iff, Z.eqb_neq in Hd.
           repeat split; auto; try lia.
           apply orb_true_iff in Ho. destruct Ho as [Ho|Ho]; auto.
           left. apply negb_true_iff in Ho. now apply mem_false_Z.
        -- exists w. split; [lia|]. exact H.
      * intros (w & Hc & E & Hw & He & Ho).
        destruct (Z.eq_dec c vi) as [->|Hne].
        -- left. replace (Z.to_nat (vi - vi)) with O in E by lia.
           simpl in E. inversion E; subst. reflexivity.
        -- right. exists w. repeat split; auto. lia.
    + rewrite Hrest. split.
      * intros (w & Hc & H). exists w. split; [lia|]. exact H.
      * intros (w & Hc & E & Hw & He & Ho).
        destruct (Z.eq_dec c vi) as [->|Hne].
        -- exfalso. replace (Z.to_nat (vi - vi)) with O in E by lia.
           simpl in E. inversion E; subst.
           apply andb_false_iff in Econd. destruct Econd as [Hd|Hc'].
           ++ apply negb_false_iff, Z.eqb_eq in Hd. lia.
           ++ apply orb_false_iff in Hc'. destruct Hc' as [H1 H2].
              apply negb_false_iff, mem_In_Z in H1.
              destruct Ho as [Ho|Ho]; [tauto|congruence].
        -- exists w. repeat split; auto. lia.
Qed.

Lemma length_children (row : list Z) (vi di : Z) (map : list dist)
  (visited : list Z) :
  (length (children row vi di map visited) <= length row)%nat.
Proof.
  revert vi. induction row as [|d rest IH]; intros vi; simpl; auto.
  destruct (negb (d =? 0) &&
            (negb (mem Z.eqb vi visited) || lt_dist (di + d) (dist_at map vi)));
    simpl; specialize (IH (vi + 1)); lia.
Qed.

(** *** Recording a distance *)

(** [map] after [if d < map[v]: map[v] = d]. *)
Lemma record_spec (map : list dist) (v d : Z) :
  0 <= v < Z.of_nat (length map) ->
  exists map',
    (if lt_dist d (dist_at map v) then set map v (Fin d) else Ret map)
    = Ret map' /\
    length map' = length map /\
    (forall u, 0 <= u -> u <> v -> dist_at map' u = dist_at map u) /\
    ((lt_dist d (dist_at map v) = true /\ dist_at map' v = Fin d) \/
     (exists m, m <= d /\ dist_at map v = Fin m /\ map' = map)).
Proof.
  intros Hv. destruct (lt_dist d (dist_at map v)) eqn:E.
  - rewrite set_nonneg by assumption. eexists. split; [reflexivity|].
    split; [apply length_update|]. split.
    + intros u Hu Hne. unfold dist_at.
      assert (Hn : nth_error (update map (Z.to_nat v) (Fin d)) (Z.to_nat u)
                   = nth_error map (Z.to_nat u))
        by (apply nth_update_other; lia).
      destruct (nth_error map (Z.to_nat u)) as [a|] eqn:Ea.
      * rewrite (nth_error_nth _ _ _ Hn), (nth_error_nth _ _ _ Ea). reflexivity.
      * rewrite !nth_overflow; auto.
        -- apply nth_error_None. exact Ea.
        -- apply nth_error_None. exact Hn.
    + left. split; auto. unfold dist_at.
      apply nth_error_nth. apply nth_update_same. lia.
  - exists map. split; [reflexivity|]. split; auto. split; auto.
    right. destruct (dist_at map v) as [m|] eqn:Em; simpl in E; [|discriminate].
    exists m. split; auto. apply Z.ltb_ge in E. lia.
Qed.

Lemma le_dist_mono (e e' : Z) (m : dist) :
  e' <= e -> le_dist e m = true -> le_dist e' m = true.
Proof.
  destruct m as [x|]; simpl; auto. rewrite !Z.leb_le. lia.
Qed.

Lemma lt_le_dist (e : Z) (m : dist) : lt_dist e m = true -> le_dist e m = true.
Proof.
  destruct m as [x|]; simpl; auto. rewrite Z.ltb_lt, Z.leb_le. lia.
Qed.

(** *** One round lowers the measure *)

Section Round.

Variables (n : nat) (map map' : list dist) (visited : list Z) (v d : Z).
Hypothesis Hv : 0 <= v < Z.of_nat n.
Hypothesis Hrec : exists m, m <= d /\ dist_at map' v = Fin m.
Hypothesis Hlow : forall u e, 0 <= u ->
  le_dist e (dist_at map' u) = true -> le_dist e (dist_at map u) = true.

Lemma open_after (u e e' : Z) :
  0 <= u -> e' <= e ->
  open map' (visited ++ [v]) u e = true -> open map visited u e' = true.
Proof.
  unfold open. intros Hu He H. apply orb_true_iff in H.
  apply orb_true_iff. destruct H as [H|H].
  - left. apply negb_true_iff, mem_false_Z in H. apply negb_true_iff, mem_false_Z.
    intros Hin. apply H. apply in_or_app. auto.
  - right. apply Hlow; auto. eapply le_dist_mono; eauto.
Qed.

Lemma closed_after (e : Z) : d < e -> open map' (visited ++ [v]) v e = false.
Proof.
  intros He. unfold open. destruct Hrec as (m & Hm & ->). simpl.
  apply orb_false_iff. split.
  - apply negb_false_iff, mem_In_Z, in_or_app. simpl. auto.
  - apply Z.leb_gt. lia.
Qed.

Lemma potential_after (x e : Z) :
  (potential n map' (visited ++ [v]) x e <= potential n map visited x e)%nat.
Proof.
  apply list_sum_le. intros k _.
  destruct (open map' (visited ++ [v]) (Z.of_nat k) e) eqn:E; [|lia].
  rewrite (open_after (Z.of_nat k) e e); auto; lia.
Qed.

Lemma potential_child (c e : Z) :
  0 <= c < Z.of_nat n -> d < e ->
  ~ In c visited \/ lt_dist e (dist_at map' c) = true ->
  (potential n map' (visited ++ [v]) c e < potential n map visited v d)%nat.
Proof.
  intros Hc He Hopen.
  assert (Hterm : forall k,
            ((if open map' (visited ++ [v]) (Z.of_nat k) e
              then if Z.eqb (Z.of_nat k) c then 1 else 2 else 0) <=
             (if open map visited (Z.of_nat k) d
              then if Z.eqb (Z.of_nat k) v then 1 else 2 else 0))%nat).
  { intros k. destruct (open map' (visited ++ [v]) (Z.of_nat k) e) eqn:E; [|lia].
    rewrite (open_after (Z.of_nat k) e d); auto; try lia.
    destruct (Z.eqb_spec (Z.of_nat k) v) as [Ek|_].
    - rewrite Ek, closed_after in E by assumption. discriminate.
    - destruct (Z.of_nat k =? c); lia. }
  destruct (Z.eq_dec c v) as [->|Hne].
  - (* the child is [v] itself *)
    apply (list_sum_lt _ _ _ (Z.to_nat v)).
    + intros k _. apply Hterm.
    + apply in_seq. lia.
    + rewrite Z2Nat.id by lia. rewrite closed_after by assumption.
      rewrite Z.eqb_refl.
      assert (Ho : open map visited v d = true).
      { unfold open. destruct Hopen as [Hn|Hl].
        - apply mem_false_Z in Hn. now rewrite Hn.
        - destruct Hrec as (m & Hm & Em). rewrite Em in Hl. simpl in Hl.
          apply Z.ltb_lt in Hl. lia. }
      rewrite Ho. lia.
  - apply (list_sum_lt _ _ _ (Z.to_nat c)).
    + intros k _. apply Hterm.
    + apply in_seq. lia.
    + rewrite Z2Nat.id by lia. rewrite Z.eqb_refl.
      assert (Ho : open map' (visited ++ [v]) c e = true).
      { unfold open. destruct Hopen as [Hn|Hl].
        - assert (Hn' : ~ In c (visited ++ [v])).
          { intros Hin. apply in_app_or in Hin. simpl in Hin.
            destruct Hin as [?|[?|[]]]; [tauto|congruence]. }
          apply mem_false_Z in Hn'. now rewrite Hn'.
        - rewrite (lt_le_dist _ _ Hl). apply orb_true_r. }
      rewrite Ho. rewrite (open_after c e d); auto; try lia.
      destruct (Z.eqb_spec c v); [congruence|]. lia.
Qed.

Lemma measure_round (queue kids : list (Z * Z)) :
  (length kids <= n)%nat ->
  (forall c e, In (c, e) kids ->
     0 <= c < Z.of_nat n /\ d < e /\
     (~ In c visited \/ lt_dist e (dist_at map' c) = true)) ->
  (measure n map' (visited ++ [v]) (queue ++ kids) <
   measure n map visited ((v, d) :: queue))%nat.
Proof.
  intros Hlen Hkids. unfold measure. rewrite map_app, list_sum_app. simpl.
  assert (Hq : (list_sum (List.map (fun p => S n ^ potential n map'
                   (visited ++ [v]) (fst p) (snd p)) queue) <=
                list_sum (List.map (fun p => S n ^ potential n map
                   visited (fst p) (snd p)) queue))%nat).
  { apply list_sum_le. intros [x e] _. simpl.
    apply Nat.pow_le_mono_r; [lia|]. apply potential_after. }
  assert (Hk : (list_sum (List.map (fun p => S n ^ potential n map'
                   (visited ++ [v]) (fst p) (snd p)) kids) <
                S n ^ potential n map visited v d)%nat).
  { destruct kids as [|[c0 e0] kids'] eqn:Ek.
    - simpl. apply Nat.neq_0_lt_0. apply Nat.pow_nonzero. lia.
    - rewrite <- Ek in *.
      destruct (potential n map visited v d) as [|p] eqn:Ep.
      + exfalso. destruct (Hkids c0 e0) as (H1 & H2 & H3);
          [rewrite Ek; simpl; auto|].
        pose proof (potential_child c0 e0 H1 H2 H3). lia.
      + assert (Hb : (list_sum (List.map (fun p0 => S n ^ potential n map'
                        (visited ++ [v]) (fst p0) (snd p0)) kids) <=
                      length kids * S n ^ p)%nat).
        { apply list_sum_bound. intros [c e] Hin. simpl.
          apply Nat.pow_le_mono_r; [lia|].
          destruct (Hkids c e Hin) as (H1 & H2 & H3).
          pose proof (potential_child c e H1 H2 H3). lia. }
        assert (0 < S n ^ p)%nat
          by (apply Nat.neq_0_lt_0, Nat.pow_nonzero; lia).
        rewrite Nat.pow_succ_r'. nia. }
  lia.
Qed.

End Round.

(** *** Edges and paths *)

Lemma edge_entry (g : DirectedGraph) (b c w : Z) :
  edge g b c w ->
  0 <= b /\ 0 <= c /\ w <> 0 /\
  exists row, nth_error (adj_matrix g) (Z.to_nat b) = Some row /\
              nth_error row (Z.to_nat c) = Some w.
Proof.
  unfold edge, weight, entry. intros [E Hw].
  destruct (Z.leb_spec 0 b); destruct (Z.leb_spec 0 c); simpl in E;
    try discriminate.
  destruct (nth_error (adj_matrix g) (Z.to_nat b)) as [row|] eqn:Er;
    [|discriminate]. repeat split; auto. eauto.
Qed.

Lemma entry_edge (g : DirectedGraph) (b c w : Z) (row : list Z) :
  0 <= b -> 0 <= c -> w <> 0 ->
  nth_error (adj_matrix g) (Z.to_nat b) = Some row ->
  nth_error row (Z.to_nat c) = Some w ->
  edge g b c w.
Proof.
  intros Hb Hc Hw Er Ew. unfold edge, weight, entry. split; auto.
  destruct (Z.leb_spec 0 b); destruct (Z.leb_spec 0 c); simpl; try lia.
  now rewrite Er.
Qed.

Lemma edge_positive (g : DirectedGraph) (b c w : Z) :
  nonneg g -> edge g b c w -> 0 < w.
Proof.
  intros Hn He. destruct (edge_entry _ _ _ _ He) as (_ & _ & Hw & row & Er & Ew).
  assert (0 <= w); [|lia].
  apply (entry_nonneg g (Z.to_nat b) (Z.to_nat c)); auto.
  unfold entry. now rewrite Er.
Qed.

Lemma edge_in_range (g : DirectedGraph) (b c w : Z) :
  square g -> edge g b c w ->
  0 <= b < Z.of_nat (v_count g) /\ 0 <= c < Z.of_nat (v_count g).
Proof.
  intros [Hl Hr] He.
  destruct (edge_entry _ _ _ _ He) as (Hb & Hc & Hw & row & Er & Ew).
  assert (Z.to_nat b < length (adj_matrix g))%nat
    by (apply nth_error_Some; congruence).
  assert (Z.to_nat c < length row)%nat by (apply nth_error_Some; congruence).
  assert (length row = v_count g).
  { rewrite Forall_forall in Hr. apply Hr. eapply nth_error_In; eauto. }
  lia.
Qed.

Lemma path_nonneg (g : DirectedGraph) (a b d : Z) :
  nonneg g -> path g a b d -> 0 <= d.
Proof.
  intros Hn H. induction H as [|b c d w H IH He]; [lia|].
  pose proof (edge_positive _ _ _ _ Hn He). lia.
Qed.

(** *** The invariant *)

Lemma inv_round (g : DirectedGraph) (src : Z) (map map' : list dist)
  (visited : list Z) (queue : list (Z * Z)) (v d : Z) (row : list Z) :
  square g -> nonneg g -> 0 <= src ->
  inv g src (v_count g) map ((v, d) :: queue) ->
  nth_error (adj_matrix g) (Z.to_nat v) = Some row ->
  length map' = length map ->
  (forall u, 0 <= u -> u <> v -> dist_at map' u = dist_at map u) ->
  (lt_dist d (dist_at map v) = true /\ dist_at map' v = Fin d) \/
  (exists m, m <= d /\ dist_at map v = Fin m /\ map' = map) ->
  inv g src (v_count g) map' (queue ++ children row 0 d map' visited).
Proof.
  intros Hsq Hnn Hsrc [Hlen Hq Hsound Hs Hrel] Hrow Hlen' Hother Hcase.
  destruct (Hq v d (or_introl eq_refl)) as [Hv Hpath].
  pose proof (path_nonneg _ _ _ _ Hnn Hpath) as Hd.
  assert (Hlow : forall c d', 0 <= c -> dist_at map c = Fin d' ->
            exists d'', dist_at map' c = Fin d'' /\ d'' <= d').
  { intros c d' Hc E. destruct (Z.eq_dec c v) as [->|Hne].
    - destruct Hcase as [[Hlt ->]|(m & Hm & Em & ->)].
      + rewrite E in Hlt. simpl in Hlt. apply Z.ltb_lt in Hlt.
        exists d. split; auto. lia.
      + exists d'. split; auto. lia.
    - rewrite Hother by assumption. exists d'. split; auto. lia. }
  assert (Hvm : exists m, m <= d /\ dist_at map' v = Fin m).
  { destruct Hcase as [[_ ->]|(m & Hm & Em & ->)].
    - exists d. split; auto. lia.
    - exists m. auto. }
  assert (Hcarry : forall u du c w, 0 <= u -> dist_at map u = Fin du ->
            edge g u c w ->
            (exists d', dist_at map' c = Fin d' /\ d' <= du + w) \/
            (exists d', In (c, d') (queue ++ children row 0 d map' visited) /\
                        d' <= du + w)).
  { intros u du c w Hu Eu He.
    destruct (edge_entry _ _ _ _ He) as (_ & Hc & _).
    destruct (Hrel u du c w Hu Eu He) as [(d' & Ec & Hle)|(d' & Hin & Hle)].
    - left. destruct (Hlow c d' Hc Ec) as (d'' & E & Hle'').
      exists d''. split; auto. lia.
    - destruct Hin as [Hin|Hin].
      + inversion Hin; subst. left. destruct Hvm as (m & Hm & Em).
        exists m. split; auto. lia.
      + right. exists d'. split; auto. apply in_or_app. auto. }
  split.
  - congruence.
  - intros c e Hin. apply in_app_or in Hin. destruct Hin as [Hin|Hin].
    + apply Hq. right. exact Hin.
    + apply In_children in Hin; [|lia].
      destruct Hin as (w & Hc & Ew & Hw & -> & _).
      rewrite Z.sub_0_r in Ew.
      assert (He : edge g v c w) by (eapply entry_edge; eauto; lia).
      split.
      * apply (edge_in_range g v c w); auto.
      * apply path_edge with (b := v); auto.
  - intros u du Hu E. destruct (Z.eq_dec u v) as [->|Hne].
    + destruct Hcase as [[_ E']|(m & Hm & Em & ->)].
      * rewrite E' in E. inversion E; subst. exact Hpath.
      * now apply Hsound.
    + rewrite Hother in E by assumption. now apply Hsound.
  - assert (Hkeep : dist_at map src = Fin 0 -> dist_at map' src = Fin 0).
    { intros E. destruct (Hlow src 0 Hsrc E) as (d'' & E'' & Hle).
      assert (Hp : path g src src d'').
      { destruct (Z.eq_dec src v) as [->|Hne].
        - destruct Hcase as [[_ E']|(m & Hm & Em & ->)].
          + rewrite E' in E''. inversion E''; subst. exact Hpath.
          + now apply Hsound.
        - rewrite Hother in E'' by assumption. now apply Hsound. }
      pose proof (path_nonneg _ _ _ _ Hnn Hp).
      replace d'' with 0 in E'' by lia. exact E''. }
    destruct Hs as [[Hin|Hin]|E].
    + inversion Hin; subst. right.
      destruct Hcase as [[_ E']|(m & Hm & Em & ->)]; auto.
      assert (Hp : path g src src m) by (now apply Hsound).
      pose proof (path_nonneg _ _ _ _ Hnn Hp).
      replace m with 0 in Em by lia. exact Em.
    + left. apply in_or_app. auto.
    + right. auto.
  - intros u du c w Hu Eu He.
    destruct (Z.eq_dec u v) as [->|Hne].
    + destruct Hcase as [[Hlt E']|(m & Hm & Em & ->)].
      * rewrite E' in Eu. inversion Eu; subst du.
        destruct (edge_entry _ _ _ _ He) as (_ & Hc & Hw & row' & Er & Ew).
        rewrite Hrow in Er. inversion Er; subst row'.
        destruct (mem Z.eqb c visited) eqn:Ec;
          [destruct (lt_dist (d + w) (dist_at map' c)) eqn:El|].
        -- right. exists (d + w). split; [|lia]. apply in_or_app. right.
           apply In_children; [lia|]. exists w. rewrite Z.sub_0_r.
           repeat split; auto.
        -- left. destruct (dist_at map' c) as [m|]; simpl in El;
             [|discriminate].
           exists m. split; auto. apply Z.ltb_ge in El. lia.
        -- right. exists (d + w). split; [|lia]. apply in_or_app. right.
           apply In_children; [lia|]. exists w. rewrite Z.sub_0_r.
           repeat split; auto. left. now apply mem_false_Z.
      * eapply Hcarry; eauto.
    + rewrite Hother in Eu by assumption. eapply Hcarry; eauto.
Qed.

(** *** The [while] loop *)

Lemma dijkstra_loop_step (fuel : nat) (g : DirectedGraph) (map : list dist)
  (visited : list Z) (queue : list (Z * Z)) (v d : Z) :
  dijkstra_loop (S fuel) g map visited ((v, d) :: queue) =
  (m <- get map v ;;
   map <- (if lt_dist d m then set map v (Fin d) else Ret map) ;;
   row <- get (adj_matrix g) v ;;
   queue <- relax row 0 d map visited queue ;;
   dijkstra_loop fuel g map (visited ++ [v]) queue).
Proof. reflexivity. Qed.

Lemma dijkstra_loop_more_fuel (g : DirectedGraph) (fuel fuel' : nat)
  (map : list dist) (visited : list Z) (queue : list (Z * Z)) (r : list dist) :
  (fuel <= fuel')%nat ->
  dijkstra_loop fuel g map visited queue = Ret r ->
  dijkstra_loop fuel' g map visited queue = Ret r.
Proof.
  revert fuel' map visited queue.
  induction fuel as [|fuel IH]; intros fuel' map visited queue Hle E;
    [discriminate|].
  destruct fuel' as [|fuel']; [lia|].
  destruct queue as [|[v d] queue]; [exact E|].
  rewrite dijkstra_loop_step in *.
  destruct (get map v) as [m| |]; simpl in *; try discriminate.
  destruct (if lt_dist d m then set map v (Fin d) else Ret map) as [map'| |];
    simpl in *; try discriminate.
  destruct (get (adj_matrix g) v) as [row| |]; simpl in *; try discriminate.
  destruct (relax row 0 d map' visited queue) as [queue'| |]; simpl in *;
    try discriminate.
  apply IH; [lia|exact E].
Qed.

(** From a state that satisfies the invariant the loop runs to the end
    within [measure] rounds, raises nothing, and returns a [map] that
    satisfies the invariant with the queue empty. *)
Lemma dijkstra_loop_total (g : DirectedGraph) (src : Z) :
  square g -> nonneg g -> 0 <= src ->
  forall (fuel : nat) (map : list dist) (visited : list Z)
         (queue : list (Z * Z)),
    inv g src (v_count g) map queue ->
    (measure (v_count g) map visited queue < fuel)%nat ->
    exists map',
      dijkstra_loop fuel g map visited queue = Ret map' /\
      inv g src (v_count g) map' [].
Proof.
  intros Hsq Hnn Hsrc. induction fuel as [|fuel IH];
    intros map visited queue Hinv Hm; [lia|].
  destruct queue as [|[v d] queue]; [exists map; auto|].
  rewrite dijkstra_loop_step.
  pose proof Hinv as [Hlen Hq _ _ _].
  destruct (Hq v d (or_introl eq_refl)) as [Hv Hpath].
  rewrite get_dist_at by lia. simpl.
  destruct (record_spec map v d) as (map' & -> & Hlen' & Hother & Hcase);
    [lia|]. simpl.
  destruct (get_nonneg (adj_matrix g) v) as (row & -> & Hrow);
    [destruct Hsq as [-> _]; lia|]. simpl.
  assert (Hrowlen : length row = v_count g).
  { destruct Hsq as [_ Hr]. rewrite Forall_forall in Hr. apply Hr.
    eapply nth_error_In; eauto. }
  rewrite relax_children by lia. simpl.
  pose proof (inv_round g src map map' visited queue v d row
                Hsq Hnn Hsrc Hinv Hrow Hlen' Hother Hcase) as Hinv'.
  apply IH; auto.
  assert (measure (v_count g) map' (visited ++ [v])
            (queue ++ children row 0 d map' visited) <
          measure (v_count g) map visited ((v, d) :: queue))%nat; [|lia].
  apply measure_round; auto.
  - destruct Hcase as [[_ ->]|(m & Hle & Em & ->)].
    + exists d. split; auto. lia.
    + exists m. auto.
  - intros u e Hu H. destruct (Z.eq_dec u v) as [->|Hne].
    + destruct Hcase as [[Hlt E]|(m & Hle & Em & ->)]; auto.
      rewrite E in H. simpl in H. apply Z.leb_le in H.
      eapply le_dist_mono; [exact H|]. now apply lt_le_dist.
    + now rewrite <- Hother.
  - pose proof (length_children row 0 d map' visited). lia.
  - intros c e Hin. destruct Hinv' as [_ Hq' _ _ _].
    destruct (Hq' c e) as [Hc _]; [apply in_or_app; auto|].
    apply In_children in Hin; [|lia].
    destruct Hin as (w & _ & Ew & Hw & -> & Ho). rewrite Z.sub_0_r in Ew.
    assert (He : edge g v c w) by (eapply entry_edge; eauto; lia).
    pose proof (edge_positive _ _ _ _ Hnn He). repeat split; auto; lia.
Qed.

Lemma dist_at_repeat (n : nat) (u : Z) : dist_at (repeat Inf n) u = Inf.
Proof.
  unfold dist_at. destruct (nth_in_or_default (Z.to_nat u) (repeat Inf n) Inf)
    as [H|H]; auto. now apply repeat_spec in H.
Qed.

Lemma inv_start (g : DirectedGraph) (src : Z) :
  0 <= src < Z.of_nat (v_count g) ->
  inv g src (v_count g) (repeat Inf (v_count g)) [(src, 0)].
Proof.
  intros Hsrc. split.
  - apply repeat_length.
  - intros v d [E|[]]. inversion E; subst. split; auto. constructor.
  - intros u d _ E. rewrite dist_at_repeat in E. discriminate.
  - left. simpl. auto.
  - intros u d c w _ E. rewrite dist_at_repeat in E. discriminate.
Qed.

(** [dijkstra(src)] returns for every valid [src], and its result has the
    properties that the invariant gives when the queue is empty. *)
Lemma dijkstra_total (g : DirectedGraph) (src : Z) :
  square g -> nonneg g -> 0 <= src < Z.of_nat (v_count g) ->
  exists fuel0 map,
    (forall fuel, (fuel0 <= fuel)%nat -> dijkstra fuel g src = Ret map) /\
    inv g src (v_count g) map [].
Proof.
  intros Hsq Hnn Hsrc.
  set (m := measure (v_count g) (repeat Inf (v_count g)) [] [(src, 0)]).
  destruct (dijkstra_loop_total g src Hsq Hnn (proj1 Hsrc) (S m)
              (repeat Inf (v_count g)) [] [(src, 0)]) as (map & E & Hinv).
  - now apply inv_start.
  - unfold m. lia.
  - exists (S m), map. split; auto. intros fuel Hle. unfold dijkstra.
    eapply dijkstra_loop_more_fuel; eauto.
Qed.

(** With the queue empty the recorded distances are at most the weight of
    every path. *)
Lemma inv_final_least (g : DirectedGraph) (src : Z) (map : list dist)
  (i d : Z) :
  0 <= src -> inv g src (v_count g) map [] -> path g src i d ->
  exists m, dist_at map i = Fin m /\ m <= d.
Proof.
  intros Hsrc [_ _ _ Hs Hrel] H. induction H as [|b c d w H IH He].
  - destruct Hs as [[]|E]. exists 0. split; auto. lia.
  - destruct IH as (m & Em & Hm).
    destruct (edge_entry _ _ _ _ He) as (Hb & _).
    destruct (Hrel b m c w Hb Em He) as [(d' & E & Hle)|(d' & [] & _)].
    exists d'. split; auto. lia.
Qed.

(** C1: on a graph with a square matrix of non-negative entries and for
    every valid [src], [dijkstra(src)] returns a list with one entry per
    vertex; the entry of [src] is 0, the entry of every vertex without a
    path from [src] is infinity, and the entry of every other vertex is the
    weight of a path from [src] and at most the weight of any such path.
    On the graph with the edges (0,1,10), (1,2,5), (0,2,20), [dijkstra(0)]
    returns [[0, 10, 15]]. *)
Theorem dijkstra_shortest_paths :
  (forall (g : DirectedGraph) (src : Z),
     square g -> nonneg g -> 0 <= src < Z.of_nat (v_count g) ->
     exists fuel0 map,
       (forall fuel, (fuel0 <= fuel)%nat -> dijkstra fuel g src = Ret map) /\
       length map = v_count g /\
       dist_at map src = Fin 0 /\
       forall i, 0 <= i < Z.of_nat (v_count g) ->
         (~ reachable g src i -> dist_at map i = Inf) /\
         (reachable g src i ->
            exists d, dist_at map i = Fin d /\ path g src i d /\
                      forall d', path g src i d' -> d <= d')) /\
  (init [(0, 1, 10); (1, 2, 5); (0, 2, 20)] = Ret g_example /\
   forall fuel, (5 <= fuel)%nat ->
     dijkstra fuel g_example 0 = Ret [Fin 0; Fin 10; Fin 15]).
Proof.
  split.
  - intros g src Hsq Hnn Hsrc.
    destruct (dijkstra_total g src Hsq Hnn Hsrc) as (fuel0 & map & Hrun & Hinv).
    exists fuel0, map. split; auto.
    pose proof Hinv as [Hlen _ Hsound _ _].
    assert (Hleast := fun i d => inv_final_least g src map i d (proj1 Hsrc) Hinv).
    split; auto. split.
    + destruct (Hleast src 0 (path_here g src)) as (m & Em & Hm).
      assert (Hp : path g src src m) by (apply Hsound; auto; lia).
      pose proof (path_nonneg _ _ _ _ Hnn Hp). replace m with 0 in Em by lia.
      exact Em.
    + intros i Hi. split.
      * intros Hnr. destruct (dist_at map i) as [d|] eqn:E; auto.
        exfalso. apply Hnr. exists d. apply Hsound; auto; lia.
      * intros (d0 & Hp0). destruct (Hleast i d0 Hp0) as (m & Em & _).
        exists m. split; auto. split; [apply Hsound; auto; lia|].
        intros d' Hp'. destruct (Hleast i d' Hp') as (m' & Em' & Hm').
        congruence.
  - split; [reflexivity|]. intros fuel Hle.
    apply (dijkstra_loop_more_fuel g_example 5); [exact Hle|reflexivity].
Qed.

Lemma dijkstra_shortest_paths_witness :
  exists fuel0 map,
    (forall fuel, (fuel0 <= fuel)%nat -> dijkstra fuel g_example 0 = Ret map) /\
    length map = v_count g_example /\
    dist_at map 0 = Fin 0 /\
    forall i, 0 <= i < Z.of_nat (v_count g_example) ->
      (~ reachable g_example 0 i -> dist_at map i = Inf) /\
      (reachable g_example 0 i ->
         exists d, dist_at map i = Fin d /\ path g_example 0 i d /\
                   forall d', path g_example 0 i d' -> d <= d').
Proof.
  apply (proj1 dijkstra_shortest_paths g_example 0).
  - split; [reflexivity|]. repeat constructor.
  - unfold nonneg. simpl. repeat constructor; lia.
  - simpl. lia.
Defined.

(** C10: on a graph with a square matrix of non-negative entries and for
    every valid [src], the loop of [dijkstra(src)] ends: with enough rounds
    allowed the call returns, and the same list whatever the allowance.
    The pairs one round appends for a vertex that is in [visited] all carry
    a distance below the recorded one. *)
Theorem dijkstra_terminates (g : DirectedGraph) (src : Z) :
  square g -> nonneg g -> 0 <= src < Z.of_nat (v_count g) ->
  (exists fuel0 map,
     forall fuel, (fuel0 <= fuel)%nat -> dijkstra fuel g src = Ret map) /\
  (forall row di map visited queue,
     Z.of_nat (length row) <= Z.of_nat (length map) ->
     exists added,
       relax row 0 di map visited queue = Ret (queue ++ added) /\
       forall c e, In (c, e) added -> In c visited ->
                   lt_dist e (dist_at map c) = true).
Proof.
  intros Hsq Hnn Hsrc. split.
  - destruct (dijkstra_total g src Hsq Hnn Hsrc) as (fuel0 & map & Hrun & _).
    eauto.
  - intros row di map visited queue Hlen.
    exists (children row 0 di map visited). split.
    + apply relax_children; lia.
    + intros c e Hin Hv. apply In_children in Hin; [|lia].
      destruct Hin as (w & _ & _ & _ & _ & [Ho|Ho]); tauto.
Qed.

Lemma dijkstra_terminates_witness :
  (exists fuel0 map,
     forall fuel, (fuel0 <= fuel)%nat -> dijkstra fuel g_example 0 = Ret map) /\
  (forall row di map visited queue,
     Z.of_nat (length row) <= Z.of_nat (length map) ->
     exists added,
       relax row 0 di map visited queue = Ret (queue ++ added) /\
       forall c e, In (c, e) added -> In c visited ->
                   lt_dist e (dist_at map c) = true).
Proof.
  apply (dijkstra_terminates g_example 0).
  - split; [reflexivity|]. repeat constructor.
  - unfold nonneg. simpl. repeat constructor; lia.
  - simpl. lia.
Defined.

End DijkstraFacts.

(** ** DirectedGraph: cycle detection *)

Module DirectedCycleFacts.
Import Py PyFacts Directed DirectedSpec DirectedFacts DirectedPaths.
Import DijkstraFacts DirectedCycles.

Lemma walk_snoc (g : DirectedGraph) (a b c : Z) :
  walk g a b -> arc g b c -> walk g a c.
Proof.
  intros H Hbc. induction H as [a b H|a b b' H Hw IH].
  - eapply walk_cons; eauto. now apply walk_arc.
  - eapply walk_cons; eauto.
Qed.

Lemma walk_inv (g : DirectedGraph) (a c : Z) :
  walk g a c -> arc g a c \/ exists b, arc g a b /\ walk g b c.
Proof. intros H. inversion H; subst; eauto. Qed.

Lemma arc_in_range (g : DirectedGraph) (a b : Z) :
  square g -> arc g a b ->
  0 <= a < Z.of_nat (v_count g) /\ 0 <= b < Z.of_nat (v_count g).
Proof. intros Hsq (w & He). eapply edge_in_range; eauto. Qed.

Lemma arc_row (g : DirectedGraph) (v c : Z) (row : list Z) :
  0 <= v -> nth_error (adj_matrix g) (Z.to_nat v) = Some row ->
  (arc g v c <-> 0 <= c /\ exists w, nth_error row (Z.to_nat c) = Some w /\ w <> 0).
Proof.
  intros Hv Hrow. split.
  - intros (w & He).
    destruct (edge_entry _ _ _ _ He) as (_ & Hc & Hw & row' & Er & Ew).
    rewrite Hrow in Er. inversion Er; subst. eauto.
  - intros (Hc & w & Ew & Hw). exists w. eapply entry_edge; eauto.
Qed.

Lemma vertices_In (n : nat) (u : Z) : In u (vertices n) <-> 0 <= u < Z.of_nat n.
Proof.
  unfold vertices. rewrite in_map_iff. split.
  - intros (k & <- & Hk). apply in_seq in Hk. lia.
  - intros H. exists (Z.to_nat u). split; [lia|]. apply in_seq. lia.
Qed.

(** A list of distinct vertex ids that misses one id is shorter than the
    vertex count. *)
Lemma room_left (n : nat) (P : list Z) (v : Z) :
  NoDup P -> (forall u, In u P -> 0 <= u < Z.of_nat n) ->
  0 <= v < Z.of_nat n -> ~ In v P -> (length P < n)%nat.
Proof.
  intros Hnd Hr Hv Hn.
  assert (Hl : (length (v :: P) <= length (vertices n))%nat).
  { apply NoDup_incl_length.
    - constructor; auto.
    - intros u [<-|Hu]; apply vertices_In; auto. }
  unfold vertices in Hl. rewrite length_map, length_seq in Hl. simpl in Hl. lia.
Qed.

Lemma skipn_cons {A : Type} (k : nat) (l r : list A) (a : A) :
  skipn k l = a :: r -> nth_error l k = Some a /\ skipn (S k) l = r.
Proof.
  revert l. induction k as [|k IH]; intros [|h t]; simpl; try discriminate.
  - intros E. inversion E. auto.
  - intros E. apply IH in E. destruct t; exact E.
Qed.

Lemma skipn_nil_length {A : Type} (k : nat) (l : list A) :
  skipn k l = [] -> (length l <= k)%nat.
Proof.
  revert l. induction k as [|k IH]; intros [|h t]; simpl; try discriminate;
    auto; try lia. intros E. apply IH in E. lia.
Qed.

Lemma has_Cycle_helper_step (fuel : nat) (g : DirectedGraph) (v : Z)
  (visited : list Z) :
  has_Cycle_helper (S fuel) g v visited =
  (row <- get (adj_matrix g) v ;;
   r <- scan_row (has_Cycle_helper fuel g) row 0 (visited ++ [v]) ;;
   if fst r then Ret (true, snd r) else Ret (false, removelast (snd r))).
Proof. reflexivity. Qed.

(** [has_Cycle_helper(v, visited)] on a list [visited] of distinct vertices
    that all lead to [v]: either it returns [False] with [visited] as it
    was, and then no walk from [v] comes back to [v] or to [visited]; or it
    returns [True], and then the graph has a cycle. *)
Lemma has_Cycle_helper_spec (g : DirectedGraph) :
  square g ->
  forall (fuel : nat) (v : Z) (P : list Z),
    0 <= v < Z.of_nat (v_count g) ->
    NoDup P -> (forall u, In u P -> 0 <= u < Z.of_nat (v_count g)) ->
    ~ In v P -> (v_count g <= fuel + length P)%nat ->
    (forall u, In u P -> walk g u v) ->
    (has_Cycle_helper fuel g v P = Ret (false, P) /\
     forall w, walk g v w -> ~ In w (P ++ [v])) \/
    (exists P', has_Cycle_helper fuel g v P = Ret (true, P') /\ cyclic g).
Proof.
  intros Hsq. induction fuel as [|fuel IH];
    intros v P Hv Hnd Hr Hn Hfuel Hanc.
  { pose proof (room_left _ _ _ Hnd Hr Hv Hn). lia. }
  rewrite has_Cycle_helper_step.
  destruct (get_nonneg (adj_matrix g) v) as (row & -> & Hrow);
    [destruct Hsq as [-> _]; lia|]. simpl bind.
  assert (Hrowlen : length row = v_count g).
  { destruct Hsq as [_ Hf]. rewrite Forall_forall in Hf. apply Hf.
    eapply nth_error_In; eauto. }
  assert (Hnd' : NoDup (P ++ [v])).
  { apply NoDup_app; auto.
    - constructor; [intros []|constructor].
    - intros x Hx [<-|[]]. tauto. }
  assert (Hr' : forall u, In u (P ++ [v]) -> 0 <= u < Z.of_nat (v_count g)).
  { intros u Hu. apply in_app_or in Hu. destruct Hu as [Hu|[<-|[]]]; auto. }
  assert (Scan : forall suffix k, skipn k row = suffix ->
            (scan_row (has_Cycle_helper fuel g) suffix (Z.of_nat k) (P ++ [v])
               = Ret (false, P ++ [v]) /\
             forall c, Z.of_nat k <= c -> arc g v c ->
                       ~ In c (P ++ [v]) /\
                       forall w, walk g c w -> ~ In w (P ++ [v])) \/
            (exists P', scan_row (has_Cycle_helper fuel g) suffix (Z.of_nat k)
                          (P ++ [v]) = Ret (true, P') /\ cyclic g)).
  { induction suffix as [|i rest IHs]; intros k Hk.
    - left. split; [reflexivity|]. intros c Hc Harc.
      apply (arc_row g v c row) in Harc; auto; [|lia].
      destruct Harc as (_ & w & Ew & _).
      assert (Z.to_nat c < length row)%nat by (apply nth_error_Some; congruence).
      apply skipn_nil_length in Hk. lia.
    - apply skipn_cons in Hk. destruct Hk as [Ei Hrest].
      assert (Hklt : (k < length row)%nat) by (apply nth_error_Some; congruence).
      specialize (IHs (S k) Hrest).
      replace (Z.of_nat (S k)) with (Z.of_nat k + 1) in IHs by lia.
      assert (Hskip : i = 0 ->
                (scan_row (has_Cycle_helper fuel g) rest (Z.of_nat k + 1)
                   (P ++ [v]) = Ret (false, P ++ [v]) /\
                 forall c, Z.of_nat k + 1 <= c -> arc g v c ->
                       ~ In c (P ++ [v]) /\
                       forall w, walk g c w -> ~ In w (P ++ [v])) ->
                forall c, Z.of_nat k <= c -> arc g v c ->
                       ~ In c (P ++ [v]) /\
                       forall w, walk g c w -> ~ In w (P ++ [v])).
      { intros Hi [_ H] c Hc Harc. destruct (Z.eq_dec c (Z.of_nat k)) as [->|Hne].
        - apply (arc_row g v _ row) in Harc; auto; [|lia].
          destruct Harc as (_ & w & Ew & Hw). rewrite Nat2Z.id in Ew. congruence.
        - apply H; auto. lia. }
      simpl scan_row.
      destruct (Z.eqb_spec i 0) as [Hi|Hi]; simpl negb.
      + rewrite !andb_false_r.
        destruct IHs as [IHs|IHs]; [left|right; exact IHs].
        split; [apply IHs|]. apply Hskip; auto.
      + rewrite !andb_true_r.
        assert (Harc : arc g v (Z.of_nat k)).
        { apply (arc_row g v _ row); auto; [lia|]. split; [lia|].
          exists i. rewrite Nat2Z.id. auto. }
        destruct (mem Z.eqb (Z.of_nat k) (P ++ [v])) eqn:Em; simpl negb; cbv iota.
        * right. eexists. split; [reflexivity|].
          apply mem_In_Z in Em. apply in_app_or in Em.
          destruct Em as [Hin|[E|[]]].
          -- exists (Z.of_nat k). eapply walk_snoc; eauto.
          -- exists v. apply walk_arc. rewrite <- E in Harc. exact Harc.
        * apply mem_false_Z in Em.
          assert (Hk1 : 0 <= Z.of_nat k < Z.of_nat (v_count g)) by lia.
          assert (Hk2 : (v_count g <= fuel + length (P ++ [v]))%nat)
            by (rewrite length_app; simpl; lia).
          assert (Hk3 : forall u, In u (P ++ [v]) -> walk g u (Z.of_nat k)).
          { intros u Hu. apply in_app_or in Hu.
            destruct Hu as [Hu|[<-|[]]].
            - eapply walk_snoc; eauto.
            - now apply walk_arc. }
          destruct (IH (Z.of_nat k) (P ++ [v]) Hk1 Hnd' Hr' Em Hk2 Hk3)
            as [[E Hw]|(P' & E & Hc)].
          -- rewrite E. simpl bind. cbv iota.
             destruct IHs as [IHs|IHs]; [left|right; exact IHs].
             split; [apply IHs|]. intros c Hc Hvc.
             destruct (Z.eq_dec c (Z.of_nat k)) as [->|Hne].
             ++ split; auto. intros w Hcw Hin. apply (Hw w Hcw).
                apply in_or_app. auto.
             ++ apply IHs; auto. lia.
          -- rewrite E. simpl. right. eauto. }
  destruct (Scan row O eq_refl) as [[E H]|(P' & E & Hc)].
  - left. simpl Z.of_nat in E. rewrite E. simpl. rewrite removelast_last.
    split; auto. intros w Hw. apply walk_inv in Hw.
    destruct Hw as [Hvw|(b & Hvb & Hbw)].
    + apply H; auto. apply (arc_in_range g v w Hsq Hvw).
    + destruct (H b) as [_ Hb]; auto. apply (arc_in_range g v b Hsq Hvb).
  - right. simpl Z.of_nat in E. rewrite E. simpl. eauto.
Qed.

Lemma walk_in_range (g : DirectedGraph) (a b : Z) :
  square g -> walk g a b -> 0 <= a < Z.of_nat (v_count g).
Proof.
  intros Hsq H. destruct H as [a b H|a b c H _];
    apply (arc_in_range g a b Hsq H).
Qed.

Lemma has_cycle_from_spec (g : DirectedGraph) (fuel : nat) :
  square g -> (v_count g <= fuel)%nat ->
  forall rows k, skipn k (adj_matrix g) = rows ->
    (has_cycle_from fuel g rows (Z.of_nat k) [] = Ret false /\
     forall c, Z.of_nat k <= c -> ~ walk g c c) \/
    (has_cycle_from fuel g rows (Z.of_nat k) [] = Ret true /\ cyclic g).
Proof.
  intros Hsq Hfuel. induction rows as [|row rest IH]; intros k Hk.
  - left. split; [reflexivity|]. intros c Hc Hw.
    apply skipn_nil_length in Hk.
    pose proof (walk_in_range g c c Hsq Hw). destruct Hsq as [Hl _]. lia.
  - apply skipn_cons in Hk. destruct Hk as [Erow Hrest].
    assert (Hklt : (k < length (adj_matrix g))%nat)
      by (apply nth_error_Some; congruence).
    specialize (IH (S k) Hrest).
    replace (Z.of_nat (S k)) with (Z.of_nat k + 1) in IH by lia.
    simpl has_cycle_from.
    destruct (has_Cycle_helper_spec g Hsq fuel (Z.of_nat k) [])
      as [[E Hw]|(P' & E & Hc)].
    + pose proof (proj1 Hsq). lia.
    + constructor.
    + intros u [].
    + intros [].
    + simpl. lia.
    + intros u [].
    + rewrite E. simpl. destruct IH as [IH|IH]; [left|right; exact IH].
      split; [apply IH|]. intros c Hc Hcc.
      destruct (Z.eq_dec c (Z.of_nat k)) as [->|Hne].
      * apply (Hw _ Hcc). simpl. auto.
      * destruct IH as [_ IH]. apply (IH c); auto. lia.
    + rewrite E. simpl. right. auto.
Qed.

(** [has_cycle()] of a directed graph returns, and returns [True] exactly
    when the graph has a directed cycle. *)
Lemma has_cycle_directed (g : DirectedGraph) (fuel : nat) :
  square g -> (v_count g <= fuel)%nat ->
  exists b, has_cycle fuel g = Ret b /\ (b = true <-> cyclic g).
Proof.
  intros Hsq Hfuel. unfold has_cycle.
  destruct (has_cycle_from_spec g fuel Hsq Hfuel (adj_matrix g) O eq_refl)
    as [[E H]|[E H]]; simpl Z.of_nat in E; rewrite E.
  - exists false. split; auto. split; [discriminate|].
    intros (v & Hv). exfalso. apply (H v); auto.
    apply (walk_in_range g v v Hsq Hv).
  - exists true. split; auto. tauto.
Qed.

End DirectedCycleFacts.

(** ** UndirectedGraph: cycle detection *)

Module UndirectedCycleFacts.
Import Py PyFacts Undirected UndirectedSpec UndirectedFacts UndirectedCycles.

(** *** Positions in the visited list *)

Lemma pos_In (l : list string) (u : string) :
  (pos l u < length l)%nat <-> In u l.
Proof.
  induction l as [|h t IH]; simpl; [split; [lia|tauto]|].
  destruct (String.eqb_spec u h) as [->|Hne].
  - split; [auto|lia].
  - rewrite <- Nat.succ_lt_mono, IH. split; [auto|].
    intros [E|H]; [congruence|auto].
Qed.

Lemma pos_app_in (l x : list string) (u : string) :
  In u l -> pos (l ++ x) u = pos l u.
Proof.
  induction l as [|h t IH]; simpl; [tauto|].
  destruct (String.eqb_spec u h); auto.
  intros [E|H]; [congruence|]. f_equal. auto.
Qed.

Lemma pos_app_out (l x : list string) (u : string) :
  ~ In u l -> pos (l ++ x) u = (length l + pos x u)%nat.
Proof.
  induction l as [|h t IH]; simpl; auto.
  destruct (String.eqb_spec u h) as [->|Hne]; [tauto|]. intros H. f_equal. tauto.
Qed.

Lemma pos_inj (l : list string) (a b : string) :
  In a l -> pos l a = pos l b -> a = b.
Proof.
  induction l as [|h t IH]; simpl; [tauto|].
  destruct (String.eqb_spec a h) as [->|Ha];
    destruct (String.eqb_spec b h) as [->|Hb]; auto; try discriminate.
  intros [E|H] Ep; [congruence|]. apply IH; auto.
Qed.

Lemma earlier_app (l x : list string) (a u : string) :
  In u l -> (earlier (l ++ x) a u <-> earlier l a u).
Proof.
  intros Hu. unfold earlier. rewrite (pos_app_in l x u Hu).
  pose proof (proj2 (pos_In l u) Hu) as Hlt. split.
  - intros [Ha Hp]. destruct (in_dec string_dec a l) as [Hin|Hout].
    + rewrite pos_app_in in Hp by assumption. auto.
    + rewrite pos_app_out in Hp by assumption. lia.
  - intros [Ha Hp]. rewrite pos_app_in by assumption.
    split; auto. apply in_or_app; auto.
Qed.

Lemma one_back_app (g : UndirectedGraph) (l x : list string) (u : string) :
  In u l -> one_back g l u -> one_back g (l ++ x) u.
Proof.
  intros Hu H a b Ha Hb Ea Eb. apply (H a b); auto;
    now apply (earlier_app l x).
Qed.

Lemma earlier_fresh (l x : list string) (a v : string) :
  ~ In v l -> (earlier (l ++ v :: x) a v <-> In a l).
Proof.
  intros Hv. unfold earlier. rewrite (pos_app_out l (v :: x) v Hv).
  simpl. rewrite String.eqb_refl, Nat.add_0_r. split.
  - intros [Ha Hp]. destruct (in_dec string_dec a l) as [Hin|Hout]; auto.
    rewrite pos_app_out in Hp by assumption. lia.
  - intros Ha. rewrite pos_app_in by assumption. split.
    + apply in_or_app; auto.
    + now apply pos_In.
Qed.

(** *** Chains *)

Lemma chain_app_iff (g : UndirectedGraph) (la lb : list string) (x : string) :
  chain g (la ++ x :: lb) <-> chain g (la ++ [x]) /\ chain g (x :: lb).
Proof.
  induction la as [|a la IH].
  - simpl. tauto.
  - destruct la as [|a' la].
    + simpl. destruct lb; tauto.
    + change (chain g ((a :: a' :: la) ++ x :: lb))
        with (adjacent g a a' /\ chain g ((a' :: la) ++ x :: lb)).
      change (chain g ((a :: a' :: la) ++ [x]))
        with (adjacent g a a' /\ chain g ((a' :: la) ++ [x])).
      rewrite IH. tauto.
Qed.

Lemma chain_suffix (g : UndirectedGraph) (la lb : list string) :
  chain g (la ++ lb) -> chain g lb.
Proof.
  destruct lb as [|x lb]; [simpl; auto|].
  intros H. apply chain_app_iff in H. tauto.
Qed.

Lemma chain_snoc (g : UndirectedGraph) (l : list string) (a b : string) :
  chain g (l ++ [a]) -> adjacent g a b -> chain g ((l ++ [a]) ++ [b]).
Proof.
  intros H Hab. rewrite <- app_assoc. simpl. apply chain_app_iff.
  simpl. tauto.
Qed.

(** *** The last element *)

Lemma last_error_snoc (l : list string) (x : string) :
  last_error (l ++ [x]) = Some x.
Proof. unfold last_error. now rewrite rev_app_distr. Qed.

Lemma last_error_split (l : list string) (i : string) :
  In i l -> last_error l <> Some i ->
  exists l1 l2 z, l = l1 ++ i :: l2 ++ [z].
Proof.
  intros Hin Hl. apply in_split in Hin. destruct Hin as (l1 & l2 & ->).
  destruct (rev l2) as [|z r] eqn:Er.
  - exfalso. apply Hl. apply (f_equal (@rev string)) in Er.
    rewrite rev_involutive in Er. subst l2. apply last_error_snoc.
  - exists l1, (rev r), z. apply (f_equal (@rev string)) in Er.
    rewrite rev_involutive in Er. subst l2. reflexivity.
Qed.

(** *** One call of [has_Cycle_helper] *)

Section Branch.

Variables (g : UndirectedGraph) (visited open : list string) (v : string)
          (parent : option string) (adj : list string).
Hypothesis Hwf : wf g.
Hypothesis Hsd : searched g visited open.
Hypothesis Hincl : incl open visited.
Hypothesis Hnd : NoDup open.
Hypothesis Hchain : chain g (open ++ [v]).
Hypothesis Hv : ~ In v visited.
Hypothesis Hadj : get v g = Some adj.
Hypothesis Hpar : parent = last_error open.

Lemma adj_iff (w : string) : adjacent g v w <-> In w adj.
Proof.
  unfold adjacent. rewrite Hadj. split.
  - intros (l & E & H). inversion E; subst. exact H.
  - eauto.
Qed.

Lemma v_not_open : ~ In v open.
Proof. intros H. apply Hv. now apply Hincl. Qed.

Lemma open_or_v (u : string) : In u (open ++ [v]) <-> In u open \/ u = v.
Proof.
  rewrite in_app_iff. simpl. intuition.
Qed.

Lemma cur_cases (new : list string) (u : string) :
  In u (visited ++ v :: new) <-> In u visited \/ u = v \/ In u new.
Proof.
  rewrite in_app_iff. simpl. intuition.
Qed.

Lemma scanning_init : scanning g visited open v parent [] [].
Proof.
  destruct Hsd as [Hn Hk Hc Hb]. split.
  - split.
    + apply NoDup_app; auto.
      * constructor; [intros []|constructor].
      * intros x Hx [<-|[]]. tauto.
    + intros u Hu. apply cur_cases in Hu. destruct Hu as [Hu|[->|[]]]; auto.
      rewrite has_key_get, Hadj. reflexivity.
    + intros u Hu Ho w Hw. rewrite open_or_v in Ho.
      apply cur_cases in Hu. destruct Hu as [Hu|[->|[]]]; [|tauto].
      apply in_or_app. left. apply (Hc u); auto.
    + intros u Hu Ho. rewrite open_or_v in Ho.
      apply cur_cases in Hu. destruct Hu as [Hu|[->|[]]]; [|tauto].
      apply one_back_app; auto.
  - intros u a [].
  - intros i [].
  - intros i [].
Qed.

Lemma scanning_skip (done new : list string) (i : string) :
  scanning g visited open v parent done new ->
  parent = Some i -> In i (visited ++ v :: new) ->
  scanning g visited open v parent (done ++ [i]) new.
Proof.
  intros [Hs Hc Hd Hp] Epar Hi. split; auto.
  - intros u a Hu Ha Hua. destruct (Hc u a Hu Ha Hua) as [-> H].
    split; auto. apply in_or_app; auto.
  - intros j Hj. apply in_app_or in Hj. destruct Hj as [Hj|[<-|[]]]; auto.
  - intros j Hj Hjv. apply in_app_or in Hj. destruct Hj as [Hj|[<-|[]]]; auto.
Qed.

Lemma scanning_call (done new new_i : list string) (i : string) :
  scanning g visited open v parent done new ->
  ~ In i (visited ++ v :: new) ->
  returned g (visited ++ v :: new) (open ++ [v]) i (Some v) new_i ->
  scanning g visited open v parent (done ++ [i]) (new ++ i :: new_i).
Proof.
  intros [Hs Hc Hd Hp] Hi [Hrs Hrc].
  assert (E : (visited ++ v :: new) ++ i :: new_i =
              visited ++ v :: new ++ i :: new_i)
    by (rewrite <- app_assoc; reflexivity).
  rewrite E in Hrs. split; auto.
  - intros u a Hu Ha Hua. apply in_app_or in Hu. destruct Hu as [Hu|Hu].
    + destruct (Hc u a Hu Ha Hua) as [-> H]. split; auto.
      apply in_or_app; auto.
    + destruct (Hrc u a Hu Ha Hua) as [-> Ea]. inversion Ea; subst.
      split; auto. apply in_or_app; simpl; auto.
  - intros j Hj. rewrite <- E. apply in_app_or in Hj.
    destruct Hj as [Hj|[<-|[]]]; apply in_or_app; simpl; auto.
  - intros j Hj Hjv. apply in_app_or in Hj. destruct Hj as [Hj|[<-|[]]]; auto.
    exfalso. apply Hi. apply in_or_app; auto.
Qed.

Lemma scanning_final (new : list string) :
  scanning g visited open v parent adj new ->
  returned g visited open v parent new.
Proof.
  intros [[Hn Hk Hc Hb] Hch Hd Hp]. split.
  - split; auto.
    + intros u Hu Ho w Hw. destruct (string_dec u v) as [->|Hne].
      * apply Hd. now apply adj_iff.
      * apply (Hc u); auto. rewrite open_or_v. tauto.
    + intros u Hu Ho. destruct (string_dec u v) as [->|Hne].
      * intros a b Ha Hb' Ea Eb.
        apply earlier_fresh in Ea; auto. apply earlier_fresh in Eb; auto.
        apply adj_iff in Ha, Hb'.
        pose proof (Hp a Ha Ea). pose proof (Hp b Hb' Eb). congruence.
      * apply Hb; auto. rewrite open_or_v. tauto.
  - intros u a Hu Ha Hua. destruct Hu as [<-|Hu].
    + split; auto. apply Hp; auto. now apply adj_iff.
    + destruct (Hch u a Hu) as [-> _]; auto.
      * apply open_or_v. auto.
      * exfalso. now apply v_not_open.
Qed.

Lemma NoDup_branch : NoDup (open ++ [v]).
Proof.
  apply NoDup_app; auto.
  - constructor; [intros []|constructor].
  - intros x Hx [<-|[]]. now apply v_not_open.
Qed.

(** A visited neighbour of [v] that is not its parent closes a cycle. *)
Lemma scanning_detect (done new rest : list string) (i : string) :
  scanning g visited open v parent done new ->
  adj = done ++ i :: rest ->
  In i (visited ++ v :: new) -> parent_differs parent i = true ->
  cyclic g.
Proof.
  intros [[Hn Hk Hc Hb] Hch Hd Hp] Eadj Hi Hdiff.
  assert (Hvi : adjacent g v i).
  { apply adj_iff. rewrite Eadj. apply in_or_app. simpl. auto. }
  assert (Hiv : adjacent g i v) by (now apply (wf_symmetric g Hwf)).
  assert (Hndadj : NoDup adj) by (eapply wf_simple; eauto).
  apply cur_cases in Hi. destruct Hi as [Hi|[->|Hi]].
  - (* visited before [v] *)
    destruct (in_dec string_dec i open) as [Hio|Hio].
    + assert (Hl : last_error open <> Some i).
      { rewrite <- Hpar. intros E. rewrite E in Hdiff. simpl in Hdiff.
        rewrite String.eqb_refl in Hdiff. discriminate. }
      destruct (last_error_split open i Hio Hl) as (l1 & l2 & z & Eo).
      exists (i :: l2 ++ [z; v]). split; [|split].
      * simpl. rewrite length_app. simpl. lia.
      * pose proof NoDup_branch as H. rewrite Eo in H.
        rewrite <- app_assoc in H. apply NoDup_app_remove_l in H.
        simpl in H. rewrite <- app_assoc in H. exact H.
      * pose proof Hchain as H. rewrite Eo in H.
        rewrite <- app_assoc in H. apply chain_suffix in H.
        replace ((i :: l2 ++ [z; v]) ++ firstn 1 (i :: l2 ++ [z; v]))
          with (((i :: l2 ++ [z]) ++ [v]) ++ [i]).
        -- apply chain_snoc; auto.
        -- simpl. rewrite <- !app_assoc. reflexivity.
    + exfalso. apply Hv. destruct Hsd as [_ _ Hc' _]. apply (Hc' i); auto.
  - exfalso. eapply wf_irreflexive; eauto.
  - exfalso. destruct (Hch i v Hi) as [_ Hdone]; auto.
    + apply open_or_v. auto.
    + rewrite Eadj in Hndadj. apply NoDup_remove_2 in Hndadj.
      apply Hndadj. apply in_or_app. auto.
Qed.

(** What a recursive call from the loop starts from. *)
Lemma scanning_enter (done new rest : list string) (i : string) :
  scanning g visited open v parent done new ->
  adj = done ++ i :: rest ->
  incl (open ++ [v]) (visited ++ v :: new) /\
  NoDup (open ++ [v]) /\
  chain g ((open ++ [v]) ++ [i]) /\
  has_key i g = true /\
  Some v = last_error (open ++ [v]).
Proof.
  intros Hsc Eadj.
  assert (Hvi : adjacent g v i).
  { apply adj_iff. rewrite Eadj. apply in_or_app. simpl. auto. }
  split; [|split; [|split; [|split]]].
  - intros u Hu. apply open_or_v in Hu. apply cur_cases.
    destruct Hu as [Hu | ->]; auto.
  - apply NoDup_branch.
  - apply chain_snoc; auto.
  - eapply wf_closed; eauto.
  - now rewrite last_error_snoc.
Qed.

End Branch.

Lemma ud_helper_step (fuel : nat) (g : UndirectedGraph) (v : string)
  (visited : list string) (parent : option string) :
  has_Cycle_helper (S fuel) g v visited parent =
  (adj <- getitem v g ;;
   scan_adj (fun i visited => has_Cycle_helper fuel g i visited (Some v))
            parent adj (visited ++ [v])).
Proof. reflexivity. Qed.

Lemma parent_same (parent : option string) (i : string) :
  parent_differs parent i = false -> parent = Some i.
Proof.
  destruct parent as [p|]; simpl; [|discriminate].
  destruct (String.eqb_spec p i); [congruence|discriminate].
Qed.

(** Distinct visited vertices that miss the vertex [v] are fewer than the
    vertices of the graph. *)
Lemma ud_room_left (g : UndirectedGraph) (visited : list string) (v : string) :
  NoDup visited -> (forall u, In u visited -> has_key u g = true) ->
  has_key v g = true -> ~ In v visited ->
  (length visited < length g)%nat.
Proof.
  intros Hn Hk Hv Hnv.
  assert (H : (length (v :: visited) <= length (get_vertices g))%nat).
  { apply NoDup_incl_length; [constructor; auto|].
    intros u [<-|Hu]; apply has_key_In; auto. }
  unfold get_vertices in H. rewrite length_map in H. simpl in H. lia.
Qed.

(** [has_Cycle_helper(v, visited, parent)], called on an unvisited vertex
    [v] at the end of the branch [open]: either it returns [False] having
    visited [v] and some more vertices, or it returns [True] and the graph
    has a cycle. *)
Lemma ud_helper_spec (g : UndirectedGraph) :
  wf g ->
  forall (fuel : nat) (v : string) (visited open : list string)
         (parent : option string),
    searched g visited open -> incl open visited -> NoDup open ->
    chain g (open ++ [v]) -> ~ In v visited -> has_key v g = true ->
    parent = last_error open ->
    (length g <= fuel + length visited)%nat ->
    (exists new,
       has_Cycle_helper fuel g v visited parent
         = Ret (false, visited ++ v :: new) /\
       returned g visited open v parent new) \/
    (exists visited',
       has_Cycle_helper fuel g v visited parent = Ret (true, visited') /\
       cyclic g).
Proof.
  intros Hwf. induction fuel as [|fuel IH];
    intros v visited open parent Hsd Hincl Hnd Hchain Hv Hkey Hpar Hfuel.
  { pose proof (ud_room_left g visited v (sd_nodup _ _ _ Hsd)
                  (sd_keys _ _ _ Hsd) Hkey Hv). lia. }
  rewrite ud_helper_step.
  destruct (proj1 (has_key_true _ _) Hkey) as (adj & Hadj).
  unfold getitem. rewrite Hadj. simpl bind.
  assert (Scan : forall rest done new,
            adj = done ++ rest ->
            scanning g visited open v parent done new ->
            (exists new',
               scan_adj (fun i visited =>
                           has_Cycle_helper fuel g i visited (Some v))
                        parent rest (visited ++ v :: new)
                 = Ret (false, visited ++ v :: new') /\
               scanning g visited open v parent adj new') \/
            (exists visited',
               scan_adj (fun i visited =>
                           has_Cycle_helper fuel g i visited (Some v))
                        parent rest (visited ++ v :: new)
                 = Ret (true, visited') /\ cyclic g)).
  { induction rest as [|i rest IHr]; intros done new Eadj Hsc.
    - left. exists new. split; [reflexivity|].
      rewrite app_nil_r in Eadj. subst done. exact Hsc.
    - assert (Eadj' : adj = (done ++ [i]) ++ rest)
        by (rewrite <- app_assoc; exact Eadj).
      simpl scan_adj.
      destruct (mem String.eqb i (visited ++ v :: new)) eqn:Em;
        simpl negb; cbv iota.
      + apply mem_In_string in Em.
        destruct (parent_differs parent i) eqn:Ed.
        * right. eexists. split; [reflexivity|].
          eapply (scanning_detect g visited open v parent adj); eauto.
        * apply (IHr (done ++ [i]) new Eadj').
          eapply scanning_skip; eauto. now apply parent_same.
      + apply mem_false_string in Em.
        assert (Henter : incl (open ++ [v]) (visited ++ v :: new) /\
                  NoDup (open ++ [v]) /\
                  chain g ((open ++ [v]) ++ [i]) /\
                  has_key i g = true /\
                  Some v = last_error (open ++ [v]))
          by (eapply scanning_enter; eauto).
        destruct Henter as (H1 & H2 & H3 & H4 & H5).
        assert (Hf : (length g <= fuel + length (visited ++ v :: new))%nat)
          by (rewrite length_app; simpl; lia).
        destruct (IH i (visited ++ v :: new) (open ++ [v]) (Some v)
                    (sc_searched _ _ _ _ _ _ _ Hsc) H1 H2 H3 Em H4 H5 Hf)
          as [(new_i & E & Hret)|(visited' & E & Hc)].
        * rewrite E. simpl bind. cbv iota. simpl snd.
          replace ((visited ++ v :: new) ++ i :: new_i)
            with (visited ++ v :: new ++ i :: new_i)
            by (rewrite <- app_assoc; reflexivity).
          apply (IHr (done ++ [i]) (new ++ i :: new_i) Eadj').
          eapply scanning_call; eauto.
        * rewrite E. simpl. right. eauto. }
  assert (Hinit : scanning g visited open v parent [] [])
    by (eapply scanning_init; eauto).
  destruct (Scan adj [] [] eq_refl Hinit)
    as [(new & E & Hsc)|(visited' & E & Hc)].
  - left. exists new. split; [exact E|].
    eapply scanning_final; eauto.
  - right. eauto.
Qed.

(** *** The loop of [has_cycle] *)

Lemma ud_has_cycle_from_spec (g : UndirectedGraph) (fuel : nat) :
  wf g -> (length g <= fuel)%nat ->
  forall keys done visited,
    get_vertices g = done ++ keys ->
    searched g visited [] ->
    (forall k, In k done -> In k visited) ->
    (has_cycle_from fuel g keys visited = Ret false /\
     exists visited', searched g visited' [] /\
                      forall k, In k (get_vertices g) -> In k visited') \/
    (has_cycle_from fuel g keys visited = Ret true /\ cyclic g).
Proof.
  intros Hwf Hfuel. induction keys as [|k keys IH];
    intros done visited Ek Hsd Hdone.
  - left. split; [reflexivity|]. exists visited. split; auto.
    rewrite app_nil_r in Ek. now rewrite Ek.
  - assert (Ek' : get_vertices g = (done ++ [k]) ++ keys)
      by (rewrite <- app_assoc; exact Ek).
    simpl has_cycle_from.
    destruct (mem String.eqb k visited) eqn:Em; simpl negb; cbv iota.
    + apply mem_In_string in Em. apply (IH (done ++ [k])); auto.
      intros j Hj. apply in_app_or in Hj. destruct Hj as [Hj|[<-|[]]]; auto.
    + apply mem_false_string in Em.
      assert (Hkey : has_key k g = true).
      { apply has_key_In. rewrite Ek. apply in_or_app. simpl. auto. }
      destruct (ud_helper_spec g Hwf fuel k visited [] None)
        as [(new & E & [Hs _])|(visited' & E & Hc)]; auto.
      * intros u [].
      * constructor.
      * simpl. auto.
      * lia.
      * rewrite E. simpl bind. cbv iota. simpl snd.
        apply (IH (done ++ [k])); auto.
        intros j Hj. apply in_or_app. apply in_app_or in Hj.
        destruct Hj as [Hj|[<-|[]]]; simpl; auto.
      * rewrite E. simpl. right. auto.
Qed.

(** *** A search that ends without a back edge rules out every cycle *)

Lemma max_pos (l c : list string) :
  c <> [] ->
  exists u, In u c /\ forall x, In x c -> (pos l x <= pos l u)%nat.
Proof.
  induction c as [|h t IH]; [congruence|]. intros _.
  destruct t as [|h' t'].
  - exists h. split; [simpl; auto|]. intros x [<-|[]]. lia.
  - destruct IH as (u & Hu & Hmax); [discriminate|].
    destruct (Nat.le_gt_cases (pos l h) (pos l u)).
    + exists u. split; [simpl; auto|]. intros x [<-|Hx]; auto.
    + exists h. split; [simpl; auto|]. intros x [<-|Hx]; auto.
      specialize (Hmax x Hx). lia.
Qed.

(** A cycle read from any of its vertices. *)
Lemma cycle_from (g : UndirectedGraph) (c : list string) (u : string) :
  cycle g c -> In u c ->
  exists t, (2 <= length t)%nat /\ NoDup (u :: t) /\
            (forall x, In x t -> In x c) /\ chain g (u :: t ++ [u]).
Proof.
  intros (Hlen & Hnd & Hch) Hu. apply in_split in Hu.
  destruct Hu as (l1 & l2 & ->). exists (l2 ++ l1).
  split; [|split; [|split]].
  - rewrite length_app in *. simpl in Hlen. lia.
  - apply (Permutation_NoDup (l := l1 ++ u :: l2)); auto.
    apply (Permutation_app_comm l1 (u :: l2)).
  - intros x Hx. apply in_app_or in Hx. apply in_or_app. simpl. tauto.
  - destruct l1 as [|h l1].
    + simpl in Hch. rewrite app_nil_r. exact Hch.
    + change (((h :: l1) ++ u :: l2) ++ firstn 1 ((h :: l1) ++ u :: l2))
        with (((h :: l1) ++ u :: l2) ++ [h]) in Hch.
      rewrite <- app_assoc in Hch. simpl app in Hch.
      change (h :: l1 ++ u :: l2 ++ [h])
        with ((h :: l1) ++ u :: (l2 ++ [h])) in Hch.
      apply chain_app_iff in Hch. destruct Hch as [H1 H2].
      replace (u :: (l2 ++ h :: l1) ++ [u])
        with ((u :: l2) ++ h :: (l1 ++ [u]))
        by (simpl; rewrite <- app_assoc; reflexivity).
      apply chain_app_iff. split; auto.
Qed.

Lemma searched_acyclic (g : UndirectedGraph) (visited : list string) :
  wf g -> searched g visited [] ->
  (forall k, In k (get_vertices g) -> In k visited) ->
  ~ cyclic g.
Proof.
  intros Hwf [Hn Hk Hc Hb] Hall (c & Hcyc).
  destruct (max_pos visited c) as (u & Hu & Hmax).
  { destruct Hcyc as (Hlen & _). destruct c; simpl in Hlen; [lia|discriminate]. }
  destruct (cycle_from g c u Hcyc Hu) as (t & Hlen & Hnd & Hin & Hch).
  destruct t as [|b t]; [simpl in Hlen; lia|].
  destruct (exists_last (l := t)) as (m & a & ->).
  { destruct t; simpl in Hlen; [lia|discriminate]. }
  assert (Hub : adjacent g u b) by (simpl in Hch; tauto).
  assert (Hau : adjacent g a u).
  { replace (u :: (b :: m ++ [a]) ++ [u]) with ((u :: b :: m) ++ [a; u]) in Hch
      by (simpl; rewrite <- app_assoc; reflexivity).
    apply chain_suffix in Hch. simpl in Hch. tauto. }
  assert (Hua : adjacent g u a) by (now apply (wf_symmetric g Hwf)).
  assert (Hvis : forall x y, adjacent g x y -> In x visited).
  { intros x y (l & E & _). apply Hall. eapply get_In_keys; eauto. }
  assert (Hne : a <> u /\ b <> u /\ a <> b).
  { inversion Hnd as [|? ? Hnu Hnt]; subst.
    inversion Hnt as [|? ? Hnb _]; subst.
    repeat split.
    - intros ->. apply Hnu. simpl. right. apply in_or_app. simpl. auto.
    - intros ->. apply Hnu. simpl. auto.
    - intros ->. apply Hnb. apply in_or_app. simpl. auto. }
  destruct Hne as (Hau' & Hbu' & Hab).
  assert (Hearlier : forall x, In x (b :: m ++ [a]) -> x <> u ->
            adjacent g x u -> earlier visited x u).
  { intros x Hx Hxu Hadj. split; [eapply Hvis; eauto|].
    specialize (Hmax x (Hin x Hx)).
    destruct (Nat.eq_dec (pos visited x) (pos visited u)) as [E|E]; [|lia].
    exfalso. apply Hxu. apply (pos_inj visited); auto. eapply Hvis; eauto. }
  apply Hab. apply (Hb u); auto.
  - eapply Hvis; eauto.
  - apply Hearlier; auto. simpl. right. apply in_or_app. simpl. auto.
  - apply Hearlier; auto.
    + simpl. auto.
    + now apply (wf_symmetric g Hwf).
Qed.

Lemma searched_nil (g : UndirectedGraph) : searched g [] [].
Proof.
  split.
  - constructor.
  - intros u [].
  - intros u [].
  - intros u [].
Qed.

(** [has_cycle()] of a well-formed undirected graph returns, and returns
    [True] exactly when the graph has a cycle. *)
Lemma has_cycle_undirected (g : UndirectedGraph) (fuel : nat) :
  wf g -> (length g <= fuel)%nat ->
  exists b, has_cycle fuel g = Ret b /\ (b = true <-> cyclic g).
Proof.
  intros Hwf Hfuel. unfold has_cycle.
  destruct (ud_has_cycle_from_spec g fuel Hwf Hfuel (get_vertices g) [] []
              eq_refl (searched_nil g))
    as [[E (visited' & Hs & Hall)]|[E Hc]].
  - intros k [].
  - exists false. split; auto. split; [discriminate|].
    intros Hc. exfalso. eapply searched_acyclic; eauto.
  - exists true. split; auto. tauto.
Qed.

Lemma wf_g_triangle : wf g_triangle.
Proof.
  destruct (run_from_wf [AddEdge "A" "B"; AddEdge "B" "C"; AddEdge "C" "A"]
              empty wf_empty) as (g & E & Hwf).
  vm_compute in E. inversion E; subst. exact Hwf.
Qed.



End UndirectedCycleFacts.

(** ** Traversals: what every stack or queue search does *)

Module SearchFacts.
Import Py SearchOrder.

Lemma snoc_cases {A : Type} (l : list A) :
  l = [] \/ exists s x, l = s ++ [x].
Proof.
  destruct l as [|a l]; auto. right.
  destruct (exists_last (l := a :: l)) as (s & x & E); [discriminate|]. eauto.
Qed.

Lemma snoc_split {A : Type} (R P S : list A) (x y : A) :
  R ++ [x] = P ++ y :: S ->
  (P = R /\ y = x /\ S = []) \/ (exists S', S = S' ++ [x] /\ R = P ++ y :: S').
Proof.
  intros E. destruct (snoc_cases S) as [->|(S' & z & ->)].
  - left. apply app_inj_tail in E. destruct E; auto.
  - right. exists S'.
    replace (P ++ y :: S' ++ [z]) with ((P ++ y :: S') ++ [z]) in E
      by (rewrite <- app_assoc; reflexivity).
    apply app_inj_tail in E. destruct E as [-> ->]. auto.
Qed.

Section Lists.

Variable V : Type.
Variable eqb : V -> V -> bool.
Hypothesis eqb_eq : forall x y, eqb x y = true <-> x = y.
Variable temp : V -> list V.
Variable explore : V -> list V.

Lemma mem_In (x : V) (l : list V) : mem eqb x l = true <-> In x l.
Proof.
  unfold mem. rewrite existsb_exists. split.
  - intros (y & Hy & E). apply eqb_eq in E. now subst.
  - intros H. exists x. split; auto. now apply eqb_eq.
Qed.

Lemma mem_not_In (x : V) (l : list V) : mem eqb x l = false <-> ~ In x l.
Proof.
  rewrite <- mem_In. destruct (mem eqb x l); split; congruence.
Qed.

Lemma filter_same (p q : V -> bool) (l : list V) :
  (forall u, In u l -> p u = q u) -> filter p l = filter q l.
Proof.
  induction l as [|h t IH]; simpl; intros H; auto.
  rewrite (H h) by auto. rewrite IH by auto. reflexivity.
Qed.

Lemma weight_visit (U R : list V) (x : V) :
  NoDup U -> In x U -> ~ In x R ->
  weight eqb temp U R = (S (length (temp x)) + weight eqb temp U (R ++ [x]))%nat.
Proof.
  unfold weight. induction U as [|h t IH]; intros Hnd Hx Hr; [destruct Hx|].
  inversion Hnd as [|? ? Hh Ht]; subst. simpl filter.
  destruct Hx as [->|Hx].
  - assert (E1 : mem eqb x R = false) by (now apply mem_not_In).
    assert (E2 : mem eqb x (R ++ [x]) = true)
      by (apply mem_In, in_or_app; simpl; auto).
    rewrite E1, E2. simpl.
    assert (Ef : filter (fun u => negb (mem eqb u (R ++ [x]))) t =
                 filter (fun u => negb (mem eqb u R)) t).
    { apply filter_same. intros u Hu. f_equal.
      destruct (mem eqb u R) eqn:Em.
      - apply mem_In. apply in_or_app. left. now apply mem_In.
      - apply mem_not_In. apply mem_not_In in Em. intros Hin.
        apply in_app_or in Hin. destruct Hin as [Hin|[<-|[]]]; tauto. }
    rewrite Ef. reflexivity.
  - assert (Hne : h <> x) by (intros ->; tauto).
    assert (E : mem eqb h (R ++ [x]) = mem eqb h R).
    { destruct (mem eqb h R) eqn:Em.
      - apply mem_In. apply in_or_app. left. now apply mem_In.
      - apply mem_not_In. apply mem_not_In in Em. intros Hin.
        apply in_app_or in Hin. destruct Hin as [Hin|[E|[]]]; [tauto|congruence]. }
    rewrite E. destruct (mem eqb h R); simpl.
    + apply IH; auto.
    + rewrite IH by auto. lia.
Qed.

Lemma frame_ok_more (R R' : list V) (fr : V * list V) :
  incl R R' -> frame_ok explore R fr -> frame_ok explore R' fr.
Proof.
  intros Hi (done & E & Hd). exists done. split; auto.
  intros y Hy. auto.
Qed.

Lemma stacked_snoc (R : list V) (x : V) :
  stacked explore R ->
  (R <> [] -> exists P1 u P2, R = P1 ++ u :: P2 /\ next_in explore R u x /\
                              Forall (spent explore R) P2) ->
  stacked explore (R ++ [x]).
Proof.
  intros Hs Hx P y S E Hp. apply snoc_split in E.
  destruct E as [(-> & -> & ->)|(S' & -> & ->)].
  - now apply Hx.
  - eapply Hs; eauto.
Qed.

Lemma queued_snoc (R : list V) (x : V) :
  queued explore R ->
  (R <> [] -> exists P1 u P2, R = P1 ++ u :: P2 /\ next_in explore R u x /\
                              Forall (spent explore R) P1) ->
  queued explore (R ++ [x]).
Proof.
  intros Hs Hx P y S E Hp. apply snoc_split in E.
  destruct E as [(-> & -> & ->)|(S' & -> & ->)].
  - now apply Hx.
  - eapply Hs; eauto.
Qed.

(** The top of the stack belongs to the last frame that has something
    left. *)
Lemma last_block (frames : list (V * list V)) (s : list V) (x : V) :
  concat (List.map (fun fr => rev (snd fr)) frames) = s ++ [x] ->
  exists F1 u t F2,
    frames = F1 ++ (u, x :: t) :: F2 /\
    Forall (fun fr => snd fr = []) F2 /\
    s = concat (List.map (fun fr => rev (snd fr)) F1) ++ rev t.
Proof.
  induction frames as [|[u todo] F IH] using rev_ind; intros E.
  - destruct s; discriminate.
  - rewrite map_app, concat_app in E. simpl in E. rewrite app_nil_r in E.
    destruct todo as [|y t].
    + simpl in E. rewrite app_nil_r in E.
      destruct (IH E) as (F1 & u' & t & F2 & -> & Hf & Es).
      exists F1, u', t, (F2 ++ [(u, [])]). split; [|split; auto].
      * rewrite <- app_assoc. reflexivity.
      * apply Forall_app. split; auto.
    + simpl in E. rewrite app_assoc in E. apply app_inj_tail in E.
      destruct E as [<- ->]. exists F, u, t, []. auto.
Qed.

(** The front of the queue belongs to the first frame that has something
    left. *)
Lemma first_block (frames : list (V * list V)) (q : list V) (x : V) :
  concat (List.map snd frames) = x :: q ->
  exists F1 u t F2,
    frames = F1 ++ (u, x :: t) :: F2 /\
    Forall (fun fr => snd fr = []) F1 /\
    q = t ++ concat (List.map snd F2).
Proof.
  induction frames as [|[u todo] F IH]; intros E; [discriminate|].
  simpl in E. destruct todo as [|y t].
  - simpl in E. destruct (IH E) as (F1 & u' & t & F2 & -> & Hf & Eq).
    exists ((u, []) :: F1), u', t, F2. split; [reflexivity|]. split; auto.
  - simpl in E. inversion E; subst. exists [], u, t, F. auto.
Qed.

Lemma concat_empty (f : V * list V -> list V) (F : list (V * list V)) :
  Forall (fun fr => f fr = []) F -> concat (List.map f F) = [].
Proof.
  induction 1 as [|fr F H _ IH]; simpl; auto. now rewrite H, IH.
Qed.

(** Frames with nothing left belong to vertices whose neighbours are all
    visited. *)
Lemma empty_spent (R : list V) (F : list (V * list V)) :
  Forall (frame_ok explore R) F -> Forall (fun fr => snd fr = []) F ->
  Forall (spent explore R) (List.map fst F).
Proof.
  induction 1 as [|fr F (done & E & Hd) _ IH]; intros He; simpl; auto.
  inversion He as [|? ? He1 He2]; subst. constructor; auto.
  unfold spent. rewrite E, He1, app_nil_r. exact Hd.
Qed.

End Lists.

(** *** Searching with a stack *)

Section Stack.

Variable V : Type.
Variable eqb : V -> V -> bool.
Hypothesis eqb_eq : forall x y, eqb x y = true <-> x = y.
(** [temp v]: the list pushed when [v] is visited; [U]: the vertices. *)
Variable temp : V -> list V.
Variable U : list V.
Hypothesis U_nodup : NoDup U.
Hypothesis U_closed : forall u, In u U -> incl (temp u) U.
(** The loop, by the equations of its rounds. *)
Variable loop : nat -> list V -> list V -> outcome (list V).
Hypothesis loop_done : forall f R, loop (S f) [] R = Ret R.
Hypothesis loop_skip : forall f s x R,
  In x R -> loop (S f) (s ++ [x]) R = loop f s R.
Hypothesis loop_visit : forall f s x R,
  In x U -> ~ In x R -> loop (S f) (s ++ [x]) R = loop f (s ++ temp x) (R ++ [x]).

Let explore (v : V) : list V := rev (temp v).

Lemma stack_in_U (stack R : list V) (frames : list (V * list V)) :
  stack_inv explore U stack R frames -> incl stack U.
Proof.
  intros [Hf Hok -> _ Hin _] x Hx.
  apply in_concat in Hx. destruct Hx as (l & Hl & Hx).
  apply in_map_iff in Hl. destruct Hl as (fr & <- & Hfr).
  rewrite Forall_forall in Hok. destruct (Hok fr Hfr) as (done & E & _).
  apply (U_closed (fst fr)).
  - apply Hin. rewrite <- Hf. now apply in_map.
  - apply in_rev. fold (explore (fst fr)). rewrite E.
    apply in_or_app. right. now apply in_rev.
Qed.

Lemma stack_skip_inv (s R : list V) (x : V) (frames : list (V * list V)) :
  stack_inv explore U (s ++ [x]) R frames -> In x R ->
  exists frames', stack_inv explore U s R frames'.
Proof.
  intros [Hf Hok Hs Hnd Hin Hord] Hx. symmetry in Hs.
  destruct (last_block V frames s x Hs) as (F1 & u & t & F2 & -> & He & Es).
  exists (F1 ++ (u, t) :: F2). split; auto.
  - rewrite <- Hf. rewrite !map_app. reflexivity.
  - apply Forall_app in Hok. destruct Hok as [H1 H2].
    apply Forall_cons_iff in H2. destruct H2 as [(done & E & Hd) H3].
    apply Forall_app. split; auto. constructor; auto.
    exists (done ++ [x]). simpl in *. split.
    + rewrite <- app_assoc. exact E.
    + intros y Hy. apply in_app_or in Hy. destruct Hy as [Hy|[<-|[]]]; auto.
  - rewrite Es, map_app, concat_app. simpl.
    rewrite (concat_empty V _ F2), app_nil_r; auto.
    eapply Forall_impl; [|exact He]. intros fr E. simpl. now rewrite E.
Qed.

Lemma stack_visit_inv (s R : list V) (x : V) (frames : list (V * list V)) :
  stack_inv explore U (s ++ [x]) R frames -> ~ In x R ->
  exists frames', stack_inv explore U (s ++ temp x) (R ++ [x]) frames'.
Proof.
  intros Hinv Hx. pose proof (stack_in_U _ _ _ Hinv) as HsU.
  destruct Hinv as [Hf Hok Hs Hnd Hin Hord]. symmetry in Hs.
  destruct (last_block V frames s x Hs) as (F1 & u & t & F2 & -> & He & Es).
  assert (HxU : In x U) by (apply HsU, in_or_app; simpl; auto).
  apply Forall_app in Hok. destruct Hok as [H1 H2].
  apply Forall_cons_iff in H2. destruct H2 as [(done & E & Hd) H3]. simpl in E.
  subst R.
  exists (F1 ++ (u, t) :: F2 ++ [(x, explore x)]).
  assert (Hmore : incl (List.map fst (F1 ++ (u, x :: t) :: F2))
                       (List.map fst (F1 ++ (u, x :: t) :: F2) ++ [x]))
    by (intros y Hy; apply in_or_app; auto).
  split.
  - rewrite !map_app. simpl. rewrite map_app. simpl.
    rewrite <- app_assoc. reflexivity.
  - apply Forall_app. split.
    + eapply Forall_impl; [|exact H1]. intros fr. now apply frame_ok_more.
    + constructor.
      * exists (done ++ [x]). simpl. split.
        -- rewrite <- app_assoc. exact E.
        -- intros y Hy. apply in_app_or in Hy. apply in_or_app.
           destruct Hy as [Hy|[<-|[]]]; simpl; auto.
      * apply Forall_app. split.
        -- eapply Forall_impl; [|exact H3]. intros fr. now apply frame_ok_more.
        -- constructor; [|constructor]. exists []. simpl. split; auto.
           intros y [].
  - rewrite Es, !map_app, !concat_app. simpl. rewrite map_app, concat_app.
    simpl. rewrite (concat_empty V _ F2), app_nil_r.
    + unfold explore. rewrite rev_involutive. rewrite <- app_assoc. reflexivity.
    + eapply Forall_impl; [|exact He]. intros fr E'. simpl. now rewrite E'.
  - apply NoDup_app; auto.
    + constructor; [intros []|constructor].
    + intros y Hy [<-|[]]. tauto.
  - intros y Hy. apply in_app_or in Hy. destruct Hy as [Hy|[<-|[]]]; auto.
  - apply stacked_snoc; auto. intros _.
    exists (List.map fst F1), u, (List.map fst F2). split; [|split].
    + rewrite map_app. reflexivity.
    + exists done, t. split; auto.
    + now apply empty_spent.
Qed.

Lemma stack_run_empty (v0 : V) (R : list V) (frames : list (V * list V)) :
  stack_inv explore U [] R frames ->
  (exists S, R = v0 :: S) ->
  exists R',
    (forall fuel, (length (@nil V) + weight eqb temp U R < fuel)%nat ->
                  loop fuel [] R = Ret R') /\
    finished explore (stacked explore) U v0 R'.
Proof.
  intros Hinv Hfirst. exists R. split.
  - intros [|f] Hf; [lia|]. apply loop_done.
  - destruct Hinv as [Hf Hok Hs Hnd Hin Hord]. split; auto.
    intros u Hu.
    assert (He : Forall (fun fr : V * list V => snd fr = []) frames).
    { clear - Hs. induction frames as [|fr F IHF]; auto.
      simpl in Hs. symmetry in Hs. apply app_eq_nil in Hs.
      destruct Hs as [H1 H2]. constructor; auto.
      destruct (snd fr) as [|y l]; auto. simpl in H1.
      destruct (rev l); discriminate. }
    pose proof (empty_spent V explore R frames Hok He) as Hsp.
    rewrite Forall_forall in Hsp. rewrite Hf in Hsp. now apply Hsp.
Qed.

(** From a state that satisfies the invariant the loop returns the result
    of a finished search, whatever the allowance beyond the bound. *)
Lemma stack_run (v0 : V) (m : nat) :
  forall (stack R : list V) (frames : list (V * list V)),
    stack_inv explore U stack R frames ->
    (exists S, R = v0 :: S) ->
    (length stack + weight eqb temp U R <= m)%nat ->
    exists R',
      (forall fuel, (length stack + weight eqb temp U R < fuel)%nat ->
                    loop fuel stack R = Ret R') /\
      finished explore (stacked explore) U v0 R'.
Proof.
  induction m as [|m IH]; intros stack R frames Hinv Hfirst Hm.
  - destruct stack; [|simpl in Hm; lia]. eapply stack_run_empty; eauto.
  - destruct (snoc_cases stack) as [->|(s & x & ->)].
    + eapply stack_run_empty; eauto.
    + rewrite length_app in Hm. simpl in Hm.
      destruct (mem eqb x R) eqn:Em.
      * apply (mem_In V eqb eqb_eq) in Em.
        destruct (stack_skip_inv s R x frames Hinv Em) as (frames' & Hinv').
        destruct (IH s R frames' Hinv' Hfirst) as (R' & Hrun & Hfin); [lia|].
        exists R'. split; auto. intros [|f] Hf; [lia|].
        rewrite loop_skip by assumption. apply Hrun.
        rewrite length_app in Hf. simpl in Hf. lia.
      * apply (mem_not_In V eqb eqb_eq) in Em.
        assert (HxU : In x U).
        { apply (stack_in_U _ _ _ Hinv). apply in_or_app. simpl. auto. }
        assert (Hw : weight eqb temp U R =
                     (S (length (temp x)) + weight eqb temp U (R ++ [x]))%nat)
          by (eapply weight_visit; eauto).
        destruct (stack_visit_inv s R x frames Hinv Em) as (frames' & Hinv').
        destruct (IH (s ++ temp x) (R ++ [x]) frames' Hinv')
          as (R' & Hrun & Hfin).
        -- destruct Hfirst as (S0 & ->). exists (S0 ++ [x]). reflexivity.
        -- rewrite length_app. lia.
        -- exists R'. split; auto. intros [|f] Hf; [lia|].
           rewrite loop_visit by assumption. apply Hrun.
           rewrite length_app in *. simpl in Hf. lia.
Qed.

(** The search from a vertex [v0] returns, within [weight] rounds, the
    result of a finished depth-first search. *)
Lemma stack_search (v0 : V) :
  In v0 U ->
  exists R,
    (forall fuel, (weight eqb temp U [] < fuel)%nat ->
                  loop fuel [v0] [] = Ret R) /\
    finished explore (stacked explore) U v0 R.
Proof.
  intros Hv0.
  assert (Hw : weight eqb temp U [] =
               (S (length (temp v0)) + weight eqb temp U ([] ++ [v0]))%nat)
    by (eapply weight_visit; eauto).
  simpl app in Hw.
  destruct (stack_run v0 (length (temp v0) + weight eqb temp U [v0])
              (temp v0) [v0] [(v0, explore v0)]) as (R & Hrun & Hfin).
  - split; simpl; auto.
    + constructor; [|constructor]. exists []. simpl. split; auto. intros y [].
    + unfold explore. now rewrite rev_involutive, app_nil_r.
    + constructor; [intros []|constructor].
    + intros y [<-|[]]. exact Hv0.
    + intros P x S E Hp. exfalso. destruct P as [|p P]; [congruence|].
      inversion E as [[E1 E2]]. destruct P; discriminate.
  - exists []. reflexivity.
  - lia.
  - exists R. split; auto. intros [|f] Hf; [lia|].
    change [v0] with ([] ++ [v0]) at 1. rewrite loop_visit; auto.
    simpl. apply Hrun. lia.
Qed.

End Stack.

(** *** Searching with a queue *)

Section Queue.

Variable V : Type.
Variable eqb : V -> V -> bool.
Hypothesis eqb_eq : forall x y, eqb x y = true <-> x = y.
(** [temp v]: the list appended when [v] is visited; [U]: the vertices. *)
Variable temp : V -> list V.
Variable U : list V.
Hypothesis U_nodup : NoDup U.
Hypothesis U_closed : forall u, In u U -> incl (temp u) U.
(** The loop, by the equations of its rounds. *)
Variable loop : nat -> list V -> list V -> outcome (list V).
Hypothesis loop_done : forall f R, loop (S f) [] R = Ret R.
Hypothesis loop_skip : forall f q x R,
  In x R -> loop (S f) (x :: q) R = loop f q R.
Hypothesis loop_visit : forall f q x R,
  In x U -> ~ In x R -> loop (S f) (x :: q) R = loop f (q ++ temp x) (R ++ [x]).

Lemma queue_in_U (queue R : list V) (frames : list (V * list V)) :
  queue_inv temp U queue R frames -> incl queue U.
Proof.
  intros [Hf Hok -> _ Hin _] x Hx.
  apply in_concat in Hx. destruct Hx as (l & Hl & Hx).
  apply in_map_iff in Hl. destruct Hl as (fr & <- & Hfr).
  rewrite Forall_forall in Hok. destruct (Hok fr Hfr) as (done & E & _).
  apply (U_closed (fst fr)).
  - apply Hin. rewrite <- Hf. now apply in_map.
  - rewrite E. apply in_or_app. now right.
Qed.

Lemma queue_skip_inv (q R : list V) (x : V) (frames : list (V * list V)) :
  queue_inv temp U (x :: q) R frames -> In x R ->
  exists frames', queue_inv temp U q R frames'.
Proof.
  intros [Hf Hok Hs Hnd Hin Hord] Hx. symmetry in Hs.
  destruct (first_block V frames q x Hs) as (F1 & u & t & F2 & -> & He & Es).
  exists (F1 ++ (u, t) :: F2). split; auto.
  - rewrite <- Hf. rewrite !map_app. reflexivity.
  - apply Forall_app in Hok. destruct Hok as [H1 H2].
    apply Forall_cons_iff in H2. destruct H2 as [(done & E & Hd) H3].
    apply Forall_app. split; auto. constructor; auto.
    exists (done ++ [x]). simpl in *. split.
    + rewrite <- app_assoc. exact E.
    + intros y Hy. apply in_app_or in Hy. destruct Hy as [Hy|[<-|[]]]; auto.
  - rewrite Es, map_app, concat_app. simpl.
    rewrite (concat_empty V _ F1); auto.
Qed.

Lemma queue_visit_inv (q R : list V) (x : V) (frames : list (V * list V)) :
  queue_inv temp U (x :: q) R frames -> ~ In x R ->
  exists frames', queue_inv temp U (q ++ temp x) (R ++ [x]) frames'.
Proof.
  intros Hinv Hx. pose proof (queue_in_U _ _ _ Hinv) as HsU.
  destruct Hinv as [Hf Hok Hs Hnd Hin Hord]. symmetry in Hs.
  destruct (first_block V frames q x Hs) as (F1 & u & t & F2 & -> & He & Es).
  assert (HxU : In x U) by (apply HsU; simpl; auto).
  apply Forall_app in Hok. destruct Hok as [H1 H2].
  apply Forall_cons_iff in H2. destruct H2 as [(done & E & Hd) H3]. simpl in E.
  subst R.
  exists (F1 ++ (u, t) :: F2 ++ [(x, temp x)]).
  assert (Hmore : incl (List.map fst (F1 ++ (u, x :: t) :: F2))
                       (List.map fst (F1 ++ (u, x :: t) :: F2) ++ [x]))
    by (intros y Hy; apply in_or_app; auto).
  split.
  - rewrite !map_app. simpl. rewrite map_app. simpl.
    rewrite <- app_assoc. reflexivity.
  - apply Forall_app. split.
    + eapply Forall_impl; [|exact H1]. intros fr. now apply frame_ok_more.
    + constructor.
      * exists (done ++ [x]). simpl. split.
        -- rewrite <- app_assoc. exact E.
        -- intros y Hy. apply in_app_or in Hy. apply in_or_app.
           destruct Hy as [Hy|[<-|[]]]; simpl; auto.
      * apply Forall_app. split.
        -- eapply Forall_impl; [|exact H3]. intros fr. now apply frame_ok_more.
        -- constructor; [|constructor]. exists []. simpl. split; auto.
           intros y [].
  - rewrite Es, !map_app, !concat_app. simpl. rewrite map_app, concat_app.
    simpl. rewrite (concat_empty V _ F1), app_nil_r; auto.
    rewrite <- app_assoc. reflexivity.
  - apply NoDup_app; auto.
    + constructor; [intros []|constructor].
    + intros y Hy [<-|[]]. tauto.
  - intros y Hy. apply in_app_or in Hy. destruct Hy as [Hy|[<-|[]]]; auto.
  - apply queued_snoc; auto. intros _.
    exists (List.map fst F1), u, (List.map fst F2). split; [|split].
    + rewrite map_app. reflexivity.
    + exists done, t. split; auto.
    + now apply empty_spent.
Qed.

Lemma queue_run_empty (v0 : V) (R : list V) (frames : list (V * list V)) :
  queue_inv temp U [] R frames ->
  (exists S, R = v0 :: S) ->
  exists R',
    (forall fuel, (length (@nil V) + weight eqb temp U R < fuel)%nat ->
                  loop fuel [] R = Ret R') /\
    finished temp (queued temp) U v0 R'.
Proof.
  intros Hinv Hfirst. exists R. split.
  - intros [|f] Hf; [lia|]. apply loop_done.
  - destruct Hinv as [Hf Hok Hs Hnd Hin Hord]. split; auto.
    intros u Hu.
    assert (He : Forall (fun fr : V * list V => snd fr = []) frames).
    { clear - Hs. induction frames as [|fr F IHF]; auto.
      simpl in Hs. symmetry in Hs. apply app_eq_nil in Hs.
      destruct Hs as [H1 H2]. constructor; auto. }
    pose proof (empty_spent V temp R frames Hok He) as Hsp.
    rewrite Forall_forall in Hsp. rewrite Hf in Hsp. now apply Hsp.
Qed.

Lemma queue_run (v0 : V) (m : nat) :
  forall (queue R : list V) (frames : list (V * list V)),
    queue_inv temp U queue R frames ->
    (exists S, R = v0 :: S) ->
    (length queue + weight eqb temp U R <= m)%nat ->
    exists R',
      (forall fuel, (length queue + weight eqb temp U R < fuel)%nat ->
                    loop fuel queue R = Ret R') /\
      finished temp (queued temp) U v0 R'.
Proof.
  induction m as [|m IH]; intros queue R frames Hinv Hfirst Hm.
  - destruct queue; [|simpl in Hm; lia]. eapply queue_run_empty; eauto.
  - destruct queue as [|x q].
    + eapply queue_run_empty; eauto.
    + simpl in Hm. destruct (mem eqb x R) eqn:Em.
      * apply (mem_In V eqb eqb_eq) in Em.
        destruct (queue_skip_inv q R x frames Hinv Em) as (frames' & Hinv').
        destruct (IH q R frames' Hinv' Hfirst) as (R' & Hrun & Hfin); [lia|].
        exists R'. split; auto. intros [|f] Hf; [lia|].
        rewrite loop_skip by assumption. apply Hrun. simpl in Hf. lia.
      * apply (mem_not_In V eqb eqb_eq) in Em.
        assert (HxU : In x U).
        { apply (queue_in_U _ _ _ Hinv). simpl. auto. }
        assert (Hw : weight eqb temp U R =
                     (S (length (temp x)) + weight eqb temp U (R ++ [x]))%nat)
          by (eapply weight_visit; eauto).
        destruct (queue_visit_inv q R x frames Hinv Em) as (frames' & Hinv').
        destruct (IH (q ++ temp x) (R ++ [x]) frames' Hinv')
          as (R' & Hrun & Hfin).
        -- destruct Hfirst as (S0 & ->). exists (S0 ++ [x]). reflexivity.
        -- rewrite length_app. lia.
        -- exists R'. split; auto. intros [|f] Hf; [lia|].
           rewrite loop_visit by assumption. apply Hrun.
           rewrite length_app in *. simpl in Hf. lia.
Qed.

(** The search from a vertex [v0] returns, within [weight] rounds, the
    result of a finished breadth-first search. *)
Lemma queue_search (v0 : V) :
  In v0 U ->
  exists R,
    (forall fuel, (weight eqb temp U [] < fuel)%nat ->
                  loop fuel [v0] [] = Ret R) /\
    finished temp (queued temp) U v0 R.
Proof.
  intros Hv0.
  assert (Hw : weight eqb temp U [] =
               (S (length (temp v0)) + weight eqb temp U ([] ++ [v0]))%nat)
    by (eapply weight_visit; eauto).
  simpl app in Hw.
  destruct (queue_run v0 (length (temp v0) + weight eqb temp U [v0])
              (temp v0) [v0] [(v0, temp v0)]) as (R & Hrun & Hfin).
  - split; simpl; auto.
    + constructor; [|constructor]. exists []. simpl. split; auto. intros y [].
    + now rewrite app_nil_r.
    + constructor; [intros []|constructor].
    + intros y [<-|[]]. exact Hv0.
    + intros P x S E Hp. exfalso. destruct P as [|p P]; [congruence|].
      inversion E as [[E1 E2]]. destruct P; discriminate.
  - exists []. reflexivity.
  - lia.
  - exists R. split; auto. intros [|f] Hf; [lia|].
    rewrite loop_visit; auto. simpl. apply Hrun. lia.
Qed.

End Queue.

(** *** From the lists explored to neighbours in ascending order *)

Section Bridge.

Variable V : Type.
Variable explore : V -> list V.
Variable nbr : V -> V -> Prop.
Variable lt : V -> V -> Prop.
Variable U : list V.
(** [explore u] lists the neighbours of [u], none before a smaller one. *)
Hypothesis explore_nbr : forall u x, In u U -> (In x (explore u) <-> nbr u x).
Hypothesis explore_asc : forall u a1 x a2 y,
  In u U -> explore u = a1 ++ x :: a2 -> In y (x :: a2) -> ~ lt y x.

Lemma next_in_least (P : list V) (u x : V) :
  In u U -> next_in explore P u x -> least_new nbr lt P u x.
Proof.
  intros Hu (a1 & a2 & E & Hi). split.
  - apply explore_nbr; auto. rewrite E. apply in_or_app. simpl. auto.
  - intros y Hy Hlt. apply explore_nbr in Hy; auto. rewrite E in Hy.
    apply in_app_or in Hy. destruct Hy as [Hy|Hy]; auto.
    exfalso. eapply explore_asc; eauto.
Qed.

Lemma spent_exhausted (P : list V) (l : list V) :
  incl l U -> Forall (spent explore P) l -> Forall (exhausted nbr P) l.
Proof.
  intros Hl H. rewrite Forall_forall in *. intros u Hu y Hy.
  apply (H u Hu). apply explore_nbr; auto.
Qed.

Lemma stacked_depth_first (R : list V) :
  incl R U -> stacked explore R -> depth_first nbr lt R.
Proof.
  intros Hin Hs P x S E Hp.
  destruct (Hs P x S E Hp) as (P1 & u & P2 & -> & Hn & Hsp).
  assert (HP : incl (P1 ++ u :: P2) U).
  { intros y Hy. apply Hin. rewrite E. apply in_or_app. auto. }
  exists P1, u, P2. split; auto. split.
  - apply next_in_least; auto. apply HP. apply in_or_app. simpl. auto.
  - apply spent_exhausted; auto.
    intros y Hy. apply HP. apply in_or_app. simpl. auto.
Qed.

Lemma queued_breadth_first (R : list V) :
  incl R U -> queued explore R -> breadth_first nbr lt R.
Proof.
  intros Hin Hs P x S E Hp.
  destruct (Hs P x S E Hp) as (P1 & u & P2 & -> & Hn & Hsp).
  assert (HP : incl (P1 ++ u :: P2) U).
  { intros y Hy. apply Hin. rewrite E. apply in_or_app. auto. }
  exists P1, u, P2. split; auto. split.
  - apply next_in_least; auto. apply HP. apply in_or_app. simpl. auto.
  - apply spent_exhausted; auto.
    intros y Hy. apply HP. apply in_or_app. auto.
Qed.

(** A list that starts at [v0], in which every later vertex is a neighbour
    of an earlier one and which holds the neighbours of its vertices, is
    the set of the vertices that [v0] leads to. *)
Lemma closed_reach (R : list V) (v0 : V) :
  incl R U ->
  (exists S, R = v0 :: S) ->
  (forall P x S, R = P ++ x :: S -> P <> [] ->
     exists P1 u P2, P = P1 ++ u :: P2 /\ nbr u x) ->
  (forall u, In u R -> spent explore R u) ->
  forall w, In w R <-> reach nbr v0 w.
Proof.
  intros Hin (S0 & E0) Hpred Hsp w. split.
  - intros Hw. apply in_split in Hw. destruct Hw as (P & S & E).
    revert w S E. induction P as [P IH] using (induction_ltof1 _ (@length V)).
    unfold ltof in IH. intros w S E.
    destruct P as [|p P'].
    + rewrite E0 in E. simpl in E. inversion E; subst. constructor.
    + destruct (Hpred (p :: P') w S E) as (P1 & u & P2 & EP & Hn); [discriminate|].
      apply reach_next with (b := u); auto.
      apply (IH P1) with (S := P2 ++ w :: S).
      * rewrite EP, length_app. simpl. lia.
      * rewrite E, EP. rewrite <- app_assoc. reflexivity.
  - intros Hw. induction Hw as [|b c Hb IH Hbc].
    + rewrite E0. simpl. auto.
    + apply (Hsp b IH). apply explore_nbr; auto.
Qed.

Lemma stacked_pred (R : list V) :
  incl R U -> stacked explore R ->
  forall P x S, R = P ++ x :: S -> P <> [] ->
     exists P1 u P2, P = P1 ++ u :: P2 /\ nbr u x.
Proof.
  intros Hin Hs P x S E Hp.
  destruct (stacked_depth_first R Hin Hs P x S E Hp)
    as (P1 & u & P2 & EP & [Hn _] & _). eauto.
Qed.

Lemma queued_pred (R : list V) :
  incl R U -> queued explore R ->
  forall P x S, R = P ++ x :: S -> P <> [] ->
     exists P1 u P2, P = P1 ++ u :: P2 /\ nbr u x.
Proof.
  intros Hin Hs P x S E Hp.
  destruct (queued_breadth_first R Hin Hs P x S E Hp)
    as (P1 & u & P2 & EP & [Hn _] & _). eauto.
Qed.

End Bridge.

(** *** The two searches *)

Section Searches.

Variable V : Type.
Variable eqb : V -> V -> bool.
Hypothesis eqb_eq : forall x y, eqb x y = true <-> x = y.
Variable temp : V -> list V.
Variable nbr : V -> V -> Prop.
Variable lt : V -> V -> Prop.
Variable U : list V.
Hypothesis U_nodup : NoDup U.
Hypothesis U_closed : forall u, In u U -> incl (temp u) U.
Hypothesis temp_nbr : forall u x, In u U -> (In x (temp u) <-> nbr u x).
Variable loop : nat -> list V -> list V -> outcome (list V).
Hypothesis loop_done : forall f R, loop (S f) [] R = Ret R.

(** A loop that takes the last element of its list, which receives the
    neighbours with the greatest first, visits every vertex that the start
    leads to, once, in depth-first order with ascending choice. *)
Lemma stack_search_spec (v0 : V) :
  (forall f s x R, In x R -> loop (S f) (s ++ [x]) R = loop f s R) ->
  (forall f s x R, In x U -> ~ In x R ->
     loop (S f) (s ++ [x]) R = loop f (s ++ temp x) (R ++ [x])) ->
  (forall u a1 x a2 y, In u U -> rev (temp u) = a1 ++ x :: a2 ->
     In y (x :: a2) -> ~ lt y x) ->
  In v0 U ->
  exists R,
    (forall fuel, (weight eqb temp U [] < fuel)%nat ->
                  loop fuel [v0] [] = Ret R) /\
    NoDup R /\ (exists S, R = v0 :: S) /\
    (forall w, In w R <-> reach nbr v0 w) /\
    depth_first nbr lt R.
Proof.
  intros Hskip Hvisit Hasc Hv0.
  destruct (stack_search V eqb eqb_eq temp U U_nodup U_closed loop
              loop_done Hskip Hvisit v0 Hv0)
    as (R & Hrun & [Hnd Hin Hfirst Hord Hsp]).
  assert (Hnbr : forall u x, In u U -> (In x (rev (temp u)) <-> nbr u x)).
  { intros u x Hu. rewrite <- in_rev. now apply temp_nbr. }
  exists R. split; [|split; [|split; [|split]]]; auto.
  - apply (closed_reach V (fun v => rev (temp v)) nbr U Hnbr R v0); auto.
    apply (stacked_pred V (fun v => rev (temp v)) nbr lt U); auto.
  - apply (stacked_depth_first V (fun v => rev (temp v)) nbr lt U); auto.
Qed.

(** A loop that takes the first element of its list, which receives the
    neighbours with the least first, visits every vertex that the start
    leads to, once, in breadth-first order with ascending choice. *)
Lemma queue_search_spec (v0 : V) :
  (forall f q x R, In x R -> loop (S f) (x :: q) R = loop f q R) ->
  (forall f q x R, In x U -> ~ In x R ->
     loop (S f) (x :: q) R = loop f (q ++ temp x) (R ++ [x])) ->
  (forall u a1 x a2 y, In u U -> temp u = a1 ++ x :: a2 ->
     In y (x :: a2) -> ~ lt y x) ->
  In v0 U ->
  exists R,
    (forall fuel, (weight eqb temp U [] < fuel)%nat ->
                  loop fuel [v0] [] = Ret R) /\
    NoDup R /\ (exists S, R = v0 :: S) /\
    (forall w, In w R <-> reach nbr v0 w) /\
    breadth_first nbr lt R.
Proof.
  intros Hskip Hvisit Hasc Hv0.
  destruct (queue_search V eqb eqb_eq temp U U_nodup U_closed loop
              loop_done Hskip Hvisit v0 Hv0)
    as (R & Hrun & [Hnd Hin Hfirst Hord Hsp]).
  exists R. split; [|split; [|split; [|split]]]; auto.
  - apply (closed_reach V temp nbr U temp_nbr R v0); auto.
    apply (queued_pred V temp nbr lt U); auto.
  - apply (queued_breadth_first V temp nbr lt U); auto.
Qed.

End Searches.

(** *** Sorting *)

Section Sorting.

Variable A : Type.
Variable leb : A -> A -> bool.
Hypothesis leb_total : forall a b, leb a b = true \/ leb b a = true.
Hypothesis leb_trans : forall a b c,
  leb a b = true -> leb b c = true -> leb a c = true.

Lemma In_insert_sorted (x y : A) (l : list A) :
  In y (insert_sorted leb x l) <-> y = x \/ In y l.
Proof.
  induction l as [|h t IH]; simpl.
  - intuition.
  - destruct (leb x h); simpl; rewrite ?IH; intuition.
Qed.

Lemma In_sort (y : A) (l : list A) : In y (sort leb l) <-> In y l.
Proof.
  unfold sort. induction l as [|h t IH]; simpl; [tauto|].
  rewrite In_insert_sorted, IH. intuition.
Qed.

Lemma insert_sorted_sorted (x : A) (l : list A) :
  StronglySorted (fun a b => leb a b = true) l ->
  StronglySorted (fun a b => leb a b = true) (insert_sorted leb x l).
Proof.
  induction 1 as [|h t Hs IH Hf]; simpl.
  - constructor; constructor.
  - destruct (leb x h) eqn:E.
    + constructor; [constructor; auto|]. constructor; auto.
      eapply Forall_impl; [|exact Hf]. intros y Hy. eapply leb_trans; eauto.
    + constructor; auto. rewrite Forall_forall in *. intros y Hy.
      apply In_insert_sorted in Hy. destruct Hy as [->|Hy]; auto.
      destruct (leb_total x h); congruence.
Qed.

Lemma sort_sorted (l : list A) :
  StronglySorted (fun a b => leb a b = true) (sort leb l).
Proof.
  unfold sort. induction l as [|h t IH]; simpl; [constructor|].
  now apply insert_sorted_sorted.
Qed.

End Sorting.

Lemma sorted_snoc {A : Type} (R : A -> A -> Prop) (l : list A) (a : A) :
  StronglySorted R l -> Forall (fun y => R y a) l -> StronglySorted R (l ++ [a]).
Proof.
  induction 1 as [|h t Hs IH Hf]; intros Ha; simpl.
  - constructor; constructor.
  - inversion Ha; subst. constructor; auto.
    apply Forall_app. split; auto.
Qed.

Lemma sorted_rev {A : Type} (R : A -> A -> Prop) (l : list A) :
  StronglySorted R l -> StronglySorted (fun a b => R b a) (rev l).
Proof.
  induction 1 as [|h t Hs IH Hf]; simpl; [constructor|].
  apply sorted_snoc; auto. apply Forall_rev. exact Hf.
Qed.

Lemma sorted_after {A : Type} (R : A -> A -> Prop) (a1 a2 : list A) (x y : A) :
  StronglySorted R (a1 ++ x :: a2) -> In y a2 -> R x y.
Proof.
  induction a1 as [|h t IH]; simpl; intros Hs Hy.
  - inversion Hs as [|? ? _ Hf]; subst. rewrite Forall_forall in Hf. auto.
  - inversion Hs; subst. auto.
Qed.

End SearchFacts.

(** ** DirectedGraph: [dfs] and [bfs] *)

Module DirectedSearchFacts.
Import Py PyFacts Directed DirectedSpec DirectedFacts DirectedPaths.
Import DijkstraFacts DirectedCycles DirectedCycleFacts SearchOrder SearchFacts.

Lemma pop_last_nil {A : Type} : pop_last (@nil A) = None.
Proof. reflexivity. Qed.

Lemma pop_last_snoc {A : Type} (s : list A) (x : A) :
  pop_last (s ++ [x]) = Some (s, x).
Proof.
  unfold pop_last. rewrite rev_app_distr. simpl. now rewrite rev_involutive.
Qed.

Lemma In_adjacent_from (row : list Z) (k c : Z) :
  0 <= k ->
  (In c (adjacent_from row k) <->
   k <= c /\ exists w, nth_error row (Z.to_nat (c - k)) = Some w /\ w <> 0).
Proof.
  revert k. induction row as [|d rest IH]; intros k Hk.
  - simpl. split; [tauto|]. intros (_ & w & E & _).
    destruct (Z.to_nat (c - k)); discriminate.
  - assert (Hrest : In c (adjacent_from rest (k + 1)) <->
              k + 1 <= c /\
              exists w, nth_error (d :: rest) (Z.to_nat (c - k)) = Some w /\
                        w <> 0).
    { rewrite IH by lia. split; intros (Hc & w & E & Hw).
      - split; auto. exists w. split; auto.
        replace (Z.to_nat (c - k)) with (S (Z.to_nat (c - (k + 1)))) by lia.
        exact E.
      - split; auto. exists w. split; auto.
        replace (Z.to_nat (c - k)) with (S (Z.to_nat (c - (k + 1)))) in E
          by lia.
        exact E. }
    simpl adjacent_from. destruct (Z.eqb_spec d 0) as [Hd|Hd]; simpl negb;
      cbv iota.
    + rewrite Hrest. split.
      * intros (Hc & H). split; [lia|exact H].
      * intros (Hc & w & E & Hw). split; [|eauto].
        destruct (Z.eq_dec c k) as [->|Hne]; [|lia].
        replace (Z.to_nat (k - k)) with O in E by lia. simpl in E. congruence.
    + simpl. rewrite Hrest. split.
      * intros [<-|(Hc & H)].
        -- split; [lia|]. exists d.
           replace (Z.to_nat (k - k)) with O by lia. auto.
        -- split; [lia|exact H].
      * intros (Hc & H). destruct (Z.eq_dec c k) as [->|Hne]; auto.
        right. split; [lia|exact H].
Qed.

(** Leading to a vertex along edges is having a path to it. *)
Lemma reach_reachable (g : DirectedGraph) (a b : Z) :
  reach (arc g) a b <-> reachable g a b.
Proof.
  split.
  - induction 1 as [|b c _ (d & Hd) (w & Hw)].
    + exists 0. constructor.
    + exists (d + w). eapply path_edge; eauto.
  - intros (d & H). induction H as [|b c d w _ IH He].
    + constructor.
    + eapply reach_next; eauto. exists w. exact He.
Qed.

Lemma NoDup_vertices (n : nat) : NoDup (vertices n).
Proof.
  unfold vertices. apply Finite.Injective_map_NoDup.
  - intros a b. apply Nat2Z.inj.
  - apply seq_NoDup.
Qed.

Section Graph.

Variable g : DirectedGraph.
Hypothesis Hsq : square g.

(** The neighbours of [v] in the order of the row of [v]. *)
Let out (v : Z) : list Z :=
  adjacent_from (nth (Z.to_nat v) (adj_matrix g) []) 0.

Lemma get_row (v : Z) :
  In v (vertices (v_count g)) ->
  get (adj_matrix g) v = Ret (nth (Z.to_nat v) (adj_matrix g) []) /\
  nth_error (adj_matrix g) (Z.to_nat v) = Some (nth (Z.to_nat v) (adj_matrix g) []).
Proof.
  intros Hv. apply vertices_In in Hv.
  destruct (get_nonneg (adj_matrix g) v) as (row & E & Hrow);
    [destruct Hsq as [-> _]; lia|].
  rewrite (nth_error_nth _ _ _ Hrow). auto.
Qed.

Lemma In_out (u x : Z) :
  In u (vertices (v_count g)) -> (In x (out u) <-> arc g u x).
Proof.
  intros Hu. destruct (get_row u Hu) as [_ Hrow].
  apply vertices_In in Hu. unfold out.
  rewrite In_adjacent_from by lia.
  rewrite (arc_row g u x _ (proj1 Hu) Hrow). rewrite Z.sub_0_r. tauto.
Qed.

Lemma out_in_range (u : Z) :
  In u (vertices (v_count g)) -> incl (out u) (vertices (v_count g)).
Proof.
  intros Hu x Hx. apply In_out in Hx; auto. apply vertices_In.
  apply (arc_in_range g u x Hsq Hx).
Qed.

Lemma leb_Z_total (a b : Z) : (a <=? b) = true \/ (b <=? a) = true.
Proof. rewrite !Z.leb_le. lia. Qed.

Lemma leb_Z_trans (a b c : Z) :
  (a <=? b) = true -> (b <=? c) = true -> (a <=? c) = true.
Proof. rewrite !Z.leb_le. lia. Qed.

Lemma geb_Z_total (a b : Z) : (b <=? a) = true \/ (a <=? b) = true.
Proof. rewrite !Z.leb_le. lia. Qed.

Lemma geb_Z_trans (a b c : Z) :
  (b <=? a) = true -> (c <=? b) = true -> (c <=? a) = true.
Proof. rewrite !Z.leb_le. lia. Qed.

Lemma sorted_desc (l : list Z) :
  StronglySorted (fun a b => (b <=? a) = true) (sort_reverse Z.leb l).
Proof.
  unfold sort_reverse. apply (sort_sorted Z (fun a b => b <=? a)).
  - intros a b. apply geb_Z_total.
  - intros a b c. apply geb_Z_trans.
Qed.

Lemma sorted_asc (l : list Z) :
  StronglySorted (fun a b => (a <=? b) = true) (sort Z.leb l).
Proof.
  apply (sort_sorted Z Z.leb).
  - intros a b. apply leb_Z_total.
  - intros a b c. apply leb_Z_trans.
Qed.

(** [dfs(v_start)] *)
Lemma dfs_finished (v_start : Z) :
  In v_start (vertices (v_count g)) ->
  exists fuel0 R,
    (forall fuel, (fuel0 <= fuel)%nat -> dfs fuel g v_start None = Ret R) /\
    NoDup R /\ (exists S, R = v_start :: S) /\
    (forall w, In w R <-> reach (arc g) v_start w) /\
    depth_first (arc g) Z.lt R.
Proof.
  intros Hv.
  set (temp := fun v => sort_reverse Z.leb (out v)).
  set (U := vertices (v_count g)).
  set (loop := fun fuel s R => dfs_loop fuel g None s R).
  assert (Hclosed : forall u, In u U -> incl (temp u) U).
  { intros u Hu x Hx. unfold temp, sort_reverse in Hx.
    apply In_sort in Hx. now apply (out_in_range u). }
  assert (Hnbr : forall u x, In u U -> (In x (temp u) <-> arc g u x)).
  { intros u x Hu. unfold temp, sort_reverse. rewrite In_sort.
    now apply In_out. }
  assert (Hdone : forall f R, loop (S f) [] R = Ret R) by reflexivity.
  assert (Hskip : forall f s x R, In x R ->
            loop (S f) (s ++ [x]) R = loop f s R).
  { intros f s x R Hx. unfold loop. simpl. rewrite pop_last_snoc.
    apply mem_In_Z in Hx. rewrite Hx. reflexivity. }
  assert (Hvisit : forall f s x R, In x U -> ~ In x R ->
            loop (S f) (s ++ [x]) R = loop f (s ++ temp x) (R ++ [x])).
  { intros f s x R Hx Hn. unfold loop. simpl. rewrite pop_last_snoc.
    apply mem_false_Z in Hn. rewrite Hn. simpl.
    destruct (get_row x Hx) as [-> _]. reflexivity. }
  assert (Hasc : forall u a1 x a2 y, In u U ->
            rev (temp u) = a1 ++ x :: a2 -> In y (x :: a2) -> ~ y < x).
  { intros u a1 x a2 y Hu E [<-|Hy]; [lia|].
    pose proof (sorted_rev _ _ (sorted_desc (out u))) as Hs.
    fold (temp u) in Hs. rewrite E in Hs.
    pose proof (sorted_after _ _ _ _ _ Hs Hy) as H. simpl in H.
    apply Z.leb_le in H. lia. }
  destruct (stack_search_spec Z Z.eqb Z.eqb_eq temp (arc g) Z.lt U
              (NoDup_vertices _) Hclosed Hnbr loop Hdone v_start
              Hskip Hvisit Hasc Hv) as (R & Hrun & Hrest).
  exists (S (weight Z.eqb temp U [])), R. split; auto.
  intros fuel Hf. unfold dfs. apply vertices_In in Hv.
  destruct (Z.gtb_spec v_start (len_matrix g)) as [Hgt|_].
  - unfold len_matrix in Hgt. destruct Hsq as [Hl _]. lia.
  - apply Hrun. lia.
Qed.

(** [bfs(v_start)] *)
Lemma bfs_finished (v_start : Z) :
  In v_start (vertices (v_count g)) ->
  exists fuel0 R,
    (forall fuel, (fuel0 <= fuel)%nat -> bfs fuel g v_start None = Ret R) /\
    NoDup R /\ (exists S, R = v_start :: S) /\
    (forall w, In w R <-> reach (arc g) v_start w) /\
    breadth_first (arc g) Z.lt R.
Proof.
  intros Hv.
  set (temp := fun v => sort Z.leb (out v)).
  set (U := vertices (v_count g)).
  set (loop := fun fuel q R => bfs_loop fuel g None q R).
  assert (Hclosed : forall u, In u U -> incl (temp u) U).
  { intros u Hu x Hx. unfold temp in Hx.
    apply In_sort in Hx. now apply (out_in_range u). }
  assert (Hnbr : forall u x, In u U -> (In x (temp u) <-> arc g u x)).
  { intros u x Hu. unfold temp. rewrite In_sort. now apply In_out. }
  assert (Hdone : forall f R, loop (S f) [] R = Ret R) by reflexivity.
  assert (Hskip : forall f q x R, In x R ->
            loop (S f) (x :: q) R = loop f q R).
  { intros f q x R Hx. unfold loop. simpl.
    apply mem_In_Z in Hx. rewrite Hx. reflexivity. }
  assert (Hvisit : forall f q x R, In x U -> ~ In x R ->
            loop (S f) (x :: q) R = loop f (q ++ temp x) (R ++ [x])).
  { intros f q x R Hx Hn. unfold loop. simpl.
    apply mem_false_Z in Hn. rewrite Hn. simpl.
    destruct (get_row x Hx) as [-> _]. reflexivity. }
  assert (Hasc : forall u a1 x a2 y, In u U ->
            temp u = a1 ++ x :: a2 -> In y (x :: a2) -> ~ y < x).
  { intros u a1 x a2 y Hu E [<-|Hy]; [lia|].
    pose proof (sorted_asc (out u)) as Hs.
    fold (temp u) in Hs. rewrite E in Hs.
    pose proof (sorted_after _ _ _ _ _ Hs Hy) as H. simpl in H.
    apply Z.leb_le in H. lia. }
  destruct (queue_search_spec Z Z.eqb Z.eqb_eq temp (arc g) Z.lt U
              (NoDup_vertices _) Hclosed Hnbr loop Hdone v_start
              Hskip Hvisit Hasc Hv) as (R & Hrun & Hrest).
  exists (S (weight Z.eqb temp U [])), R. split; auto.
  intros fuel Hf. unfold bfs. apply vertices_In in Hv.
  destruct (Z.gtb_spec v_start (len_matrix g)) as [Hgt|_].
  - unfold len_matrix in Hgt. destruct Hsq as [Hl _]. lia.
  - apply Hrun. lia.
Qed.

End Graph.

End DirectedSearchFacts.

(** ** UndirectedGraph: [dfs] and [bfs] *)

Module UndirectedSearchFacts.
Import Py PyFacts Undirected UndirectedSpec UndirectedFacts.
Import SearchOrder SearchFacts DirectedSearchFacts.

(** *** The order of the labels *)

Lemma ascii_compare_refl (a : ascii) : Ascii.compare a a = Eq.
Proof. unfold Ascii.compare. apply N.compare_refl. Qed.

Lemma compare_not_Gt_trans (a b c : string) :
  String.compare a b <> Gt -> String.compare b c <> Gt ->
  String.compare a c <> Gt.
Proof.
  revert b c. induction a as [|x a IH]; intros [|y b] [|z c]; simpl;
    try congruence.
  unfold Ascii.compare.
  destruct (N.compare_spec (N_of_ascii x) (N_of_ascii y)) as [Exy|Hxy|Hxy];
    destruct (N.compare_spec (N_of_ascii y) (N_of_ascii z)) as [Eyz|Hyz|Hyz];
    try congruence; intros Hab Hbc.
  - rewrite Exy, Eyz, N.compare_refl. eapply IH; eauto.
  - rewrite Exy. apply N.compare_lt_iff in Hyz. rewrite Hyz. discriminate.
  - rewrite <- Eyz. apply N.compare_lt_iff in Hxy. rewrite Hxy. discriminate.
  - assert (H : (N_of_ascii x < N_of_ascii z)%N) by lia.
    apply N.compare_lt_iff in H. rewrite H. discriminate.
Qed.

Lemma leb_string_trans (a b c : string) :
  String.leb a b = true -> String.leb b c = true -> String.leb a c = true.
Proof.
  unfold String.leb. intros Hab Hbc.
  pose proof (compare_not_Gt_trans a b c) as H.
  destruct (String.compare a b); destruct (String.compare b c);
    destruct (String.compare a c); try discriminate; auto;
    exfalso; apply H; congruence.
Qed.

Lemma leb_not_ltb (x y : string) :
  String.leb x y = true -> String.ltb y x <> true.
Proof.
  unfold String.leb, String.ltb. rewrite (String.compare_antisym y x).
  destruct (String.compare x y); simpl; congruence.
Qed.

Lemma geb_string_total (a b : string) :
  String.leb b a = true \/ String.leb a b = true.
Proof. apply String.leb_total. Qed.

Lemma geb_string_trans (a b c : string) :
  String.leb b a = true -> String.leb c b = true -> String.leb c a = true.
Proof. intros H1 H2. eapply leb_string_trans; eauto. Qed.

Lemma sorted_desc_string (l : list string) :
  StronglySorted (fun a b => String.leb b a = true) (sort_reverse String.leb l).
Proof.
  unfold sort_reverse. apply (sort_sorted string (fun a b => String.leb b a)).
  - intros a b. apply geb_string_total.
  - intros a b c. apply geb_string_trans.
Qed.

Lemma sorted_asc_string (l : list string) :
  StronglySorted (fun a b => String.leb a b = true) (sort String.leb l).
Proof.
  apply (sort_sorted string String.leb).
  - apply String.leb_total.
  - apply leb_string_trans.
Qed.

Section Graph.

Variable g : UndirectedGraph.
Hypothesis Hwf : wf g.

(** The adjacency list of [v]. *)
Let adj (v : string) : list string :=
  match get v g with
  | Some l => l
  | None => []
  end.

Lemma In_adj (u x : string) : In x (adj u) <-> adjacent g u x.
Proof.
  unfold adj, adjacent. destruct (get u g) as [l|].
  - split; [eauto|]. intros (l' & E & H). congruence.
  - split; [intros []|]. intros (l' & E & _). discriminate.
Qed.

Lemma adj_keys (u : string) : incl (adj u) (get_vertices g).
Proof.
  intros x Hx. apply In_adj in Hx. apply has_key_In.
  eapply wf_closed; eauto.
Qed.

Lemma getitem_adj (x : string) :
  In x (get_vertices g) -> getitem x g = Ret (adj x).
Proof.
  intros Hx. apply has_key_In, has_key_true in Hx. destruct Hx as (l & E).
  unfold getitem, adj. now rewrite E.
Qed.

(** [dfs(v_start)] *)
Lemma ud_dfs_finished (v_start : string) :
  has_key v_start g = true ->
  exists fuel0 R,
    (forall fuel, (fuel0 <= fuel)%nat -> dfs fuel g v_start None = Ret R) /\
    NoDup R /\ (exists S, R = v_start :: S) /\
    (forall w, In w R <-> reach (adjacent g) v_start w) /\
    depth_first (adjacent g) (fun a b => String.ltb a b = true) R.
Proof.
  intros Hv.
  set (temp := fun v => sort_reverse String.leb (adj v)).
  set (U := get_vertices g).
  set (loop := fun fuel s R => dfs_loop fuel g None s R).
  assert (Hclosed : forall u, In u U -> incl (temp u) U).
  { intros u Hu x Hx. unfold temp, sort_reverse in Hx.
    apply In_sort in Hx. now apply (adj_keys u). }
  assert (Hnbr : forall u x, In u U -> (In x (temp u) <-> adjacent g u x)).
  { intros u x Hu. unfold temp, sort_reverse. rewrite In_sort.
    apply In_adj. }
  assert (Hdone : forall f R, loop (S f) [] R = Ret R) by reflexivity.
  assert (Hskip : forall f s x R, In x R ->
            loop (S f) (s ++ [x]) R = loop f s R).
  { intros f s x R Hx. unfold loop. simpl. rewrite pop_last_snoc.
    apply mem_In_string in Hx. rewrite Hx. reflexivity. }
  assert (Hvisit : forall f s x R, In x U -> ~ In x R ->
            loop (S f) (s ++ [x]) R = loop f (s ++ temp x) (R ++ [x])).
  { intros f s x R Hx Hn. unfold loop. simpl. rewrite pop_last_snoc.
    apply mem_false_string in Hn. rewrite Hn. simpl.
    rewrite (getitem_adj x Hx). reflexivity. }
  assert (Hasc : forall u a1 x a2 y, In u U ->
            rev (temp u) = a1 ++ x :: a2 -> In y (x :: a2) ->
            String.ltb y x <> true).
  { intros u a1 x a2 y Hu E Hy. apply leb_not_ltb.
    destruct Hy as [<-|Hy].
    - destruct (String.leb_total x x); auto.
    - pose proof (sorted_rev _ _ (sorted_desc_string (adj u))) as Hs.
      fold (temp u) in Hs. rewrite E in Hs.
      exact (sorted_after _ _ _ _ _ Hs Hy). }
  destruct (stack_search_spec string String.eqb String.eqb_eq temp
              (adjacent g) (fun a b => String.ltb a b = true) U
              (wf_keys g Hwf) Hclosed Hnbr loop Hdone v_start
              Hskip Hvisit Hasc (proj1 (has_key_In _ _) Hv))
    as (R & Hrun & Hrest).
  exists (S (weight String.eqb temp U [])), R. split; auto.
  intros fuel Hf. unfold dfs. rewrite Hv. simpl. apply Hrun. lia.
Qed.

(** [bfs(v_start)] *)
Lemma ud_bfs_finished (v_start : string) :
  has_key v_start g = true ->
  exists fuel0 R,
    (forall fuel, (fuel0 <= fuel)%nat -> bfs fuel g v_start None = Ret R) /\
    NoDup R /\ (exists S, R = v_start :: S) /\
    (forall w, In w R <-> reach (adjacent g) v_start w) /\
    breadth_first (adjacent g) (fun a b => String.ltb a b = true) R.
Proof.
  intros Hv.
  set (temp := fun v => sort String.leb (adj v)).
  set (U := get_vertices g).
  set (loop := fun fuel q R => bfs_loop fuel g None q R).
  assert (Hclosed : forall u, In u U -> incl (temp u) U).
  { intros u Hu x Hx. unfold temp in Hx.
    apply In_sort in Hx. now apply (adj_keys u). }
  assert (Hnbr : forall u x, In u U -> (In x (temp u) <-> adjacent g u x)).
  { intros u x Hu. unfold temp. rewrite In_sort. apply In_adj. }
  assert (Hdone : forall f R, loop (S f) [] R = Ret R) by reflexivity.
  assert (Hskip : forall f q x R, In x R ->
            loop (S f) (x :: q) R = loop f q R).
  { intros f q x R Hx. unfold loop. simpl.
    apply mem_In_string in Hx. rewrite Hx. reflexivity. }
  assert (Hvisit : forall f q x R, In x U -> ~ In x R ->
            loop (S f) (x :: q) R = loop f (q ++ temp x) (R ++ [x])).
  { intros f q x R Hx Hn. unfold loop. simpl.
    apply mem_false_string in Hn. rewrite Hn. simpl.
    rewrite (getitem_adj x Hx). reflexivity. }
  assert (Hasc : forall u a1 x a2 y, In u U ->
            temp u = a1 ++ x :: a2 -> In y (x :: a2) ->
            String.ltb y x <> true).
  { intros u a1 x a2 y Hu E Hy. apply leb_not_ltb.
    destruct Hy as [<-|Hy].
    - destruct (String.leb_total x x); auto.
    - pose proof (sorted_asc_string (adj u)) as Hs.
      fold (temp u) in Hs. rewrite E in Hs.
      exact (sorted_after _ _ _ _ _ Hs Hy). }
  destruct (queue_search_spec string String.eqb String.eqb_eq temp
              (adjacent g) (fun a b => String.ltb a b = true) U
              (wf_keys g Hwf) Hclosed Hnbr loop Hdone v_start
              Hskip Hvisit Hasc (proj1 (has_key_In _ _) Hv))
    as (R & Hrun & Hrest).
  exists (S (weight String.eqb temp U [])), R. split; auto.
  intros fuel Hf. unfold bfs. rewrite Hv. simpl. apply Hrun. lia.
Qed.

End Graph.

End UndirectedSearchFacts.

(** ** [dfs] and [bfs] of both graphs *)

Module SearchTheorems.
Import SearchOrder.

(** C8: from a valid start and without [v_end], [dfs] and [bfs] of a
    directed graph with a square matrix and of a well-formed undirected
    graph return; the list returned holds exactly the vertices that the
    start leads to, each once; and every vertex after the first is the
    least neighbour not yet visited (by number, by label) of the vertex
    visited last ([dfs]) or first ([bfs]) among those that have one. *)
Theorem search_visits_reachable :
  (forall (g : Directed.DirectedGraph) (v_start : Z),
     Directed.square g -> 0 <= v_start < Z.of_nat (Directed.v_count g) ->
     (exists fuel0 R,
        (forall fuel, (fuel0 <= fuel)%nat ->
                      Directed.dfs fuel g v_start None = Ret R) /\
        NoDup R /\
        (forall w, In w R <-> reach (DirectedCycles.arc g) v_start w) /\
        depth_first (DirectedCycles.arc g) Z.lt R) /\
     (exists fuel0 R,
        (forall fuel, (fuel0 <= fuel)%nat ->
                      Directed.bfs fuel g v_start None = Ret R) /\
        NoDup R /\
        (forall w, In w R <-> reach (DirectedCycles.arc g) v_start w) /\
        breadth_first (DirectedCycles.arc g) Z.lt R)) /\
  (forall (g : Undirected.UndirectedGraph) (v_start : string),
     UndirectedSpec.wf g -> Undirected.has_key v_start g = true ->
     (exists fuel0 R,
        (forall fuel, (fuel0 <= fuel)%nat ->
                      Undirected.dfs fuel g v_start None = Ret R) /\
        NoDup R /\
        (forall w, In w R <-> reach (UndirectedSpec.adjacent g) v_start w) /\
        depth_first (UndirectedSpec.adjacent g)
                    (fun a b => String.ltb a b = true) R) /\
     (exists fuel0 R,
        (forall fuel, (fuel0 <= fuel)%nat ->
                      Undirected.bfs fuel g v_start None = Ret R) /\
        NoDup R /\
        (forall w, In w R <-> reach (UndirectedSpec.adjacent g) v_start w) /\
        breadth_first (UndirectedSpec.adjacent g)
                      (fun a b => String.ltb a b = true) R)).
Proof.
  split.
  - intros g v_start Hsq Hv.
    apply DirectedCycleFacts.vertices_In in Hv. split.
    + destruct (DirectedSearchFacts.dfs_finished g Hsq v_start Hv)
        as (fuel0 & R & H1 & H2 & _ & H3 & H4). eauto 7.
    + destruct (DirectedSearchFacts.bfs_finished g Hsq v_start Hv)
        as (fuel0 & R & H1 & H2 & _ & H3 & H4). eauto 7.
  - intros g v_start Hwf Hv. split.
    + destruct (UndirectedSearchFacts.ud_dfs_finished g Hwf v_start Hv)
        as (fuel0 & R & H1 & H2 & _ & H3 & H4). eauto 7.
    + destruct (UndirectedSearchFacts.ud_bfs_finished g Hwf v_start Hv)
        as (fuel0 & R & H1 & H2 & _ & H3 & H4). eauto 7.
Qed.

Lemma search_visits_reachable_witness :
  ((exists fuel0 R,
      (forall fuel, (fuel0 <= fuel)%nat ->
                    Directed.dfs fuel DirectedPaths.g_example 0 None = Ret R) /\
      NoDup R /\
      (forall w, In w R <->
                 reach (DirectedCycles.arc DirectedPaths.g_example) 0 w) /\
      depth_first (DirectedCycles.arc DirectedPaths.g_example) Z.lt R) /\
   (exists fuel0 R,
      (forall fuel, (fuel0 <= fuel)%nat ->
                    Directed.bfs fuel DirectedPaths.g_example 0 None = Ret R) /\
      NoDup R /\
      (forall w, In w R <->
                 reach (DirectedCycles.arc DirectedPaths.g_example) 0 w) /\
      breadth_first (DirectedCycles.arc DirectedPaths.g_example) Z.lt R)) /\
  ((exists fuel0 R,
      (forall fuel, (fuel0 <= fuel)%nat ->
         Undirected.dfs fuel UndirectedCycles.g_triangle "A"%string None = Ret R) /\
      NoDup R /\
      (forall w, In w R <->
         reach (UndirectedSpec.adjacent UndirectedCycles.g_triangle) "A"%string w) /\
      depth_first (UndirectedSpec.adjacent UndirectedCycles.g_triangle)
                  (fun a b => String.ltb a b = true) R) /\
   (exists fuel0 R,
      (forall fuel, (fuel0 <= fuel)%nat ->
         Undirected.bfs fuel UndirectedCycles.g_triangle "A"%string None = Ret R) /\
      NoDup R /\
      (forall w, In w R <->
         reach (UndirectedSpec.adjacent UndirectedCycles.g_triangle) "A"%string w) /\
      breadth_first (UndirectedSpec.adjacent UndirectedCycles.g_triangle)
                    (fun a b => String.ltb a b = true) R)).
Proof.
  split.
  - apply (proj1 search_visits_reachable DirectedPaths.g_example 0).
    + split; [reflexivity|]. repeat constructor.
    + simpl. lia.
  - apply (proj2 search_visits_reachable UndirectedCycles.g_triangle "A"%string).
    + exact UndirectedCycleFacts.wf_g_triangle.
    + reflexivity.
Defined.

End SearchTheorems.

(** ** DirectedGraph: vertices, edges and paths *)

Module DirectedQueryFacts.
Import Py PyFacts Directed DirectedSpec DirectedFacts DirectedPaths.
Import DijkstraFacts DirectedCycles DirectedCycleFacts DirectedQueries.

(** *** [get_edges] *)

Lemma In_row_edges (row : list Z) (v k s d w : Z) :
  0 <= k ->
  (In (s, d, w) (row_edges row v k) <->
   s = v /\ k <= d /\ nth_error row (Z.to_nat (d - k)) = Some w /\ w <> 0).
Proof.
  revert k. induction row as [|u rest IH]; intros k Hk.
  - simpl. split; [tauto|]. intros (_ & _ & E & _).
    destruct (Z.to_nat (d - k)); discriminate.
  - assert (Hrest : In (s, d, w) (row_edges rest v (k + 1)) <->
              s = v /\ k + 1 <= d /\
              nth_error (u :: rest) (Z.to_nat (d - k)) = Some w /\ w <> 0).
    { rewrite IH by lia. split; intros (Hs & Hd & E & Hw).
      - repeat split; auto.
        replace (Z.to_nat (d - k)) with (S (Z.to_nat (d - (k + 1)))) by lia.
        exact E.
      - repeat split; auto.
        replace (Z.to_nat (d - k)) with (S (Z.to_nat (d - (k + 1)))) in E
          by lia.
        exact E. }
    simpl row_edges. destruct (Z.eqb_spec u 0) as [Hu|Hu]; simpl negb;
      cbv iota.
    + rewrite Hrest. split.
      * intros (-> & Hd & H). split; auto. split; [lia|exact H].
      * intros (-> & Hd & E & Hw). split; auto.
        destruct (Z.eq_dec d k) as [->|Hne]; [|split; [lia|auto]].
        replace (Z.to_nat (k - k)) with O in E by lia. simpl in E. congruence.
    + simpl. rewrite Hrest. split.
      * intros [E|(-> & Hd & H)].
        -- inversion E; subst. replace (Z.to_nat (d - d)) with O by lia.
           simpl. repeat split; auto; lia.
        -- split; auto. split; [lia|exact H].
      * intros (-> & Hd & E & Hw).
        destruct (Z.eq_dec d k) as [->|Hne].
        -- left. replace (Z.to_nat (k - k)) with O in E by lia. simpl in E.
           congruence.
        -- right. split; auto. split; [lia|auto].
Qed.

Lemma In_edges_from (rows : list (list Z)) (k s d w : Z) :
  0 <= k ->
  (In (s, d, w) (edges_from rows k) <->
   k <= s /\ 0 <= d /\
   exists row, nth_error rows (Z.to_nat (s - k)) = Some row /\
               nth_error row (Z.to_nat d) = Some w /\ w <> 0).
Proof.
  revert k. induction rows as [|r rest IH]; intros k Hk.
  - simpl. split; [tauto|]. intros (_ & _ & row & E & _).
    destruct (Z.to_nat (s - k)); discriminate.
  - simpl edges_from. rewrite in_app_iff, In_row_edges, IH by lia.
    rewrite Z.sub_0_r. split.
    + intros [(-> & Hd & E & Hw)|(Hs & Hd & row & E & H)].
      * repeat split; try lia. exists r.
        replace (Z.to_nat (k - k)) with O by lia. simpl. auto.
      * repeat split; try lia. exists row. split; auto.
        replace (Z.to_nat (s - k)) with (S (Z.to_nat (s - (k + 1)))) by lia.
        exact E.
    + intros (Hs & Hd & row & E & Ew & Hw).
      destruct (Z.eq_dec s k) as [->|Hne].
      * left. replace (Z.to_nat (k - k)) with O in E by lia. simpl in E.
        inversion E; subst. auto.
      * right. repeat split; try lia. exists row. split; auto.
        replace (Z.to_nat (s - k)) with (S (Z.to_nat (s - (k + 1)))) in E
          by lia.
        exact E.
Qed.

Lemma sorted_app {A : Type} (R : A -> A -> Prop) (l1 l2 : list A) :
  StronglySorted R l1 -> StronglySorted R l2 ->
  (forall x y, In x l1 -> In y l2 -> R x y) ->
  StronglySorted R (l1 ++ l2).
Proof.
  induction 1 as [|h t Hs IH Hf]; simpl; intros H2 H; auto.
  constructor.
  - apply IH; auto.
  - apply Forall_app. split; auto. rewrite Forall_forall. intros y Hy. auto.
Qed.

Lemma row_edges_sorted (row : list Z) (v k : Z) :
  0 <= k -> StronglySorted row_major (row_edges row v k).
Proof.
  revert k. induction row as [|u rest IH]; intros k Hk; simpl; [constructor|].
  destruct (negb (u =? 0)); [|apply IH; lia].
  constructor; [apply IH; lia|]. rewrite Forall_forall.
  intros [[s d] w] Hin. apply In_row_edges in Hin; [|lia].
  destruct Hin as (-> & Hd & _). right. simpl. lia.
Qed.

Lemma edges_from_sorted (rows : list (list Z)) (k : Z) :
  0 <= k -> StronglySorted row_major (edges_from rows k).
Proof.
  revert k. induction rows as [|r rest IH]; intros k Hk; simpl; [constructor|].
  apply sorted_app.
  - apply row_edges_sorted. lia.
  - apply IH. lia.
  - intros [[s1 d1] w1] [[s2 d2] w2] H1 H2.
    apply In_row_edges in H1; [|lia]. apply In_edges_from in H2; [|lia].
    left. simpl. lia.
Qed.

Lemma In_get_edges (g : DirectedGraph) (s d w : Z) :
  In (s, d, w) (get_edges g) <-> edge g s d w.
Proof.
  unfold get_edges. rewrite In_edges_from by lia.
  rewrite Z.sub_0_r. split.
  - intros (Hs & Hd & row & Er & Ew & Hw). eapply entry_edge; eauto.
  - intros He. destruct (edge_entry _ _ _ _ He) as (Hs & Hd & Hw & row & H).
    repeat split; auto. exists row. tauto.
Qed.

(** X1: [get_edges()] lists exactly the triples [(src, dst, w)] with
    [M[src][dst] == w] and [w != 0], in row-major order, so no ordered pair
    of vertices occurs twice. *)
Theorem get_edges_spec (g : DirectedGraph) :
  (forall s d w, In (s, d, w) (get_edges g) <-> edge g s d w) /\
  StronglySorted row_major (get_edges g).
Proof.
  split.
  - apply In_get_edges.
  - apply edges_from_sorted. lia.
Qed.

(** *** [add_vertex] *)

Lemma row_edges_snoc_zero (row : list Z) (v k : Z) :
  row_edges (row ++ [0]) v k = row_edges row v k.
Proof.
  revert k. induction row as [|u rest IH]; intros k; simpl; auto.
  rewrite IH. reflexivity.
Qed.

Lemma row_edges_zeros (n : nat) (v k : Z) : row_edges (repeat 0 n) v k = [].
Proof.
  revert k. induction n as [|n IH]; intros k; simpl; auto.
Qed.

Lemma edges_from_app (l1 l2 : list (list Z)) (k : Z) :
  edges_from (l1 ++ l2) k =
  edges_from l1 k ++ edges_from l2 (k + Z.of_nat (length l1)).
Proof.
  revert k. induction l1 as [|r l1 IH]; intros k.
  - simpl. now rewrite Z.add_0_r.
  - simpl app. simpl edges_from. rewrite IH, <- app_assoc.
    do 3 f_equal. simpl length. lia.
Qed.

Lemma edges_from_snoc_zero (rows : list (list Z)) (k : Z) :
  edges_from (List.map (fun vertex => vertex ++ [0]) rows) k = edges_from rows k.
Proof.
  revert k. induction rows as [|r rows IH]; intros k; simpl; auto.
  now rewrite row_edges_snoc_zero, IH.
Qed.

Lemma get_edges_add_vertex (g : DirectedGraph) :
  get_edges (fst (add_vertex g)) = get_edges g.
Proof.
  unfold get_edges. simpl adj_matrix.
  rewrite edges_from_app, edges_from_snoc_zero. simpl.
  now rewrite row_edges_zeros, !app_nil_r.
Qed.

(** X2: [add_vertex()] returns the new number of vertices; the id of the
    new vertex is the old number, it is appended to [get_vertices()], and
    [get_edges()] is what it was. *)
Theorem add_vertex_spec (g : DirectedGraph) :
  snd (add_vertex g) = S (v_count g) /\
  v_count (fst (add_vertex g)) = snd (add_vertex g) /\
  get_vertices (fst (add_vertex g)) = get_vertices g ++ [Z.of_nat (v_count g)] /\
  get_edges (fst (add_vertex g)) = get_edges g.
Proof.
  split; [reflexivity|]. split; [reflexivity|]. split.
  - unfold get_vertices. simpl v_count. rewrite seq_S, map_app. reflexivity.
  - apply get_edges_add_vertex.
Qed.

(** *** [add_edge] and [remove_edge] *)

Lemma update_update {A : Type} (l : list A) (k : nat) (a b : A) :
  update (update l k a) k b = update l k b.
Proof.
  revert k. induction l as [|h t IH]; intros [|k]; simpl; auto.
  now rewrite IH.
Qed.

Lemma update_same {A : Type} (l : list A) (k : nat) (a : A) :
  nth_error l k = Some a -> update l k a = l.
Proof.
  revert k. induction l as [|h t IH]; intros [|k]; simpl; try discriminate.
  - intros E. inversion E. reflexivity.
  - intros E. now rewrite IH.
Qed.

Lemma set_entry_valid (g : DirectedGraph) (s d w : Z) :
  square g ->
  0 <= s < Z.of_nat (v_count g) -> 0 <= d < Z.of_nat (v_count g) ->
  exists row,
    nth_error (adj_matrix g) (Z.to_nat s) = Some row /\
    length row = v_count g /\
    set_entry g s d w =
    Ret (mkDirected (v_count g)
           (update (adj_matrix g) (Z.to_nat s) (update row (Z.to_nat d) w))).
Proof.
  intros [Hl Hr] Hs Hd. unfold set_entry.
  destruct (get_nonneg (adj_matrix g) s) as (row & -> & Hrow); [lia|].
  assert (Hlen : length row = v_count g).
  { rewrite Forall_forall in Hr. apply Hr. eapply nth_error_In; eauto. }
  exists row. split; auto. split; auto. simpl.
  rewrite set_nonneg by lia. simpl. rewrite set_nonneg by lia. reflexivity.
Qed.

(** The edges after [M[s][d] = w] on valid ids. *)
Lemma set_entry_edges (g : DirectedGraph) (s d w : Z) :
  square g ->
  0 <= s < Z.of_nat (v_count g) -> 0 <= d < Z.of_nat (v_count g) ->
  exists g',
    set_entry g s d w = Ret g' /\ square g' /\ v_count g' = v_count g /\
    forall a b x,
      In (a, b, x) (get_edges g') <->
      ((a, b, x) = (s, d, w) /\ w <> 0) \/
      ((a, b) <> (s, d) /\ In (a, b, x) (get_edges g)).
Proof.
  intros Hsq Hs Hd.
  destruct (set_entry_valid g s d w Hsq Hs Hd) as (row & Hrow & Hlen & E).
  eexists. split; [exact E|]. split; [eapply square_set_entry; eauto|].
  split; [reflexivity|]. intros a b x.
  rewrite !In_get_edges.
  assert (Hentry : forall i j,
            entry (mkDirected (v_count g)
                     (update (adj_matrix g) (Z.to_nat s)
                        (update row (Z.to_nat d) w))) i j =
            if Nat.eqb i (Z.to_nat s) && Nat.eqb j (Z.to_nat d) then Some w
            else entry g i j).
  { intros i j. unfold entry. simpl.
    assert (Z.to_nat s < length (adj_matrix g))%nat
      by (apply nth_error_Some; congruence).
    destruct (Nat.eqb_spec i (Z.to_nat s)) as [->|Hi]; simpl.
    - rewrite nth_update_same by assumption.
      destruct (Nat.eqb_spec j (Z.to_nat d)) as [->|Hj].
      + apply nth_update_same. lia.
      + rewrite nth_update_other by congruence. now rewrite Hrow.
    - rewrite nth_update_other by congruence. reflexivity. }
  unfold edge, weight. rewrite Hentry.
  destruct (Z.leb_spec 0 a); destruct (Z.leb_spec 0 b); simpl;
    try (split; [intros [? _]; discriminate|];
         intros [[E' _]|[_ [? _]]]; [inversion E'; lia|discriminate]).
  destruct (Nat.eqb_spec (Z.to_nat a) (Z.to_nat s)) as [Ea|Ea];
    destruct (Nat.eqb_spec (Z.to_nat b) (Z.to_nat d)) as [Eb|Eb]; simpl.
  - assert (a = s) by lia. assert (b = d) by lia. subst a b. split.
    + intros [E' Hx]. inversion E'; subst. auto.
    + intros [[E' Hw]|[Hne _]]; [|congruence]. inversion E'; subst. auto.
  - split.
    + intros H'. right. split; auto. intros E'. inversion E'; subst. lia.
    + intros [[E' _]|[_ H']]; auto. inversion E'; subst. lia.
  - split.
    + intros H'. right. split; auto. intros E'. inversion E'; subst. lia.
    + intros [[E' _]|[_ H']]; auto. inversion E'; subst. lia.
  - split.
    + intros H'. right. split; auto. intros E'. inversion E'; subst. lia.
    + intros [[E' _]|[_ H']]; auto. inversion E'; subst. lia.
Qed.

Lemma add_edge_valid (g : DirectedGraph) (src dst w : Z) :
  square g ->
  0 <= src < Z.of_nat (v_count g) -> 0 <= dst < Z.of_nat (v_count g) ->
  src <> dst -> 0 <= w ->
  add_edge g src dst w = set_entry g src dst w.
Proof.
  intros Hsq Hs Hd Hne Hw. unfold add_edge, len_matrix.
  destruct Hsq as [-> _].
  destruct (Z.eqb_spec src dst); [lia|].
  destruct (Z.geb_spec w 0); [|lia].
  destruct (Z.gtb_spec (Z.of_nat (v_count g)) src); [|lia].
  destruct (Z.gtb_spec (Z.of_nat (v_count g)) dst); [|lia]. reflexivity.
Qed.

(** X3: [add_edge(src, dst, w)] between distinct valid vertices with
    [w >= 0] makes [(src, dst, w)] the only edge from [src] to [dst] in
    [get_edges()] (no such edge when [w == 0]) and leaves every other edge
    as it was. *)
Theorem add_edge_get_edges (g : DirectedGraph) (src dst w : Z) :
  square g ->
  0 <= src < Z.of_nat (v_count g) -> 0 <= dst < Z.of_nat (v_count g) ->
  src <> dst -> 0 <= w ->
  exists g',
    add_edge g src dst w = Ret g' /\ square g' /\ v_count g' = v_count g /\
    forall a b x,
      In (a, b, x) (get_edges g') <->
      ((a, b, x) = (src, dst, w) /\ w <> 0) \/
      ((a, b) <> (src, dst) /\ In (a, b, x) (get_edges g)).
Proof.
  intros Hsq Hs Hd Hne Hw.
  assert (E : add_edge g src dst w = set_entry g src dst w).
  { unfold add_edge, len_matrix. destruct Hsq as [-> _].
    destruct (Z.eqb_spec src dst); [lia|].
    destruct (Z.geb_spec w 0); [|lia].
    destruct (Z.gtb_spec (Z.of_nat (v_count g)) src); [|lia].
    destruct (Z.gtb_spec (Z.of_nat (v_count g)) dst); [|lia]. reflexivity. }
  rewrite E. now apply set_entry_edges.
Qed.

Lemma add_edge_get_edges_witness :
  exists g',
    add_edge g_example 2 0 7 = Ret g' /\ square g' /\
    v_count g' = v_count g_example /\
    forall a b x,
      In (a, b, x) (get_edges g') <->
      ((a, b, x) = (2, 0, 7) /\ 7 <> 0) \/
      ((a, b) <> (2, 0) /\ In (a, b, x) (get_edges g_example)).
Proof.
  apply (add_edge_get_edges g_example 2 0 7).
  - split; [reflexivity|]. repeat constructor.
  - simpl. lia.
  - simpl. lia.
  - lia.
  - lia.
Defined.

(** X4: [remove_edge(src, dst)] on valid vertices, equal ones included,
    takes every edge from [src] to [dst] out of [get_edges()] and leaves
    every other edge as it was. *)
Theorem remove_edge_get_edges (g : DirectedGraph) (src dst : Z) :
  square g ->
  0 <= src < Z.of_nat (v_count g) -> 0 <= dst < Z.of_nat (v_count g) ->
  exists g',
    remove_edge g src dst = Ret g' /\ square g' /\ v_count g' = v_count g /\
    forall a b x,
      In (a, b, x) (get_edges g') <->
      (a, b) <> (src, dst) /\ In (a, b, x) (get_edges g).
Proof.
  intros Hsq Hs Hd.
  rewrite remove_edge_accepted
    by (unfold len_matrix; destruct Hsq as [-> _]; lia).
  destruct (set_entry_edges g src dst 0 Hsq Hs Hd) as (g' & E & Hsq' & Hc & H).
  exists g'. split; auto. split; auto. split; auto.
  intros a b x. rewrite H. split.
  - intros [[_ H0]|H']; [congruence|exact H'].
  - auto.
Qed.

Lemma remove_edge_get_edges_witness :
  exists g',
    remove_edge g_example 0 1 = Ret g' /\ square g' /\
    v_count g' = v_count g_example /\
    forall a b x,
      In (a, b, x) (get_edges g') <->
      (a, b) <> (0, 1) /\ In (a, b, x) (get_edges g_example).
Proof.
  apply (remove_edge_get_edges g_example 0 1).
  - split; [reflexivity|]. repeat constructor.
  - simpl. lia.
  - simpl. lia.
Defined.

(** X5: a second [add_edge] on the same pair of vertices overwrites the
    first: the graph is the one the second call alone would give. *)
Theorem add_edge_overwrites (g : DirectedGraph) (src dst w1 w2 : Z) :
  square g ->
  0 <= src < Z.of_nat (v_count g) -> 0 <= dst < Z.of_nat (v_count g) ->
  src <> dst -> 0 <= w1 -> 0 <= w2 ->
  exists g1,
    add_edge g src dst w1 = Ret g1 /\
    add_edge g1 src dst w2 = add_edge g src dst w2.
Proof.
  intros Hsq Hs Hd Hne Hw1 Hw2.
  assert (E : forall h w, square h -> v_count h = v_count g -> 0 <= w ->
            add_edge h src dst w = set_entry h src dst w).
  { intros h w Hh Hc Hw. unfold add_edge, len_matrix.
    destruct Hh as [-> _]. rewrite Hc.
    destruct (Z.eqb_spec src dst); [lia|].
    destruct (Z.geb_spec w 0); [|lia].
    destruct (Z.gtb_spec (Z.of_nat (v_count g)) src); [|lia].
    destruct (Z.gtb_spec (Z.of_nat (v_count g)) dst); [|lia]. reflexivity. }
  destruct (set_entry_valid g src dst w1 Hsq Hs Hd) as (row & Hrow & Hlen & E1).
  destruct (set_entry_valid g src dst w2 Hsq Hs Hd) as (row2 & Hrow2 & _ & E2).
  assert (row2 = row) by congruence. subst row2.
  eexists. rewrite (E g w1 Hsq eq_refl Hw1). split; [exact E1|].
  rewrite (E g w2 Hsq eq_refl Hw2), E2.
  assert (Hsq1 : square (mkDirected (v_count g)
                   (update (adj_matrix g) (Z.to_nat src)
                      (update row (Z.to_nat dst) w1))))
    by (eapply square_set_entry; eauto).
  rewrite (E _ w2 Hsq1 eq_refl Hw2).
  destruct (set_entry_valid _ src dst w2 Hsq1 Hs Hd) as (r & Hr & _ & ->).
  simpl in Hr. simpl.
  assert (Z.to_nat src < length (adj_matrix g))%nat
    by (apply nth_error_Some; congruence).
  rewrite nth_update_same in Hr by assumption. inversion Hr; subst r.
  now rewrite !update_update.
Qed.

Lemma add_edge_overwrites_witness :
  exists g1,
    add_edge g_example 0 1 3 = Ret g1 /\
    add_edge g1 0 1 4 = add_edge g_example 0 1 4.
Proof.
  apply (add_edge_overwrites g_example 0 1 3 4).
  - split; [reflexivity|]. repeat constructor.
  - simpl. lia.
  - simpl. lia.
  - lia.
  - lia.
  - lia.
Defined.

(** X6: where there was no edge, [remove_edge] after [add_edge] gives the
    graph back as it was. *)
Theorem remove_edge_undoes_add_edge (g : DirectedGraph) (src dst w : Z) :
  square g ->
  0 <= src < Z.of_nat (v_count g) -> 0 <= dst < Z.of_nat (v_count g) ->
  src <> dst -> 0 <= w ->
  entry g (Z.to_nat src) (Z.to_nat dst) = Some 0 ->
  exists g1, add_edge g src dst w = Ret g1 /\ remove_edge g1 src dst = Ret g.
Proof.
  intros Hsq Hs Hd Hne Hw H0.
  destruct (set_entry_valid g src dst w Hsq Hs Hd) as (row & Hrow & Hlen & E1).
  assert (E : add_edge g src dst w = set_entry g src dst w).
  { unfold add_edge, len_matrix. destruct Hsq as [-> _].
    destruct (Z.eqb_spec src dst); [lia|].
    destruct (Z.geb_spec w 0); [|lia].
    destruct (Z.gtb_spec (Z.of_nat (v_count g)) src); [|lia].
    destruct (Z.gtb_spec (Z.of_nat (v_count g)) dst); [|lia]. reflexivity. }
  eexists. rewrite E. split; [exact E1|].
  assert (Hsq1 : square (mkDirected (v_count g)
                   (update (adj_matrix g) (Z.to_nat src)
                      (update row (Z.to_nat dst) w))))
    by (eapply square_set_entry; eauto).
  rewrite remove_edge_accepted
    by (unfold len_matrix; destruct Hsq1 as [-> _]; simpl; lia).
  destruct (set_entry_valid _ src dst 0 Hsq1 Hs Hd) as (r & Hr & _ & ->).
  simpl in Hr. simpl.
  assert (Z.to_nat src < length (adj_matrix g))%nat
    by (apply nth_error_Some; congruence).
  rewrite nth_update_same in Hr by assumption. inversion Hr; subst r.
  rewrite !update_update.
  unfold entry in H0. rewrite Hrow in H0.
  rewrite (update_same row _ _ H0), (update_same _ _ _ Hrow).
  destruct g; reflexivity.
Qed.

Lemma remove_edge_undoes_add_edge_witness :
  exists g1, add_edge g_example 2 0 7 = Ret g1 /\
             remove_edge g1 2 0 = Ret g_example.
Proof.
  apply (remove_edge_undoes_add_edge g_example 2 0 7).
  - split; [reflexivity|]. repeat constructor.
  - simpl. lia.
  - simpl. lia.
  - lia.
  - lia.
  - reflexivity.
Defined.

End DirectedQueryFacts.

(** ** DirectedGraph: [is_valid_path] *)

Module DirectedPathFacts.
Import Py PyFacts Directed DirectedSpec DirectedFacts DirectedPaths.
Import DijkstraFacts DirectedCycles DirectedCycleFacts DirectedQueries.

Lemma get_next (done : list Z) (v u : Z) (rest : list Z) :
  Py.get (done ++ v :: u :: rest) (Z.of_nat (length done) + 1) = Ret u.
Proof.
  apply get_nth; [lia|].
  replace (Z.to_nat (Z.of_nat (length done) + 1)) with (S (length done)) by lia.
  rewrite nth_error_app2 by lia.
  replace (S (length done) - length done)%nat with 1%nat by lia. reflexivity.
Qed.

Lemma not_last (done : list Z) (v u : Z) (rest : list Z) :
  (Z.of_nat (length done) + 1 =? Z.of_nat (length (done ++ v :: u :: rest)))
  = false.
Proof. apply Z.eqb_neq. rewrite length_app. simpl. lia. Qed.

Lemma row_of (g : DirectedGraph) (v : Z) :
  square g -> 0 <= v < Z.of_nat (v_count g) ->
  exists row, Py.get (adj_matrix g) v = Ret row /\
              nth_error (adj_matrix g) (Z.to_nat v) = Some row /\
              length row = v_count g.
Proof.
  intros [Hl Hr] Hv.
  destruct (get_nonneg (adj_matrix g) v) as (row & E & Hrow); [lia|].
  exists row. repeat split; auto.
  rewrite Forall_forall in Hr. apply Hr. eapply nth_error_In; eauto.
Qed.

Lemma valid_path_from_spec (g : DirectedGraph) (path : list Z) :
  square g ->
  forall todo done,
    path = done ++ todo -> todo <> [] ->
    Forall (fun v => 0 <= v < Z.of_nat (v_count g)) todo ->
    exists b,
      valid_path_from g path todo (Z.of_nat (length done)) = Ret (Some b) /\
      (b = true <-> linked g todo).
Proof.
  intros Hsq. induction todo as [|v rest IH]; intros done Hp Hne Hr;
    [congruence|].
  apply Forall_cons_iff in Hr. destruct Hr as [Hv Hr].
  destruct rest as [|u rest'].
  - exists true. simpl. subst path. rewrite length_app. simpl.
    replace (Z.of_nat (length done) + 1 =? Z.of_nat (length done + 1))
      with true by (symmetry; apply Z.eqb_eq; lia).
    tauto.
  - pose proof (Forall_inv Hr) as Hu. cbv beta in Hu.
    destruct (row_of g v Hsq Hv) as (row & Eg & Hrow & Hlen).
    destruct (get_nonneg row u) as (w & Ew & Hw); [lia|].
    cbn [valid_path_from]. subst path. rewrite not_last, get_next.
    cbn [bind]. rewrite Eg. cbn [bind]. rewrite Ew. cbn [bind].
    assert (Harc : arc g v u <-> w <> 0).
    { rewrite (arc_row g v u row) by (try lia; assumption). split.
      - intros (_ & w' & E' & Hw'). congruence.
      - intros Hne'. split; [lia|]. eauto. }
    destruct (Z.eqb_spec w 0) as [E0|E0].
    + exists false. split; [reflexivity|]. split; [discriminate|].
      intros [Ha _]. apply Harc in Ha. contradiction.
    + destruct (IH (done ++ [v])) as (b & Eb & Hb).
      * now rewrite <- app_assoc.
      * discriminate.
      * exact Hr.
      * exists b. rewrite length_app, Nat2Z.inj_add in Eb. simpl in Eb.
        split; [exact Eb|].
        rewrite Hb. change (linked g (v :: u :: rest'))
          with (arc g v u /\ linked g (u :: rest')).
        rewrite Harc. tauto.
Qed.

(** X7: on a square matrix and a path of vertices of the graph,
    [is_valid_path] returns a Boolean, and it is [True] exactly when every
    vertex of the path has an edge to the next one. *)
Theorem is_valid_path_spec (g : DirectedGraph) (path : list Z) :
  square g ->
  Forall (fun v => 0 <= v < Z.of_nat (v_count g)) path ->
  exists b, is_valid_path g path = Ret (Some b) /\ (b = true <-> linked g path).
Proof.
  intros Hsq Hr. destruct path as [|v rest].
  - exists true. simpl. tauto.
  - apply (valid_path_from_spec g (v :: rest) Hsq (v :: rest) []); auto.
    discriminate.
Qed.

Lemma is_valid_path_spec_witness :
  exists b, is_valid_path g_example [0; 1; 2] = Ret (Some b) /\
            (b = true <-> linked g_example [0; 1; 2]).
Proof.
  apply (is_valid_path_spec g_example [0; 1; 2]).
  - split; [reflexivity|]. repeat constructor.
  - repeat constructor; simpl; lia.
Defined.

Lemma valid_path_from_unknown (g : DirectedGraph) (path : list Z)
  (v : Z) (post : list Z) :
  square g -> Z.of_nat (v_count g) <= v ->
  forall pre done,
    path = done ++ pre ++ v :: post ->
    Forall (fun v => 0 <= v < Z.of_nat (v_count g)) pre ->
    linked g pre -> pre <> [] \/ post <> [] ->
    valid_path_from g path (pre ++ v :: post) (Z.of_nat (length done))
    = Raise IndexError.
Proof.
  intros Hsq Hv. induction pre as [|p pre IH]; intros done Hp Hr Hl Hne.
  - destruct Hne as [Hne|Hne]; [congruence|].
    destruct post as [|u post']; [congruence|].
    simpl app in *. cbn [valid_path_from]. subst path.
    rewrite not_last, get_next. cbn [bind].
    rewrite get_too_large; [reflexivity|].
    destruct Hsq as [-> _]. lia.
  - apply Forall_cons_iff in Hr. destruct Hr as [Hpr Hr].
    destruct (row_of g p Hsq Hpr) as (row & Eg & Hrow & Hlen).
    destruct pre as [|q pre'].
    + simpl app in *. cbn [valid_path_from]. subst path.
      rewrite not_last, get_next. cbn [bind]. rewrite Eg. cbn [bind].
      rewrite get_too_large by lia. reflexivity.
    + pose proof (Forall_inv Hr) as Hq. cbv beta in Hq.
      destruct Hl as [Ha Hl].
      destruct (get_nonneg row q) as (w & Ew & Hw); [lia|].
      apply (arc_row g p q row) in Ha; try lia; auto.
      destruct Ha as (_ & w' & E' & Hw').
      assert (w' = w) by congruence. subst w'.
      simpl app in *. cbn [valid_path_from]. subst path.
      rewrite not_last, get_next. cbn [bind]. rewrite Eg. cbn [bind].
      rewrite Ew. cbn [bind].
      destruct (Z.eqb_spec w 0); [contradiction|].
      specialize (IH (done ++ [p])).
      rewrite length_app, Nat2Z.inj_add in IH. simpl in IH.
      apply IH; auto.
      * now rewrite <- app_assoc.
      * left. discriminate.
Qed.

(** X8: a vertex [v >= v_count] that is not in the graph.  The path [[v]]
    is reported valid.  A longer path that reaches [v] along edges of the
    graph raises [IndexError]. *)
Theorem is_valid_path_unknown_vertex (g : DirectedGraph) (v : Z) :
  square g -> Z.of_nat (v_count g) <= v ->
  is_valid_path g [v] = Ret (Some true) /\
  forall pre post,
    Forall (fun u => 0 <= u < Z.of_nat (v_count g)) pre ->
    linked g pre -> pre <> [] \/ post <> [] ->
    is_valid_path g (pre ++ v :: post) = Raise IndexError.
Proof.
  intros Hsq Hv. split; [reflexivity|]. intros pre post Hr Hl Hne.
  assert (E : is_valid_path g (pre ++ v :: post) =
              valid_path_from g (pre ++ v :: post) (pre ++ v :: post) 0).
  { unfold is_valid_path. destruct pre; reflexivity. }
  rewrite E.
  apply (valid_path_from_unknown g (pre ++ v :: post) v post Hsq Hv pre []);
    auto.
Qed.

Lemma is_valid_path_unknown_vertex_witness :
  is_valid_path g_example [7] = Ret (Some true) /\
  forall pre post,
    Forall (fun u => 0 <= u < Z.of_nat (v_count g_example)) pre ->
    linked g_example pre -> pre <> [] \/ post <> [] ->
    is_valid_path g_example (pre ++ 7 :: post) = Raise IndexError.
Proof.
  apply (is_valid_path_unknown_vertex g_example 7).
  - split; [reflexivity|]. repeat constructor.
  - simpl. lia.
Defined.

End DirectedPathFacts.

(** ** Stopping a search at [v_end] *)

Module SearchStopFacts.
Import Py PyFacts SearchStop.

Section Cut.
Context {A : Type} (eqb : A -> A -> bool).
Hypothesis eqb_spec : forall x y, eqb x y = true <-> x = y.

Lemma cut_after_absent (e : A) (l : list A) :
  ~ In e l -> cut_after eqb e l = l.
Proof.
  induction l as [|h t IH]; simpl; intros Hn; [reflexivity|].
  destruct (eqb h e) eqn:E.
  - apply eqb_spec in E. tauto.
  - rewrite IH; tauto.
Qed.

Lemma cut_after_first (e : A) (l s : list A) :
  ~ In e l -> cut_after eqb e (l ++ e :: s) = l ++ [e].
Proof.
  induction l as [|h t IH]; simpl; intros Hn.
  - replace (eqb e e) with true by (symmetry; now apply eqb_spec).
    reflexivity.
  - destruct (eqb h e) eqn:E.
    + apply eqb_spec in E. tauto.
    + rewrite IH; tauto.
Qed.

End Cut.

Lemma Z_eqb_spec (x y : Z) : Z.eqb x y = true <-> x = y.
Proof. apply Z.eqb_eq. Qed.

Lemma string_eqb_spec (x y : string) : String.eqb x y = true <-> x = y.
Proof. apply String.eqb_eq. Qed.

(** *** DirectedGraph *)

Lemma dfs_loop_extends (g : Directed.DirectedGraph) (fuel : nat) :
  forall stack visited R,
    Directed.dfs_loop fuel g None stack visited = Ret R ->
    exists s, R = visited ++ s.
Proof.
  induction fuel as [|fuel IH]; intros stack visited R; simpl; [discriminate|].
  destruct (Directed.pop_last stack) as [[stack' v]|].
  - destruct (mem Z.eqb v visited); simpl.
    + apply IH.
    + destruct (get (Directed.adj_matrix g) v) as [row| |]; simpl;
        try discriminate.
      intros H. apply IH in H. destruct H as (s & ->).
      exists (v :: s). now rewrite <- app_assoc.
  - intros E. inversion E. exists []. now rewrite app_nil_r.
Qed.

Lemma dfs_loop_stop (g : Directed.DirectedGraph) (e : Z) (fuel : nat) :
  forall stack visited R,
    ~ In e visited ->
    Directed.dfs_loop fuel g None stack visited = Ret R ->
    Directed.dfs_loop fuel g (Some e) stack visited
    = Ret (cut_after Z.eqb e R).
Proof.
  induction fuel as [|fuel IH]; intros stack visited R Hn; simpl;
    [discriminate|].
  destruct (Directed.pop_last stack) as [[stack' v]|].
  - destruct (mem Z.eqb v visited) eqn:Em; simpl.
    + apply mem_In_Z in Em.
      destruct (Z.eqb_spec v e); [subst; contradiction|]. now apply IH.
    + destruct (get (Directed.adj_matrix g) v) as [row| |]; simpl;
        try discriminate.
      destruct (Z.eqb_spec v e) as [->|Hne].
      * intros H. apply dfs_loop_extends in H. destruct H as (s & ->).
        rewrite <- app_assoc. simpl.
        now rewrite (cut_after_first Z.eqb Z_eqb_spec).
      * apply IH. rewrite in_app_iff. simpl. intuition congruence.
  - intros E. inversion E; subst.
    now rewrite (cut_after_absent Z.eqb Z_eqb_spec).
Qed.

Lemma bfs_loop_extends (g : Directed.DirectedGraph) (fuel : nat) :
  forall queue visited R,
    Directed.bfs_loop fuel g None queue visited = Ret R ->
    exists s, R = visited ++ s.
Proof.
  induction fuel as [|fuel IH]; intros queue visited R; simpl; [discriminate|].
  destruct queue as [|v queue'].
  - intros E. inversion E. exists []. now rewrite app_nil_r.
  - destruct (mem Z.eqb v visited); simpl.
    + apply IH.
    + destruct (get (Directed.adj_matrix g) v) as [row| |]; simpl;
        try discriminate.
      intros H. apply IH in H. destruct H as (s & ->).
      exists (v :: s). now rewrite <- app_assoc.
Qed.

Lemma bfs_loop_stop (g : Directed.DirectedGraph) (e : Z) (fuel : nat) :
  forall queue visited R,
    ~ In e visited ->
    Directed.bfs_loop fuel g None queue visited = Ret R ->
    Directed.bfs_loop fuel g (Some e) queue visited
    = Ret (cut_after Z.eqb e R).
Proof.
  induction fuel as [|fuel IH]; intros queue visited R Hn; simpl;
    [discriminate|].
  destruct queue as [|v queue'].
  - intros E. inversion E; subst.
    now rewrite (cut_after_absent Z.eqb Z_eqb_spec).
  - destruct (mem Z.eqb v visited) eqn:Em; simpl.
    + apply mem_In_Z in Em.
      destruct (Z.eqb_spec v e); [subst; contradiction|]. now apply IH.
    + destruct (get (Directed.adj_matrix g) v) as [row| |]; simpl;
        try discriminate.
      destruct (Z.eqb_spec v e) as [->|Hne].
      * intros H. apply bfs_loop_extends in H. destruct H as (s & ->).
        rewrite <- app_assoc. simpl.
        now rewrite (cut_after_first Z.eqb Z_eqb_spec).
      * apply IH. rewrite in_app_iff. simpl. intuition congruence.
Qed.

(** X9: DirectedGraph.  When the search without [v_end] returns the list
    [R], the search with [v_end = e] returns [R] cut after the first [e]
    (all of [R] when [e] is not in it), for [dfs] and for [bfs]. *)
Theorem directed_search_stops_at_end (g : Directed.DirectedGraph)
  (fuel : nat) (v_start e : Z) :
  (forall R, Directed.dfs fuel g v_start None = Ret R ->
             Directed.dfs fuel g v_start (Some e)
             = Ret (cut_after Z.eqb e R)) /\
  (forall R, Directed.bfs fuel g v_start None = Ret R ->
             Directed.bfs fuel g v_start (Some e)
             = Ret (cut_after Z.eqb e R)).
Proof.
  unfold Directed.dfs, Directed.bfs.
  destruct (v_start >? Directed.len_matrix g).
  - split; intros R E; inversion E; reflexivity.
  - split; intros R E.
    + apply dfs_loop_stop; auto.
    + apply bfs_loop_stop; auto.
Qed.

Lemma directed_search_stops_at_end_witness :
  Directed.dfs 20 DirectedPaths.g_example 0 (Some 1)
  = Ret (cut_after Z.eqb 1 [0; 1; 2]) /\
  Directed.bfs 20 DirectedPaths.g_example 0 (Some 1)
  = Ret (cut_after Z.eqb 1 [0; 1; 2]).
Proof.
  split.
  - apply (proj1 (directed_search_stops_at_end
                    DirectedPaths.g_example 20 0 1)). reflexivity.
  - apply (proj2 (directed_search_stops_at_end
                    DirectedPaths.g_example 20 0 1)). reflexivity.
Defined.

(** *** UndirectedGraph *)

Lemma ud_dfs_loop_extends (g : Undirected.UndirectedGraph) (fuel : nat) :
  forall stack visited R,
    Undirected.dfs_loop fuel g None stack visited = Ret R ->
    exists s, R = visited ++ s.
Proof.
  induction fuel as [|fuel IH]; intros stack visited R; simpl; [discriminate|].
  destruct (Directed.pop_last stack) as [[stack' v]|].
  - destruct (mem String.eqb v visited); simpl.
    + apply IH.
    + destruct (Undirected.getitem v g) as [adj| |]; simpl; try discriminate.
      intros H. apply IH in H. destruct H as (s & ->).
      exists (v :: s). now rewrite <- app_assoc.
  - intros E. inversion E. exists []. now rewrite app_nil_r.
Qed.

Lemma ud_dfs_loop_stop (g : Undirected.UndirectedGraph) (e : string)
  (fuel : nat) :
  forall stack visited R,
    ~ In e visited ->
    Undirected.dfs_loop fuel g None stack visited = Ret R ->
    Undirected.dfs_loop fuel g (Some e) stack visited
    = Ret (cut_after String.eqb e R).
Proof.
  induction fuel as [|fuel IH]; intros stack visited R Hn; simpl;
    [discriminate|].
  destruct (Directed.pop_last stack) as [[stack' v]|].
  - destruct (mem String.eqb v visited) eqn:Em; simpl.
    + apply mem_In_string in Em.
      destruct (String.eqb_spec v e); [subst; contradiction|]. now apply IH.
    + destruct (Undirected.getitem v g) as [adj| |]; simpl; try discriminate.
      destruct (String.eqb_spec v e) as [->|Hne].
      * intros H. apply ud_dfs_loop_extends in H. destruct H as (s & ->).
        rewrite <- app_assoc. simpl.
        now rewrite (cut_after_first String.eqb string_eqb_spec).
      * apply IH. rewrite in_app_iff. simpl. intuition congruence.
  - intros E. inversion E; subst.
    now rewrite (cut_after_absent String.eqb string_eqb_spec).
Qed.

Lemma ud_bfs_loop_extends (g : Undirected.UndirectedGraph) (fuel : nat) :
  forall queue visited R,
    Undirected.bfs_loop fuel g None queue visited = Ret R ->
    exists s, R = visited ++ s.
Proof.
  induction fuel as [|fuel IH]; intros queue visited R; simpl; [discriminate|].
  destruct queue as [|v queue'].
  - intros E. inversion E. exists []. now rewrite app_nil_r.
  - destruct (mem String.eqb v visited); simpl.
    + apply IH.
    + destruct (Undirected.getitem v g) as [adj| |]; simpl; try discriminate.
      intros H. apply IH in H. destruct H as (s & ->).
      exists (v :: s). now rewrite <- app_assoc.
Qed.

Lemma ud_bfs_loop_stop (g : Undirected.UndirectedGraph) (e : string)
  (fuel : nat) :
  forall queue visited R,
    ~ In e visited ->
    Undirected.bfs_loop fuel g None queue visited = Ret R ->
    Undirected.bfs_loop fuel g (Some e) queue visited
    = Ret (cut_after String.eqb e R).
Proof.
  induction fuel as [|fuel IH]; intros queue visited R Hn; simpl;
    [discriminate|].
  destruct queue as [|v queue'].
  - intros E. inversion E; subst.
    now rewrite (cut_after_absent String.eqb string_eqb_spec).
  - destruct (mem String.eqb v visited) eqn:Em; simpl.
    + apply mem_In_string in Em.
      destruct (String.eqb_spec v e); [subst; contradiction|]. now apply IH.
    + destruct (Undirected.getitem v g) as [adj| |]; simpl; try discriminate.
      destruct (String.eqb_spec v e) as [->|Hne].
      * intros H. apply ud_bfs_loop_extends in H. destruct H as (s & ->).
        rewrite <- app_assoc. simpl.
        now rewrite (cut_after_first String.eqb string_eqb_spec).
      * apply IH. rewrite in_app_iff. simpl. intuition congruence.
Qed.

(** X10: UndirectedGraph.  When the search without [v_end] returns the
    list [R], the search with [v_end = e] returns [R] cut after the first
    [e] (all of [R] when [e] is not in it), for [dfs] and for [bfs]. *)
Theorem undirected_search_stops_at_end (g : Undirected.UndirectedGraph)
  (fuel : nat) (v_start e : string) :
  (forall R, Undirected.dfs fuel g v_start None = Ret R ->
             Undirected.dfs fuel g v_start (Some e)
             = Ret (cut_after String.eqb e R)) /\
  (forall R, Undirected.bfs fuel g v_start None = Ret R ->
             Undirected.bfs fuel g v_start (Some e)
             = Ret (cut_after String.eqb e R)).
Proof.
  unfold Undirected.dfs, Undirected.bfs.
  destruct (negb (Undirected.has_key v_start g)).
  - split; intros R E; inversion E; reflexivity.
  - split; intros R E.
    + apply ud_dfs_loop_stop; auto.
    + apply ud_bfs_loop_stop; auto.
Qed.

Lemma undirected_search_stops_at_end_witness :
  Undirected.dfs 20 UndirectedCycles.g_triangle "A" (Some "B"%string)
  = Ret (cut_after String.eqb "B"%string
           ["A"%string; "B"%string; "C"%string]) /\
  Undirected.bfs 20 UndirectedCycles.g_triangle "A" (Some "B"%string)
  = Ret (cut_after String.eqb "B"%string
           ["A"%string; "B"%string; "C"%string]).
Proof.
  split.
  - apply (proj1 (undirected_search_stops_at_end
                    UndirectedCycles.g_triangle 20 "A" "B")). reflexivity.
  - apply (proj2 (undirected_search_stops_at_end
                    UndirectedCycles.g_triangle 20 "A" "B")). reflexivity.
Defined.

End SearchStopFacts.

(** ** DirectedGraph: the constructor *)

Module DirectedInitFacts.
Import Py PyFacts Directed DirectedSpec DirectedFacts DirectedPaths.
Import DijkstraFacts DirectedCycles DirectedCycleFacts DirectedQueries.
Import DirectedQueryFacts.

Lemma max_vertex_from (es : list (Z * Z * Z)) (c : Z) :
  c <= fold_left (fun c '(u, v, _) => Z.max (Z.max c u) v) es c /\
  Forall (fun e => fst (fst e) <=
                     fold_left (fun c '(u, v, _) => Z.max (Z.max c u) v) es c /\
                   snd (fst e) <=
                     fold_left (fun c '(u, v, _) => Z.max (Z.max c u) v) es c)
         es.
Proof.
  revert c. induction es as [|[[u v] w] es IH]; intros c; simpl.
  - split; [lia|constructor].
  - destruct (IH (Z.max (Z.max c u) v)) as [Hc Hes]. split; [lia|].
    constructor; [simpl; lia|exact Hes].
Qed.

Lemma add_vertices_spec (k : nat) :
  square (add_vertices k empty) /\
  v_count (add_vertices k empty) = k /\
  get_edges (add_vertices k empty) = [].
Proof.
  induction k as [|k (Hsq & Hc & He)].
  - split; [apply square_empty|]. split; reflexivity.
  - change (add_vertices (S k) empty)
      with (fst (add_vertex (add_vertices k empty))).
    split; [now apply square_add_vertex|]. split.
    + simpl. now rewrite Hc.
    + now rewrite get_edges_add_vertex.
Qed.

(** One [add_edge] of the constructor, on vertices of the graph. *)
Lemma init_add_edge_step (g : DirectedGraph) (u v w : Z) :
  square g ->
  0 <= u < Z.of_nat (v_count g) -> 0 <= v < Z.of_nat (v_count g) ->
  exists g',
    add_edge g u v w = Ret g' /\ square g' /\ v_count g' = v_count g /\
    (forall a b x, In (a, b, x) (get_edges g') ->
                   ((a, b, x) = (u, v, w) /\ u <> v /\ 0 < w) \/
                   In (a, b, x) (get_edges g)) /\
    (forall a b x, (a, b) <> (u, v) ->
                   (In (a, b, x) (get_edges g') <-> In (a, b, x) (get_edges g))) /\
    (u <> v -> 0 < w -> In (u, v, w) (get_edges g')).
Proof.
  intros Hsq Hu Hv.
  destruct (Z.eq_dec u v) as [E|Hne];
    [|destruct (Z_lt_le_dec w 0) as [Hneg|Hw]].
  - exists g. rewrite add_edge_rejected by auto.
    split; [reflexivity|]. split; [assumption|]. split; [reflexivity|].
    split; [auto|]. split; [tauto|]. intros; contradiction.
  - exists g. rewrite add_edge_rejected by auto.
    split; [reflexivity|]. split; [assumption|]. split; [reflexivity|].
    split; [auto|]. split; [tauto|]. intros; lia.
  - rewrite add_edge_valid by auto.
    destruct (set_entry_edges g u v w Hsq Hu Hv) as (g' & E & Hsq' & Hc & H).
    exists g'.
    split; [exact E|]. split; [exact Hsq'|]. split; [exact Hc|].
    split; [|split].
    + intros a b x Hin. apply H in Hin.
      destruct Hin as [[E' Hw0]|[_ Hin]]; auto.
      left. repeat split; auto. lia.
    + intros a b x Hab. rewrite H. split.
      * intros [[E' _]|[_ Hin]]; auto. inversion E'; subst. congruence.
      * auto.
    + intros _ Hpos. apply H. left. split; auto. lia.
Qed.

Lemma add_edges_spec (es : list (Z * Z * Z)) :
  forall g,
    square g ->
    Forall (fun e => 0 <= fst (fst e) < Z.of_nat (v_count g) /\
                     0 <= snd (fst e) < Z.of_nat (v_count g)) es ->
    exists g',
      add_edges es g = Ret g' /\ square g' /\ v_count g' = v_count g /\
      (forall a b x, In (a, b, x) (get_edges g') ->
                     (In (a, b, x) es /\ a <> b /\ 0 < x) \/
                     In (a, b, x) (get_edges g)) /\
      (forall a b x, ~ In (a, b) (List.map fst es) ->
                     (In (a, b, x) (get_edges g') <->
                      In (a, b, x) (get_edges g))) /\
      (NoDup (List.map fst es) ->
       forall a b x, In (a, b, x) es -> a <> b -> 0 < x ->
                     In (a, b, x) (get_edges g')).
Proof.
  induction es as [|[[u v] w] es IH]; intros g Hsq Hr.
  - exists g. simpl.
    split; [reflexivity|]. split; [assumption|]. split; [reflexivity|].
    split; [auto|]. split; [tauto|]. intros _ a b x [].
  - apply Forall_cons_iff in Hr. destruct Hr as [[Hu Hv] Hr]. simpl in Hu, Hv.
    destruct (init_add_edge_step g u v w Hsq Hu Hv)
      as (g1 & E1 & Hsq1 & Hc1 & Hfrom1 & Hother1 & Hnew1).
    destruct (IH g1 Hsq1) as (g' & E & Hsq' & Hc & Hfrom & Hother & Hnew).
    { now rewrite Hc1. }
    exists g'. simpl add_edges. rewrite E1. simpl bind.
    split; [exact E|]. split; [exact Hsq'|]. split; [congruence|].
    split; [|split].
    + intros a b x Hin. apply Hfrom in Hin. destruct Hin as [Hin|Hin].
      * left. simpl. tauto.
      * apply Hfrom1 in Hin. destruct Hin as [(E' & H1 & H2)|Hin]; auto.
        inversion E'; subst. left. simpl. auto.
    + intros a b x Hn. simpl in Hn. rewrite Hother by tauto.
      apply Hother1. intros E'. apply Hn. left. now inversion E'.
    + intros Hnd a b x Hin Hab Hx. simpl in Hnd.
      apply NoDup_cons_iff in Hnd. destruct Hnd as [Hfresh Hnd].
      destruct Hin as [E'|Hin].
      * inversion E'; subst. apply Hother; auto.
      * apply Hnew; auto.
Qed.

(** X11: [DirectedGraph(start_edges)] on triples with non-negative vertex
    ids builds a square matrix over the vertices [0 .. max id] (one vertex
    for an empty list).  Every edge of the result is a triple of the list
    with distinct endpoints and a positive weight; when no two triples
    have the same endpoints, each such triple is an edge of the result. *)
Theorem init_spec (start_edges : list (Z * Z * Z)) :
  Forall (fun e => 0 <= fst (fst e) /\ 0 <= snd (fst e)) start_edges ->
  exists g,
    init start_edges = Ret g /\ square g /\
    Z.of_nat (v_count g) = max_vertex start_edges + 1 /\
    (forall a b x, In (a, b, x) (get_edges g) ->
                   In (a, b, x) start_edges /\ a <> b /\ 0 < x) /\
    (NoDup (List.map fst start_edges) ->
     forall a b x, In (a, b, x) start_edges -> a <> b -> 0 < x ->
                   In (a, b, x) (get_edges g)).
Proof.
  intros Hr. unfold init.
  destruct (max_vertex_from start_edges 0) as [H0 Hmax].
  fold (max_vertex start_edges) in H0, Hmax.
  destruct (add_vertices_spec (Z.to_nat (max_vertex start_edges + 1)))
    as (Hsq & Hc & He).
  destruct (add_edges_spec start_edges _ Hsq)
    as (g & E & Hsq' & Hc' & Hfrom & _ & Hnew).
  { rewrite Hc. rewrite Forall_forall in *. intros e Hin.
    specialize (Hr e Hin). specialize (Hmax e Hin). lia. }
  exists g. split; [exact E|]. split; [exact Hsq'|].
  split; [rewrite Hc', Hc; lia|]. split; [|exact Hnew].
  intros a b x Hin. apply Hfrom in Hin. rewrite He in Hin.
  destruct Hin as [Hin|[]]. exact Hin.
Qed.

Lemma init_spec_witness :
  exists g,
    init [(0, 1, 10); (1, 2, 5); (0, 2, 20)] = Ret g /\ square g /\
    Z.of_nat (v_count g) = max_vertex [(0, 1, 10); (1, 2, 5); (0, 2, 20)] + 1 /\
    (forall a b x, In (a, b, x) (get_edges g) ->
                   In (a, b, x) [(0, 1, 10); (1, 2, 5); (0, 2, 20)] /\
                   a <> b /\ 0 < x) /\
    (NoDup (List.map fst [(0, 1, 10); (1, 2, 5); (0, 2, 20)]) ->
     forall a b x, In (a, b, x) [(0, 1, 10); (1, 2, 5); (0, 2, 20)] ->
                   a <> b -> 0 < x -> In (a, b, x) (get_edges g)).
Proof.
  apply (init_spec [(0, 1, 10); (1, 2, 5); (0, 2, 20)]).
  repeat constructor; simpl; lia.
Defined.

End DirectedInitFacts.

(** ** UndirectedGraph: edges and paths *)

Module UndirectedQueryFacts.
Import Py PyFacts Undirected UndirectedSpec UndirectedFacts.
Import UndirectedCycles UndirectedQueries UndirectedEdges.

Lemma mem_pair (p : string * string) (l : list (string * string)) :
  mem pair_eqb p l = true <-> In p l.
Proof.
  unfold mem. rewrite existsb_exists. split.
  - intros ([a b] & Hin & E). unfold pair_eqb in E. simpl in E.
    apply andb_true_iff in E. destruct E as [E1 E2].
    apply String.eqb_eq in E1, E2. destruct p. simpl in *. now subst.
  - intros H. exists p. split; auto. unfold pair_eqb.
    now rewrite !String.eqb_refl.
Qed.

Lemma listed_nil : listed [] [].
Proof.
  split.
  - intros p H. exact H.
  - intros u v [].
  - constructor.
  - intros u v [].
Qed.

(** One round of the inner loop. *)
Lemma listed_step (P edges : list (string * string)) (k v : string) :
  listed P edges -> ~ In (k, v) P -> k <> v ->
  listed (P ++ [(k, v)])
         (if negb (mem pair_eqb (v, k) edges) then edges ++ [(k, v)]
          else edges).
Proof.
  intros [Hin Hcov Hnd Honce] Hfresh Hne.
  destruct (mem pair_eqb (v, k) edges) eqn:Em; simpl.
  - apply mem_pair in Em. split; auto.
    + intros p Hp. apply in_or_app. left. auto.
    + intros a b Hab. apply in_app_or in Hab.
      destruct Hab as [Hab|[E|[]]]; auto. inversion E; subst. auto.
  - assert (Hn : ~ In (v, k) edges).
    { intros H. apply mem_pair in H. congruence. }
    split.
    + intros p Hp. apply in_app_or in Hp. apply in_or_app.
      destruct Hp as [Hp|Hp]; auto.
    + intros a b Hab. rewrite !in_app_iff. apply in_app_or in Hab.
      destruct Hab as [Hab|[E|[]]].
      * destruct (Hcov a b Hab); auto.
      * inversion E; subst. left. right. simpl. auto.
    + apply NoDup_app; auto.
      * constructor; [intros []|constructor].
      * intros p Hp [E|[]]. subst. auto.
    + intros a b Hab Hba. apply in_app_or in Hab. apply in_app_or in Hba.
      destruct Hab as [Hab|[E|[]]]; destruct Hba as [Hba|[E'|[]]].
      * eapply Honce; eauto.
      * inversion E'; subst. contradiction.
      * inversion E; subst. contradiction.
      * inversion E; inversion E'; subst. congruence.
Qed.

Lemma edges_of_listed (k : string) (values : list string) :
  forall P edges,
    listed P edges ->
    NoDup (P ++ List.map (pair k) values) ->
    ~ In k values ->
    listed (P ++ List.map (pair k) values) (edges_of k values edges).
Proof.
  induction values as [|v rest IH]; intros P edges Hl Hnd Hk.
  - simpl. now rewrite app_nil_r.
  - simpl List.map in *. simpl edges_of.
    replace (P ++ (k, v) :: List.map (pair k) rest)
      with ((P ++ [(k, v)]) ++ List.map (pair k) rest) in *
      by (now rewrite <- app_assoc).
    assert (Hfresh : ~ In (k, v) P).
    { intros H. rewrite <- app_assoc in Hnd. simpl in Hnd.
      apply NoDup_remove_2 in Hnd. apply Hnd. apply in_or_app. auto. }
    assert (Hne : k <> v) by (intros ->; apply Hk; left; reflexivity).
    pose proof (listed_step P edges k v Hl Hfresh Hne) as Hs.
    destruct (negb (mem pair_eqb (v, k) edges)).
    + apply IH; auto. intros H. apply Hk. now right.
    + apply IH; auto. intros H. apply Hk. now right.
Qed.

Lemma In_pairs_of (g : UndirectedGraph) (keys : list string) (u v : string) :
  In (u, v) (pairs_of g keys) <-> In u keys /\ adjacent g u v.
Proof.
  unfold pairs_of, adjacent. rewrite in_flat_map. split.
  - intros (k & Hk & H). destruct (get k g) as [l|] eqn:E; [|destruct H].
    apply in_map_iff in H. destruct H as (x & Ex & Hx).
    inversion Ex; subst. eauto.
  - intros (Hu & l & E & Hv). exists u. split; auto. rewrite E.
    apply in_map_iff. eauto.
Qed.

Lemma edges_over_listed (g : UndirectedGraph) :
  wf g ->
  forall keys P edges,
    listed P edges ->
    incl keys (get_vertices g) ->
    NoDup (P ++ pairs_of g keys) ->
    exists edges',
      edges_over g keys edges = Ret edges' /\
      listed (P ++ pairs_of g keys) edges'.
Proof.
  intros Hwf. induction keys as [|k rest IH]; intros P edges Hl Hk Hnd.
  - exists edges. simpl. rewrite app_nil_r. auto.
  - assert (Hkey : has_key k g = true)
      by (apply has_key_In, Hk; left; reflexivity).
    apply has_key_true in Hkey. destruct Hkey as (l & El).
    simpl edges_over. rewrite El.
    change (pairs_of g (k :: rest))
      with (match get k g with
            | Some l => List.map (pair k) l
            | None => []
            end ++ pairs_of g rest) in *.
    rewrite El in *. rewrite app_assoc in *.
    apply IH.
    + apply edges_of_listed; auto.
      * apply NoDup_app_remove_r in Hnd. exact Hnd.
      * intros H. apply (wf_irreflexive g Hwf k). exists l. auto.
    + intros x Hx. apply Hk. now right.
    + exact Hnd.
Qed.

Lemma NoDup_pairs_of (g : UndirectedGraph) (keys : list string) :
  wf g -> NoDup keys -> NoDup (pairs_of g keys).
Proof.
  intros Hwf. induction keys as [|k rest IH]; intros Hnd.
  - constructor.
  - apply NoDup_cons_iff in Hnd. destruct Hnd as [Hk Hnd].
    change (pairs_of g (k :: rest))
      with (match get k g with
            | Some l => List.map (pair k) l
            | None => []
            end ++ pairs_of g rest).
    apply NoDup_app; auto.
    + destruct (get k g) as [l|] eqn:E; [|constructor].
      apply Finite.Injective_map_NoDup.
      * intros a b Hab. now inversion Hab.
      * eapply wf_simple; eauto.
    + intros [a b] H1 H2. apply In_pairs_of in H2. destruct H2 as [Ha _].
      destruct (get k g) as [l|]; [|destruct H1].
      apply in_map_iff in H1. destruct H1 as (x & Ex & _).
      inversion Ex; subst. contradiction.
Qed.

(** X12: on a well-formed graph [get_edges()] returns a list without
    repetition that holds every edge of the graph exactly once, in one of
    its two directions. *)
Theorem ud_get_edges_spec (g : UndirectedGraph) :
  wf g ->
  exists edges,
    get_edges g = Ret edges /\
    NoDup edges /\
    (forall u v, adjacent g u v <-> In (u, v) edges \/ In (v, u) edges) /\
    (forall u v, In (u, v) edges -> ~ In (v, u) edges).
Proof.
  intros Hwf.
  destruct (edges_over_listed g Hwf (get_vertices g) [] [] listed_nil)
    as (edges & E & [Hin Hcov Hnd Honce]).
  - intros x Hx. exact Hx.
  - simpl. apply NoDup_pairs_of; auto. apply Hwf.
  - exists edges. split; [exact E|]. split; [exact Hnd|]. split; [|exact Honce].
    simpl in Hin, Hcov.
    intros u v. split.
    + intros H. apply Hcov. apply In_pairs_of. split; auto.
      destruct H as (l & El & _). eapply get_In_keys; eauto.
    + intros [H|H]; apply Hin, In_pairs_of in H; destruct H as [_ H]; auto.
      now apply (wf_symmetric g Hwf).
Qed.

Lemma ud_get_edges_spec_witness :
  exists edges,
    get_edges g_triangle = Ret edges /\
    NoDup edges /\
    (forall u v, adjacent g_triangle u v <->
                 In (u, v) edges \/ In (v, u) edges) /\
    (forall u v, In (u, v) edges -> ~ In (v, u) edges).
Proof.
  apply (ud_get_edges_spec g_triangle). apply UndirectedCycleFacts.wf_g_triangle.
Defined.

(** *** [is_valid_path] *)

Lemma valid_pairs_spec (g : UndirectedGraph) (path : list string) :
  exists b, valid_pairs g path = Ret b /\
            (b = true <-> chain g path).
Proof.
  induction path as [|a rest IH].
  - exists true. simpl. tauto.
  - destruct rest as [|b rest'].
    + exists true. simpl. tauto.
    + cbn [valid_pairs].
      destruct (has_key a g) eqn:Ha; simpl negb; cbv iota.
      * apply has_key_true in Ha. destruct Ha as (l & El).
        unfold mem_get. rewrite El. cbn [bind].
        destruct (mem String.eqb b l) eqn:Em; simpl negb; cbv iota.
        -- destruct IH as (r & Er & Hr). exists r. split; [exact Er|].
           rewrite Hr. change (chain g (a :: b :: rest'))
             with (adjacent g a b /\ chain g (b :: rest')).
           apply mem_In_string in Em. split; [|tauto].
           intros H. split; auto. exists l. auto.
        -- exists false. split; [reflexivity|]. split; [discriminate|].
           intros [(l' & El' & Hin) _]. apply mem_false_string in Em.
           congruence.
      * exists false. split; [reflexivity|]. split; [discriminate|].
        intros [(l' & El' & _) _].
        rewrite has_key_get, El' in Ha. discriminate.
Qed.

(** X13: on a well-formed graph [is_valid_path] raises nothing, and it
    returns [True] exactly when every vertex of the path is in the graph
    and each one is adjacent to the next. *)
Theorem ud_is_valid_path_spec (g : UndirectedGraph) (path : list string) :
  wf g ->
  exists b,
    is_valid_path g path = Ret b /\
    (b = true <->
     Forall (fun v => has_key v g = true) path /\ chain g path).
Proof.
  intros Hwf.
  assert (Hkeys : forall p, p <> [] -> chain g p ->
            has_key (hd EmptyString p) g = true ->
            Forall (fun v => has_key v g = true) p).
  { induction p as [|a rest IH]; intros Hne Hc Ha; [congruence|].
    constructor; [exact Ha|]. destruct rest as [|b rest']; [constructor|].
    destruct Hc as [Hab Hc]. apply IH; auto; [discriminate|].
    simpl. eapply wf_closed; eauto. }
  destruct path as [|a [|b rest]].
  - exists true. simpl. split; [reflexivity|].
    split; [intros _; split; [constructor|exact I]|reflexivity].
  - simpl. destruct (has_key a g) eqn:Ha; simpl.
    + exists true. split; [reflexivity|].
      split; [intros _; split; [repeat constructor; exact Ha|exact I]
             |reflexivity].
    + exists false. split; auto. split; [discriminate|].
      intros [H _]. apply Forall_inv in H. congruence.
  - change (is_valid_path g (a :: b :: rest))
      with (valid_pairs g (a :: b :: rest)).
    destruct (valid_pairs_spec g (a :: b :: rest)) as (r & Er & Hr).
    exists r. split; [exact Er|]. rewrite Hr. split; [|tauto].
    intros Hc. split; auto. apply Hkeys; auto; [discriminate|].
    destruct Hc as [(l & El & _) _]. simpl.
    rewrite has_key_get, El. reflexivity.
Qed.

Lemma ud_is_valid_path_spec_witness :
  exists b,
    is_valid_path g_triangle ["A"%string; "B"%string; "C"%string] = Ret b /\
    (b = true <->
     Forall (fun v => has_key v g_triangle = true)
            ["A"%string; "B"%string; "C"%string] /\
     chain g_triangle ["A"%string; "B"%string; "C"%string]).
Proof.
  apply (ud_is_valid_path_spec g_triangle ["A"%string; "B"%string; "C"%string]).
  apply UndirectedCycleFacts.wf_g_triangle.
Defined.

End UndirectedQueryFacts.

(** ** UndirectedGraph: [count_connected_components] *)

Module ComponentFacts.
Import Py PyFacts Undirected UndirectedSpec UndirectedFacts.
Import UndirectedCycleFacts UndirectedQueries SearchOrder.

Lemma reach_trans {V : Type} (nbr : V -> V -> Prop) (a b c : V) :
  reach nbr a b -> reach nbr b c -> reach nbr a c.
Proof.
  intros Hab Hbc. induction Hbc as [|c d Hbc IH Hcd]; auto.
  eapply reach_next; eauto.
Qed.

Lemma reach_sym (g : UndirectedGraph) (a b : string) :
  wf g -> reach (adjacent g) a b -> reach (adjacent g) b a.
Proof.
  intros Hwf H. induction H as [|b c Hab IH Hbc].
  - constructor.
  - apply reach_trans with (b := b); auto.
    apply reach_next with (b := c); [constructor|].
    now apply (wf_symmetric g Hwf).
Qed.

(** A visited list that holds the neighbours of all its vertices holds
    all that its vertices lead to. *)
Lemma flooded_reach (g : UndirectedGraph) (visited : list string) (a b : string) :
  flooded g visited [] -> In a visited -> reach (adjacent g) a b ->
  In b visited.
Proof.
  intros [_ _ Hc] Ha H. induction H as [|b c Hab IH Hbc]; auto.
  apply (Hc b); auto.
Qed.

Lemma flooded_enter (g : UndirectedGraph) (visited open : list string)
  (v : string) :
  flooded g visited open -> has_key v g = true -> ~ In v visited ->
  flooded g (visited ++ [v]) (v :: open).
Proof.
  intros [Hnd Hk Hc] Hv Hn. split.
  - apply NoDup_app; auto.
    + constructor; [intros []|constructor].
    + intros x Hx [<-|[]]. contradiction.
  - intros u Hu. apply in_app_or in Hu. destruct Hu as [Hu|[<-|[]]]; auto.
  - intros u Hu Ho w Hw. apply in_or_app. left.
    apply in_app_or in Hu. destruct Hu as [Hu|[<-|[]]].
    + apply (Hc u); auto. intros H. apply Ho. now right.
    + exfalso. apply Ho. now left.
Qed.

Lemma flooded_leave (g : UndirectedGraph) (cur open l : list string)
  (v : string) :
  flooded g cur (v :: open) -> get v g = Some l -> incl l cur ->
  flooded g cur open.
Proof.
  intros [Hnd Hk Hc] El Hl. split; auto.
  intros u Hu Ho w Hw. destruct (String.eqb_spec u v) as [->|Hne].
  - destruct Hw as (l' & El' & Hin). apply Hl. congruence.
  - apply (Hc u); auto. intros [E|H]; [congruence|contradiction].
Qed.

Lemma count_helper_spec (g : UndirectedGraph) :
  wf g ->
  forall fuel v visited open,
    flooded g visited open -> has_key v g = true -> ~ In v visited ->
    (length g <= length visited + fuel)%nat ->
    exists new,
      count_helper fuel g v visited = Ret (visited ++ v :: new) /\
      flooded g (visited ++ v :: new) open /\
      forall w, In w (v :: new) -> reach (adjacent g) v w.
Proof.
  intros Hwf. induction fuel as [|fuel IH]; intros v visited open Hf Hv Hn Hfuel.
  - pose proof (ud_room_left g visited v (fl_nodup _ _ _ Hf)
                  (fl_keys _ _ _ Hf) Hv Hn). lia.
  - pose proof Hv as Hv'. apply has_key_true in Hv'. destruct Hv' as (l & El).
    cbn [count_helper]. unfold getitem. rewrite El. cbn [bind].
    assert (Hloop : forall rest done new,
              l = done ++ rest ->
              flooded g (visited ++ v :: new) (v :: open) ->
              incl done (visited ++ v :: new) ->
              (forall w, In w (v :: new) -> reach (adjacent g) v w) ->
              exists new',
                flood (count_helper fuel g) rest (visited ++ v :: new)
                = Ret (visited ++ v :: new') /\
                flooded g (visited ++ v :: new') (v :: open) /\
                incl l (visited ++ v :: new') /\
                (forall w, In w (v :: new') -> reach (adjacent g) v w)).
    { induction rest as [|u rest IHr]; intros done new E Hfl Hin Hre.
      - exists new. rewrite app_nil_r in E. subst done. simpl. auto.
      - assert (Hadj : adjacent g v u).
        { exists l. split; auto. rewrite E. apply in_or_app. right. now left. }
        cbn [flood].
        destruct (mem String.eqb u (visited ++ v :: new)) eqn:Em;
          simpl negb; cbv iota.
        + apply mem_In_string in Em.
          apply (IHr (done ++ [u]) new); auto.
          * now rewrite <- app_assoc.
          * intros x Hx. apply in_app_or in Hx.
            destruct Hx as [Hx|[<-|[]]]; auto.
        + apply mem_false_string in Em.
          destruct (IH u (visited ++ v :: new) (v :: open))
            as (nu & Eu & Hfu & Hru); auto.
          { eapply wf_closed; eauto. }
          { rewrite length_app. simpl. lia. }
          rewrite Eu. cbn [bind].
          replace ((visited ++ v :: new) ++ u :: nu)
            with (visited ++ v :: (new ++ u :: nu)) in *
            by (now rewrite <- app_assoc).
          apply (IHr (done ++ [u]) (new ++ u :: nu)); auto.
          * now rewrite <- app_assoc.
          * intros x Hx. apply in_app_or in Hx.
            rewrite app_comm_cons, app_assoc.
            apply in_or_app. destruct Hx as [Hx|[<-|[]]].
            -- left. apply Hin. exact Hx.
            -- right. now left.
          * intros w Hw. rewrite app_comm_cons in Hw. apply in_app_or in Hw.
            destruct Hw as [Hw|Hw]; auto.
            apply reach_trans with (b := u); auto.
            apply reach_next with (b := v); [constructor|exact Hadj]. }
    destruct (Hloop l [] []) as (new & E & Hfl & Hin & Hre); auto.
    + now apply flooded_enter.
    + intros x [].
    + intros w [<-|[]]. constructor.
    + exists new. split; [exact E|]. split; [|exact Hre].
      eapply flooded_leave; eauto.
Qed.

Lemma count_from_spec (g : UndirectedGraph) (fuel : nat) :
  wf g -> (length g <= fuel)%nat ->
  forall keys visited reps,
    (forall k, In k keys -> has_key k g = true) ->
    flooded g visited [] ->
    NoDup reps -> incl reps visited ->
    (forall w, In w visited -> exists r, In r reps /\ reach (adjacent g) r w) ->
    (forall r1 r2, In r1 reps -> In r2 reps ->
                   reach (adjacent g) r1 r2 -> r1 = r2) ->
    exists visited' reps',
      count_from fuel g keys visited (length reps) = Ret (length reps') /\
      flooded g visited' [] /\
      incl visited visited' /\ incl keys visited' /\
      NoDup reps' /\ incl reps' visited' /\
      (forall w, In w visited' ->
                 exists r, In r reps' /\ reach (adjacent g) r w) /\
      (forall r1 r2, In r1 reps' -> In r2 reps' ->
                     reach (adjacent g) r1 r2 -> r1 = r2).
Proof.
  intros Hwf Hfuel.
  induction keys as [|v rest IH];
    intros visited reps Hk Hfl Hnd Hin Hcov Hsep.
  - exists visited, reps. simpl.
    split; [reflexivity|]. split; [exact Hfl|].
    split; [intros x Hx; exact Hx|].
    split; [intros x []|]. auto.
  - assert (Hrest : forall k, In k rest -> has_key k g = true)
      by (intros k Hk'; apply Hk; now right).
    cbn [count_from].
    destruct (mem String.eqb v visited) eqn:Em; simpl negb; cbv iota.
    + apply mem_In_string in Em.
      destruct (IH visited reps Hrest Hfl Hnd Hin Hcov Hsep)
        as (vis' & reps' & E & Hfl' & Hgrow & Hr' & H').
      exists vis', reps'. split; [exact E|]. split; [exact Hfl'|].
      split; [exact Hgrow|]. split; [|exact H'].
      intros x [<-|Hx]; auto.
    + apply mem_false_string in Em.
      destruct (count_helper_spec g Hwf fuel v visited [] Hfl)
        as (new & E & Hfl1 & Hre);
        [apply Hk; now left|exact Em|lia|].
      rewrite E. cbn [bind].
      assert (Hlen : S (length reps) = length (reps ++ [v]))
        by (rewrite length_app; simpl; lia).
      rewrite Hlen.
      destruct (IH (visited ++ v :: new) (reps ++ [v]) Hrest Hfl1)
        as (vis' & reps' & E' & Hfl' & Hgrow & Hr' & H').
      * apply NoDup_app; auto.
        -- constructor; [intros []|constructor].
        -- intros x Hx [<-|[]]. auto.
      * intros x Hx. apply in_app_or in Hx. apply in_or_app.
        destruct Hx as [Hx|[<-|[]]]; [left; auto|right; now left].
      * intros w Hw. apply in_app_or in Hw. destruct Hw as [Hw|Hw].
        -- destruct (Hcov w Hw) as (r & Hr & Hrw). exists r.
           split; auto. apply in_or_app. now left.
        -- exists v. split; auto. apply in_or_app. right. now left.
      * assert (Hout : forall r, In r reps -> ~ reach (adjacent g) r v).
        { intros r Hr H. apply Em.
          apply (flooded_reach g visited r v); auto. }
        intros r1 r2 H1 H2 H. apply in_app_or in H1, H2.
        destruct H1 as [H1|[<-|[]]]; destruct H2 as [H2|[<-|[]]]; auto.
        -- exfalso. apply (Hout r1); auto.
        -- exfalso. apply (Hout r2); auto. now apply reach_sym.
      * exists vis', reps'. split; [exact E'|]. split; [exact Hfl'|].
        split; [|split; [|exact H']].
        -- intros x Hx. apply Hgrow. apply in_or_app. now left.
        -- intros x [<-|Hx]; auto. apply Hgrow. apply in_or_app.
           right. now left.
Qed.

(** X14: on a well-formed graph, with fuel for one call of the helper per
    vertex, [count_connected_components()] returns the number of connected
    components: it is the length of a list of vertices of the graph, no
    two of them connected, such that every vertex of the graph is
    connected to one of them. *)
Theorem count_connected_components_spec (g : UndirectedGraph) (fuel : nat) :
  wf g -> (length g <= fuel)%nat ->
  exists reps,
    count_connected_components fuel g = Ret (length reps) /\
    NoDup reps /\
    (forall r, In r reps -> has_key r g = true) /\
    (forall v, has_key v g = true ->
               exists r, In r reps /\ reach (adjacent g) r v) /\
    (forall r1 r2, In r1 reps -> In r2 reps ->
                   reach (adjacent g) r1 r2 -> r1 = r2).
Proof.
  intros Hwf Hfuel. unfold count_connected_components.
  destruct (count_from_spec g fuel Hwf Hfuel (get_vertices g) [] [])
    as (vis & reps & E & Hfl & _ & Hkeys & Hnd & Hin & Hcov & Hsep).
  - intros k Hk. now apply has_key_In.
  - split; [constructor|intros u []|intros u []].
  - constructor.
  - intros x [].
  - intros w [].
  - intros r1 r2 [].
  - exists reps. split; [exact E|]. split; [exact Hnd|].
    split; [|split; [|exact Hsep]].
    + intros r Hr. apply (fl_keys _ _ _ Hfl). auto.
    + intros v Hv. apply Hcov, Hkeys. now apply has_key_In.
Qed.

Lemma count_connected_components_spec_witness :
  exists reps,
    count_connected_components 3 UndirectedCycles.g_triangle
    = Ret (length reps) /\
    NoDup reps /\
    (forall r, In r reps -> has_key r UndirectedCycles.g_triangle = true) /\
    (forall v, has_key v UndirectedCycles.g_triangle = true ->
               exists r, In r reps /\
                         reach (adjacent UndirectedCycles.g_triangle) r v) /\
    (forall r1 r2, In r1 reps -> In r2 reps ->
                   reach (adjacent UndirectedCycles.g_triangle) r1 r2 ->
                   r1 = r2).
Proof.
  apply (count_connected_components_spec UndirectedCycles.g_triangle 3).
  - apply wf_g_triangle.
  - simpl. lia.
Defined.

End ComponentFacts.

(** ** UndirectedGraph: what the mutators do to vertices and edges *)

Module UndirectedMutatorFacts.
Import Py PyFacts Undirected UndirectedSpec UndirectedFacts.

Lemma store_same (k : string) (l : list string) (g : UndirectedGraph) :
  get k g = Some l -> store k l g = g.
Proof.
  induction g as [|[k0 l0] g IH]; simpl; auto.
  destruct (String.eqb_spec k k0).
  - intros E. inversion E. now subst.
  - intros E. now rewrite IH.
Qed.

Lemma store_store (k : string) (l l' : list string) (g : UndirectedGraph) :
  store k l (store k l' g) = store k l g.
Proof.
  induction g as [|[k0 l0] g IH]; simpl; auto.
  destruct (String.eqb_spec k k0); simpl.
  - subst. now rewrite String.eqb_refl.
  - destruct (String.eqb_spec k k0); [congruence|]. now rewrite IH.
Qed.

Lemma store_swap (k k' : string) (l l' : list string) (g : UndirectedGraph) :
  k <> k' -> store k l (store k' l' g) = store k' l' (store k l g).
Proof.
  intros Hne. induction g as [|[k0 l0] g IH]; simpl; auto.
  destruct (String.eqb_spec k' k0); destruct (String.eqb_spec k k0); simpl;
    subst; try congruence.
  - rewrite String.eqb_refl. destruct (String.eqb_spec k k0); congruence.
  - rewrite String.eqb_refl. destruct (String.eqb_spec k' k0); congruence.
  - destruct (String.eqb_spec k k0); destruct (String.eqb_spec k' k0);
      try congruence.
Qed.

Lemma add_vertex_present (v : string) (g : UndirectedGraph) :
  has_key v g = true -> add_vertex v g = g.
Proof. intros H. unfold add_vertex. now rewrite H. Qed.

Lemma remove_first_snoc (x : string) (l : list string) :
  ~ In x l -> remove_first String.eqb x (l ++ [x]) = l.
Proof.
  induction l as [|h t IH]; simpl; intros H.
  - now rewrite String.eqb_refl.
  - destruct (String.eqb_spec x h); [subst; tauto|]. f_equal. tauto.
Qed.

(** The two outcomes of [add_edge(u, v)] for [u != v]: [g2] is the graph
    after the two [add_vertex] calls. *)
Lemma add_edge_shape (u v : string) (g : UndirectedGraph) :
  u <> v ->
  exists lu lv,
    get u (add_vertex v (add_vertex u g)) = Some lu /\
    get v (add_vertex v (add_vertex u g)) = Some lv /\
    (((In v lu \/ In u lv) /\
      add_edge u v g = Ret (add_vertex v (add_vertex u g))) \/
     (~ In v lu /\ ~ In u lv /\
      add_edge u v g =
      Ret (store u (lu ++ [v])
             (store v (lv ++ [u]) (add_vertex v (add_vertex u g)))))).
Proof.
  intros Hne. rewrite add_edge_step by assumption. cbv zeta.
  set (g2 := add_vertex v (add_vertex u g)).
  assert (Hu : has_key u g2 = true).
  { unfold g2. rewrite !has_key_add_vertex, String.eqb_refl.
    now rewrite orb_true_r. }
  assert (Hv : has_key v g2 = true).
  { unfold g2. rewrite !has_key_add_vertex, String.eqb_refl.
    now rewrite orb_true_r. }
  destruct (proj1 (has_key_true _ _) Hu) as (lu & Elu).
  destruct (proj1 (has_key_true _ _) Hv) as (lv & Elv).
  exists lu, lv. split; [exact Elu|]. split; [exact Elv|].
  unfold mem_get. rewrite Elu. simpl.
  destruct (mem String.eqb v lu) eqn:Evu; simpl.
  { apply mem_In_string in Evu. left. auto. }
  rewrite Elv. simpl.
  destruct (mem String.eqb u lv) eqn:Euv; simpl.
  { apply mem_In_string in Euv. left. auto. }
  apply mem_false_string in Evu, Euv. right.
  split; [exact Evu|]. split; [exact Euv|].
  unfold append_to, getitem. rewrite Elv. simpl.
  rewrite get_store, Elv.
  destruct (String.eqb_spec u v) as [|_]; [congruence|]. rewrite Elu.
  reflexivity.
Qed.

Lemma has_key_store (k k' : string) (l : list string) (g : UndirectedGraph) :
  has_key k (store k' l g) = has_key k g.
Proof.
  rewrite !has_key_get, get_store.
  destruct (String.eqb_spec k k'); [subst|reflexivity].
  destruct (get k' g); reflexivity.
Qed.

Lemma add_edge_effect (u v : string) (g : UndirectedGraph) :
  wf g ->
  exists g',
    add_edge u v g = Ret g' /\
    (forall k, has_key k g' = true <->
               has_key k g = true \/ (u <> v /\ (k = u \/ k = v))) /\
    (forall a b, adjacent g' a b <->
                 adjacent g a b \/
                 (u <> v /\ ((a = u /\ b = v) \/ (a = v /\ b = u)))).
Proof.
  intros Hwf. destruct (String.eqb_spec u v) as [->|Hne].
  { rewrite add_edge_same. exists g. split; [reflexivity|].
    split; intros; tauto. }
  destruct (add_edge_shape u v g Hne) as (lu & lv & Elu & Elv & H).
  set (g2 := add_vertex v (add_vertex u g)) in *.
  assert (Hkeys : forall k, has_key k g2 = true <->
                    has_key k g = true \/ (u <> v /\ (k = u \/ k = v))).
  { intros k. unfold g2. rewrite !has_key_add_vertex, !orb_true_iff.
    rewrite !String.eqb_eq. tauto. }
  assert (Hadj2 : forall a b, adjacent g2 a b <-> adjacent g a b).
  { intros a b. unfold g2. now rewrite !adjacent_add_vertex. }
  destruct H as [[Hin E]|(Hn1 & Hn2 & E)].
  - exists g2. split; [exact E|]. split; [exact Hkeys|].
    intros a b. rewrite Hadj2. split; [tauto|].
    intros [H|[_ [[-> ->]|[-> ->]]]]; auto.
    + destruct Hin as [Hin|Hin].
      * apply Hadj2. exists lu. auto.
      * apply (wf_symmetric g Hwf). apply Hadj2. exists lv. auto.
    + destruct Hin as [Hin|Hin].
      * apply (wf_symmetric g Hwf). apply Hadj2. exists lu. auto.
      * apply Hadj2. exists lv. auto.
  - eexists. split; [exact E|]. split.
    + intros k. rewrite !has_key_store. apply Hkeys.
    + assert (Hget : forall k,
                get k (store u (lu ++ [v]) (store v (lv ++ [u]) g2)) =
                if String.eqb k u then Some (lu ++ [v])
                else if String.eqb k v then Some (lv ++ [u])
                else get k g2).
      { intros k. rewrite !get_store, Elv.
        destruct (String.eqb_spec u v); [congruence|]. rewrite Elu.
        destruct (String.eqb k u); auto. }
      intros a b. rewrite <- Hadj2. unfold adjacent. setoid_rewrite Hget.
      destruct (String.eqb_spec a u) as [->|Hau];
        [|destruct (String.eqb_spec a v) as [->|Hav]].
      * split.
        -- intros (l & E' & Hin). inversion E'; subst.
           apply in_app_or in Hin. destruct Hin as [Hin|[<-|[]]]; eauto.
        -- intros [(l & E' & Hin)|[_ [[_ ->]|[-> ->]]]].
           ++ exists (lu ++ [v]). split; auto. apply in_or_app. left.
              congruence.
           ++ exists (lu ++ [v]). split; auto. apply in_or_app. right.
              simpl; auto.
           ++ congruence.
      * split.
        -- intros (l & E' & Hin). inversion E'; subst.
           apply in_app_or in Hin. destruct Hin as [Hin|[<-|[]]]; eauto.
        -- intros [(l & E' & Hin)|[_ [[-> ->]|[_ ->]]]].
           ++ exists (lv ++ [u]). split; auto. apply in_or_app. left.
              congruence.
           ++ congruence.
           ++ exists (lv ++ [u]). split; auto. apply in_or_app. right.
              simpl; auto.
      * split; [tauto|]. intros [H|[_ [[-> _]|[-> _]]]]; congruence || auto.
Qed.

(** X15: on a well-formed graph [add_edge(u, v)] raises nothing and leaves
    a well-formed graph.  For [u != v] its vertices are the old ones with
    [u] and [v], and its edges the old ones with the edge between [u] and
    [v]; for [u == v], and when the edge is there already, the graph is
    left as it was. *)
Theorem ud_add_edge_spec (u v : string) (g : UndirectedGraph) :
  wf g ->
  exists g',
    add_edge u v g = Ret g' /\ wf g' /\
    (forall k, has_key k g' = true <->
               has_key k g = true \/ (u <> v /\ (k = u \/ k = v))) /\
    (forall a b, adjacent g' a b <->
                 adjacent g a b \/
                 (u <> v /\ ((a = u /\ b = v) \/ (a = v /\ b = u)))) /\
    (u = v \/ adjacent g u v -> g' = g).
Proof.
  intros Hwf.
  destruct (add_edge_effect u v g Hwf) as (g' & E & Hk & Hadj).
  destruct (add_edge_wf u v g Hwf) as (g'' & E' & Hwf').
  assert (g'' = g') by congruence. subst g''.
  exists g'. split; [exact E|]. split; [exact Hwf'|].
  split; [exact Hk|]. split; [exact Hadj|].
  intros [->|Ha].
  - rewrite add_edge_same in E. congruence.
  - destruct (String.eqb_spec u v) as [->|Hne].
    { rewrite add_edge_same in E. congruence. }
    destruct (add_edge_shape u v g Hne) as (lu & lv & Elu & Elv & H).
    assert (Hu : has_key u g = true).
    { destruct Ha as (l & El & _). rewrite has_key_get, El. reflexivity. }
    assert (Hv : has_key v g = true) by (eapply wf_closed; eauto).
    rewrite (add_vertex_present u g Hu) in *.
    rewrite (add_vertex_present v g Hv) in *.
    destruct H as [[_ E2]|(Hn & _ & _)]; [congruence|].
    exfalso. apply Hn. destruct Ha as (l & El & Hin). congruence.
Qed.

Lemma ud_add_edge_spec_witness :
  exists g',
    add_edge "A" "D" UndirectedCycles.g_triangle = Ret g' /\ wf g' /\
    (forall k, has_key k g' = true <->
               has_key k UndirectedCycles.g_triangle = true \/
               ("A"%string <> "D"%string /\
                (k = "A"%string \/ k = "D"%string))) /\
    (forall a b, adjacent g' a b <->
                 adjacent UndirectedCycles.g_triangle a b \/
                 ("A"%string <> "D"%string /\
                  ((a = "A"%string /\ b = "D"%string) \/
                   (a = "D"%string /\ b = "A"%string)))) /\
    ("A"%string = "D"%string \/
     adjacent UndirectedCycles.g_triangle "A" "D" ->
     g' = UndirectedCycles.g_triangle).
Proof.
  apply (ud_add_edge_spec "A" "D" UndirectedCycles.g_triangle).
  apply UndirectedCycleFacts.wf_g_triangle.
Defined.

(** X16: between two vertices of the graph that are not adjacent,
    [remove_edge(u, v)] after [add_edge(u, v)] gives the graph back as it
    was, adjacency lists in their old order ([u] not the empty label). *)
Theorem ud_remove_edge_undoes_add_edge (u v : string) (g : UndirectedGraph) :
  has_key u g = true -> has_key v g = true -> u <> v ->
  ~ adjacent g u v -> ~ adjacent g v u -> truthy u = true ->
  exists g1, add_edge u v g = Ret g1 /\ remove_edge u v g1 = Ret g.
Proof.
  intros Hu Hv Hne Huv Hvu Ht.
  destruct (add_edge_shape u v g Hne) as (lu & lv & Elu & Elv & H).
  rewrite (add_vertex_present u g Hu) in *.
  rewrite (add_vertex_present v g Hv) in *.
  destruct H as [[[Hin|Hin] _]|(Hn1 & Hn2 & E)].
  { exfalso. apply Huv. exists lu. auto. }
  { exfalso. apply Hvu. exists lv. auto. }
  eexists. split; [exact E|].
  assert (Hget : forall k,
            get k (store u (lu ++ [v]) (store v (lv ++ [u]) g)) =
            if String.eqb k u then Some (lu ++ [v])
            else if String.eqb k v then Some (lv ++ [u])
            else get k g).
  { intros k. rewrite !get_store, Elv.
    destruct (String.eqb_spec u v); [congruence|]. rewrite Elu.
    destruct (String.eqb k u); auto. }
  unfold remove_edge. rewrite Ht, !has_key_store, Hv.
  unfold mem_get. rewrite !Hget, !String.eqb_refl.
  destruct (String.eqb_spec v u) as [|_]; [congruence|].
  rewrite ?String.eqb_refl. cbn [bind].
  assert (E1 : mem String.eqb u (lv ++ [u]) = true).
  { apply mem_In_string, in_or_app. right. now left. }
  assert (E2 : mem String.eqb v (lu ++ [v]) = true).
  { apply mem_In_string, in_or_app. right. now left. }
  rewrite E1, E2.
  unfold remove_from, getitem. rewrite Hget, String.eqb_refl. cbn [bind].
  unfold remove. rewrite E2. cbn [bind].
  rewrite get_store, String.eqb_sym.
  destruct (String.eqb_spec u v) as [|_]; [congruence|].
  rewrite Hget. destruct (String.eqb_spec v u) as [|_]; [congruence|].
  rewrite String.eqb_refl. cbn [bind]. rewrite E1. cbn [bind].
  rewrite !remove_first_snoc by assumption.
  rewrite store_store.
  rewrite (store_swap v u) by congruence.
  rewrite store_store.
  rewrite (store_same v lv g Elv), (store_same u lu g Elu). reflexivity.
Qed.

Lemma ud_remove_edge_undoes_add_edge_witness :
  exists g1,
    add_edge "A" "C" [("A"%string, ["B"%string]);
                      ("B"%string, ["A"%string]);
                      ("C"%string, [])] = Ret g1 /\
    remove_edge "A" "C" g1 = Ret [("A"%string, ["B"%string]);
                                  ("B"%string, ["A"%string]);
                                  ("C"%string, [])].
Proof.
  apply (ud_remove_edge_undoes_add_edge "A" "C").
  - reflexivity.
  - reflexivity.
  - discriminate.
  - intros (l & E & Hin). inversion E; subst.
    destruct Hin as [H|[]]; discriminate.
  - intros (l & E & Hin). inversion E; subst. destruct Hin.
  - reflexivity.
Defined.

(** X17: [remove_vertex(v)] on a well-formed graph takes [v] out of the
    vertices, keeps every other vertex, and keeps exactly the edges that
    do not touch [v]. *)
Theorem ud_remove_vertex_spec (v : string) (g : UndirectedGraph) :
  wf g ->
  has_key v (remove_vertex v g) = false /\
  (forall k, k <> v -> has_key k (remove_vertex v g) = has_key k g) /\
  (forall a b, adjacent (remove_vertex v g) a b <->
               adjacent g a b /\ a <> v /\ b <> v).
Proof.
  intros Hwf. unfold remove_vertex. destruct (has_key v g) eqn:Hv.
  - assert (Hget : forall k,
              get k (map (fun e => if mem String.eqb v (snd e)
                                   then (fst e, remove_first String.eqb v (snd e))
                                   else e) (pop_key v g)) =
              if String.eqb k v then None
              else option_map (remove_first String.eqb v) (get k g)).
    { intros k. rewrite get_strip, get_pop_key.
      destruct (String.eqb k v); reflexivity. }
    split; [|split].
    + rewrite has_key_get, Hget, String.eqb_refl. reflexivity.
    + intros k Hk. rewrite !has_key_get, Hget.
      destruct (String.eqb_spec k v); [congruence|].
      destruct (get k g); reflexivity.
    + intros a b. unfold adjacent. setoid_rewrite Hget.
      destruct (String.eqb_spec a v) as [->|Hav].
      * split; [intros (l & E & _); discriminate | tauto].
      * destruct (get a g) as [la|] eqn:Ea; simpl.
        -- pose proof (wf_simple g Hwf a la Ea) as Hnd. split.
           ++ intros (l & E & Hb). inversion E; subst.
              apply In_remove_first in Hb; auto. destruct Hb. eauto.
           ++ intros [(l & E & Hb) [_ Hbv]]. inversion E; subst.
              eexists. split; [reflexivity|]. apply In_remove_first; auto.
        -- split; [intros (l & E & _); discriminate|].
           intros [(l & E & _) _]. discriminate.
  - split; [exact Hv|]. split; [reflexivity|].
    intros a b. split; [|tauto]. intros H. split; auto. split.
    + intros ->. destruct H as (l & E & _).
      rewrite has_key_get, E in Hv. discriminate.
    + intros ->. apply (wf_closed g Hwf) in H. congruence.
Qed.

Lemma ud_remove_vertex_spec_witness :
  has_key "A" (remove_vertex "A" UndirectedCycles.g_triangle) = false /\
  (forall k, k <> "A"%string ->
             has_key k (remove_vertex "A" UndirectedCycles.g_triangle)
             = has_key k UndirectedCycles.g_triangle) /\
  (forall a b, adjacent (remove_vertex "A" UndirectedCycles.g_triangle) a b <->
               adjacent UndirectedCycles.g_triangle a b /\
               a <> "A"%string /\ b <> "A"%string).
Proof.
  apply (ud_remove_vertex_spec "A" UndirectedCycles.g_triangle).
  apply UndirectedCycleFacts.wf_g_triangle.
Defined.

(** *** The constructor *)

Lemma init_from_spec (es : list (string * string)) :
  forall g,
    wf g ->
    exists g',
      init_from es g = Ret g' /\ wf g' /\
      (forall k, has_key k g' = true <->
                 has_key k g = true \/
                 exists a b, In (a, b) es /\ a <> b /\ (k = a \/ k = b)) /\
      (forall a b, adjacent g' a b <->
                   adjacent g a b \/
                   (a <> b /\ (In (a, b) es \/ In (b, a) es))).
Proof.
  induction es as [|[u v] es IH]; intros g Hwf.
  - exists g. simpl. split; [reflexivity|]. split; [exact Hwf|]. split.
    + intros k. split; auto. intros [H|(a & b & [] & _)]. exact H.
    + intros a b. split; auto. intros [H|[_ [[]|[]]]]. exact H.
  - destruct (add_edge_effect u v g Hwf) as (g1 & E1 & Hk1 & Ha1).
    destruct (add_edge_wf u v g Hwf) as (g1' & E1' & Hwf1).
    assert (g1' = g1) by congruence. subst g1'.
    destruct (IH g1 Hwf1) as (g' & E & Hwf' & Hk & Ha).
    exists g'. simpl init_from. rewrite E1. cbn [bind].
    split; [exact E|]. split; [exact Hwf'|]. split.
    + intros k. rewrite Hk, Hk1. split.
      * intros [[H|(Hne & H)]|(a & b & Hin & H)].
        -- left. exact H.
        -- right. exists u, v. split; [left; reflexivity|auto].
        -- right. exists a, b. split; [right; exact Hin|exact H].
      * intros [H|(a & b & [E'|Hin] & Hne & H)].
        -- left. left. exact H.
        -- inversion E'; subst. left. right. auto.
        -- right. exists a, b. auto.
    + intros a b. rewrite Ha, Ha1. split.
      * intros [[H|(Hne & [[-> ->]|[-> ->]])]|(Hne & [H|H])].
        -- left. exact H.
        -- right. split; [exact Hne|]. left. left. reflexivity.
        -- right. split; [congruence|]. right. left. reflexivity.
        -- right. split; [exact Hne|]. left. right. exact H.
        -- right. split; [exact Hne|]. right. right. exact H.
      * intros [H|(Hne & [[E'|H]|[E'|H]])].
        -- left. left. exact H.
        -- inversion E'; subst. left. right. split; [exact Hne|]. left. auto.
        -- right. auto.
        -- inversion E'; subst. left. right. split; [congruence|]. right. auto.
        -- right. auto.
Qed.

(** X18: [UndirectedGraph(start_edges)] raises nothing and builds a
    well-formed graph.  Its vertices are the endpoints of the listed pairs
    with two different labels, and two vertices are adjacent exactly when
    they differ and the list holds them as a pair, in either order. *)
Theorem ud_init_spec (start_edges : list (string * string)) :
  exists g,
    init start_edges = Ret g /\ wf g /\
    (forall k, has_key k g = true <->
               exists a b, In (a, b) start_edges /\ a <> b /\
                           (k = a \/ k = b)) /\
    (forall a b, adjacent g a b <->
                 a <> b /\ (In (a, b) start_edges \/ In (b, a) start_edges)).
Proof.
  destruct (init_from_spec start_edges empty wf_empty)
    as (g & E & Hwf & Hk & Ha).
  exists g. split; [exact E|]. split; [exact Hwf|]. split.
  - intros k. rewrite Hk. split; auto. intros [H|H]; auto. discriminate.
  - intros a b. rewrite Ha. split; auto. intros [(l & H & _)|H]; auto.
    discriminate.
Qed.

End UndirectedMutatorFacts.

(** ** Searching for a target *)

Module SearchTargetFacts.
Import Py PyFacts SearchStop SearchStopFacts SearchOrder.

Section Cut.
Context {A : Type} (eqb : A -> A -> bool).
Hypothesis eqb_spec : forall x y, eqb x y = true <-> x = y.

Lemma cut_after_incl (e : A) (l : list A) : incl (cut_after eqb e l) l.
Proof.
  induction l as [|h t IH]; simpl; [intros x []|].
  destruct (eqb h e).
  - intros x [<-|[]]. now left.
  - intros x [<-|Hx]; [now left|right; auto].
Qed.

Lemma cut_after_NoDup (e : A) (l : list A) :
  NoDup l -> NoDup (cut_after eqb e l).
Proof.
  induction l as [|h t IH]; simpl; intros Hnd; [constructor|].
  apply NoDup_cons_iff in Hnd. destruct Hnd as [Hh Ht].
  destruct (eqb h e).
  - constructor; [intros []|constructor].
  - constructor; auto. intros H. apply Hh. eapply cut_after_incl; eauto.
Qed.

Lemma cut_after_last (e : A) (l : list A) :
  In e l -> exists P, cut_after eqb e l = P ++ [e].
Proof.
  induction l as [|h t IH]; simpl; intros Hin; [destruct Hin|].
  destruct (eqb h e) eqn:E.
  - apply eqb_spec in E. subst. exists []. reflexivity.
  - destruct Hin as [->|Hin].
    + assert (eqb e e = true) by now apply eqb_spec. congruence.
    + destruct (IH Hin) as (P & ->). exists (h :: P). reflexivity.
Qed.

(** What the cut of a full traversal [R] from [v] holds. *)
Lemma target_cut (nbr : A -> A -> Prop) (v e : A) (R : list A) :
  NoDup R -> (forall w, In w R <-> reach nbr v w) ->
  NoDup (cut_after eqb e R) /\
  (forall w, In w (cut_after eqb e R) -> reach nbr v w) /\
  (reach nbr v e -> exists P, cut_after eqb e R = P ++ [e]) /\
  (~ reach nbr v e -> forall w, reach nbr v w -> In w (cut_after eqb e R)).
Proof.
  intros Hnd HR. split; [now apply cut_after_NoDup|]. split; [|split].
  - intros w Hw. apply HR. eapply cut_after_incl; eauto.
  - intros He. apply cut_after_last. now apply HR.
  - intros He w Hw. rewrite (cut_after_absent eqb eqb_spec).
    + now apply HR.
    + intros H. apply He. now apply HR.
Qed.

End Cut.

(** X19: DirectedGraph, a square matrix and a start vertex of the graph.
    [dfs] and [bfs] with [v_end = e] return a list without repetition of
    vertices that the start leads to; it ends with [e] when the start
    leads to [e], and holds every vertex the start leads to when it does
    not. *)
Theorem directed_search_target (g : Directed.DirectedGraph) (v_start e : Z) :
  Directed.square g -> 0 <= v_start < Z.of_nat (Directed.v_count g) ->
  (exists fuel0 R,
     (forall fuel, (fuel0 <= fuel)%nat ->
                   Directed.dfs fuel g v_start (Some e) = Ret R) /\
     NoDup R /\
     (forall w, In w R -> reach (DirectedCycles.arc g) v_start w) /\
     (reach (DirectedCycles.arc g) v_start e -> exists P, R = P ++ [e]) /\
     (~ reach (DirectedCycles.arc g) v_start e ->
      forall w, reach (DirectedCycles.arc g) v_start w -> In w R)) /\
  (exists fuel0 R,
     (forall fuel, (fuel0 <= fuel)%nat ->
                   Directed.bfs fuel g v_start (Some e) = Ret R) /\
     NoDup R /\
     (forall w, In w R -> reach (DirectedCycles.arc g) v_start w) /\
     (reach (DirectedCycles.arc g) v_start e -> exists P, R = P ++ [e]) /\
     (~ reach (DirectedCycles.arc g) v_start e ->
      forall w, reach (DirectedCycles.arc g) v_start w -> In w R)).
Proof.
  intros Hsq Hv. apply DirectedCycleFacts.vertices_In in Hv. split.
  - destruct (DirectedSearchFacts.dfs_finished g Hsq v_start Hv)
      as (fuel0 & R & Hrun & Hnd & _ & HR & _).
    exists fuel0, (cut_after Z.eqb e R). split.
    + intros fuel Hf. specialize (Hrun fuel Hf).
      unfold Directed.dfs in *.
      destruct (v_start >? Directed.len_matrix g).
      * inversion Hrun. reflexivity.
      * apply dfs_loop_stop; auto.
    + apply (target_cut Z.eqb Z_eqb_spec); auto.
  - destruct (DirectedSearchFacts.bfs_finished g Hsq v_start Hv)
      as (fuel0 & R & Hrun & Hnd & _ & HR & _).
    exists fuel0, (cut_after Z.eqb e R). split.
    + intros fuel Hf. specialize (Hrun fuel Hf).
      unfold Directed.bfs in *.
      destruct (v_start >? Directed.len_matrix g).
      * inversion Hrun. reflexivity.
      * apply bfs_loop_stop; auto.
    + apply (target_cut Z.eqb Z_eqb_spec); auto.
Qed.

Lemma directed_search_target_witness :
  (exists fuel0 R,
     (forall fuel, (fuel0 <= fuel)%nat ->
                   Directed.dfs fuel DirectedPaths.g_example 0 (Some 1)
                   = Ret R) /\
     NoDup R /\
     (forall w, In w R ->
                reach (DirectedCycles.arc DirectedPaths.g_example) 0 w) /\
     (reach (DirectedCycles.arc DirectedPaths.g_example) 0 1 ->
      exists P, R = P ++ [1]) /\
     (~ reach (DirectedCycles.arc DirectedPaths.g_example) 0 1 ->
      forall w, reach (DirectedCycles.arc DirectedPaths.g_example) 0 w ->
                In w R)) /\
  (exists fuel0 R,
     (forall fuel, (fuel0 <= fuel)%nat ->
                   Directed.bfs fuel DirectedPaths.g_example 0 (Some 1)
                   = Ret R) /\
     NoDup R /\
     (forall w, In w R ->
                reach (DirectedCycles.arc DirectedPaths.g_example) 0 w) /\
     (reach (DirectedCycles.arc DirectedPaths.g_example) 0 1 ->
      exists P, R = P ++ [1]) /\
     (~ reach (DirectedCycles.arc DirectedPaths.g_example) 0 1 ->
      forall w, reach (DirectedCycles.arc DirectedPaths.g_example) 0 w ->
                In w R)).
Proof.
  apply (directed_search_target DirectedPaths.g_example 0 1).
  - split; [reflexivity|]. repeat constructor.
  - simpl. lia.
Defined.

(** X20: UndirectedGraph, a well-formed graph and a start vertex of the
    graph.  [dfs] and [bfs] with [v_end = e] return a list without
    repetition of vertices connected to the start; it ends with [e] when
    [e] is connected to the start, and holds every vertex connected to
    the start when it is not. *)
Theorem undirected_search_target (g : Undirected.UndirectedGraph)
  (v_start e : string) :
  UndirectedSpec.wf g -> Undirected.has_key v_start g = true ->
  (exists fuel0 R,
     (forall fuel, (fuel0 <= fuel)%nat ->
                   Undirected.dfs fuel g v_start (Some e) = Ret R) /\
     NoDup R /\
     (forall w, In w R -> reach (UndirectedSpec.adjacent g) v_start w) /\
     (reach (UndirectedSpec.adjacent g) v_start e -> exists P, R = P ++ [e]) /\
     (~ reach (UndirectedSpec.adjacent g) v_start e ->
      forall w, reach (UndirectedSpec.adjacent g) v_start w -> In w R)) /\
  (exists fuel0 R,
     (forall fuel, (fuel0 <= fuel)%nat ->
                   Undirected.bfs fuel g v_start (Some e) = Ret R) /\
     NoDup R /\
     (forall w, In w R -> reach (UndirectedSpec.adjacent g) v_start w) /\
     (reach (UndirectedSpec.adjacent g) v_start e -> exists P, R = P ++ [e]) /\
     (~ reach (UndirectedSpec.adjacent g) v_start e ->
      forall w, reach (UndirectedSpec.adjacent g) v_start w -> In w R)).
Proof.
  intros Hwf Hv. split.
  - destruct (UndirectedSearchFacts.ud_dfs_finished g Hwf v_start Hv)
      as (fuel0 & R & Hrun & Hnd & _ & HR & _).
    exists fuel0, (cut_after String.eqb e R). split.
    + intros fuel Hf. specialize (Hrun fuel Hf).
      unfold Undirected.dfs in *.
      destruct (negb (Undirected.has_key v_start g)).
      * inversion Hrun. reflexivity.
      * apply ud_dfs_loop_stop; auto.
    + apply (target_cut String.eqb string_eqb_spec); auto.
  - destruct (UndirectedSearchFacts.ud_bfs_finished g Hwf v_start Hv)
      as (fuel0 & R & Hrun & Hnd & _ & HR & _).
    exists fuel0, (cut_after String.eqb e R). split.
    + intros fuel Hf. specialize (Hrun fuel Hf).
      unfold Undirected.bfs in *.
      destruct (negb (Undirected.has_key v_start g)).
      * inversion Hrun. reflexivity.
      * apply ud_bfs_loop_stop; auto.
    + apply (target_cut String.eqb string_eqb_spec); auto.
Qed.

Lemma undirected_search_target_witness :
  (exists fuel0 R,
     (forall fuel, (fuel0 <= fuel)%nat ->
                   Undirected.dfs fuel UndirectedCycles.g_triangle "A"
                                  (Some "B"%string) = Ret R) /\
     NoDup R /\
     (forall w, In w R ->
                reach (UndirectedSpec.adjacent UndirectedCycles.g_triangle)
                      "A"%string w) /\
     (reach (UndirectedSpec.adjacent UndirectedCycles.g_triangle)
            "A"%string "B"%string ->
      exists P, R = P ++ ["B"%string]) /\
     (~ reach (UndirectedSpec.adjacent UndirectedCycles.g_triangle)
              "A"%string "B"%string ->
      forall w, reach (UndirectedSpec.adjacent UndirectedCycles.g_triangle)
                      "A"%string w -> In w R)) /\
  (exists fuel0 R,
     (forall fuel, (fuel0 <= fuel)%nat ->
                   Undirected.bfs fuel UndirectedCycles.g_triangle "A"
                                  (Some "B"%string) = Ret R) /\
     NoDup R /\
     (forall w, In w R ->
                reach (UndirectedSpec.adjacent UndirectedCycles.g_triangle)
                      "A"%string w) /\
     (reach (UndirectedSpec.adjacent UndirectedCycles.g_triangle)
            "A"%string "B"%string ->
      exists P, R = P ++ ["B"%string]) /\
     (~ reach (UndirectedSpec.adjacent UndirectedCycles.g_triangle)
              "A"%string "B"%string ->
      forall w, reach (UndirectedSpec.adjacent UndirectedCycles.g_triangle)
                      "A"%string w -> In w R)).
Proof.
  apply (undirected_search_target UndirectedCycles.g_triangle "A" "B").
  - apply UndirectedCycleFacts.wf_g_triangle.
  - reflexivity.
Defined.

End SearchTargetFacts.

(** ** DirectedGraph: the graphs a client can build *)

Module DirectedRunFacts.
Import Py PyFacts Directed DirectedSpec DirectedFacts DirectedPaths.
Import DijkstraFacts DirectedCycles DirectedCycleFacts DirectedQueries.
Import DirectedQueryFacts.

(** X21: whatever [add_vertex], [add_edge] and [remove_edge] calls built
    the graph, every triple of [get_edges()] joins two vertices of
    [get_vertices()] and has a positive weight. *)
Theorem run_edges_valid (cs : list call) (s d w : Z) :
  In (s, d, w) (get_edges (run cs)) ->
  In s (get_vertices (run cs)) /\ In d (get_vertices (run cs)) /\ 0 < w.
Proof.
  intros Hin. apply In_get_edges in Hin.
  pose proof (edge_in_range _ _ _ _ (square_run cs) Hin) as [Hs Hd].
  pose proof (edge_positive _ _ _ _ (nonneg_run cs) Hin) as Hw.
  split; [|split; [|exact Hw]].
  - apply (vertices_In (v_count (run cs)) s). exact Hs.
  - apply (vertices_In (v_count (run cs)) d). exact Hd.
Qed.

Lemma run_edges_valid_witness :
  In 0 (get_vertices (run [AddVertex; AddVertex; AddEdge 0 1 10])) /\
  In 1 (get_vertices (run [AddVertex; AddVertex; AddEdge 0 1 10])) /\
  0 < 10.
Proof.
  apply (run_edges_valid [AddVertex; AddVertex; AddEdge 0 1 10] 0 1 10).
  simpl. left. reflexivity.
Defined.

(** X22: [dijkstra(src)] for a [src] that is not below the number of
    vertices raises [IndexError] at [map[src]]. *)
Theorem dijkstra_unknown_source (g : DirectedGraph) (fuel : nat) (src : Z) :
  Z.of_nat (v_count g) <= src ->
  dijkstra (S fuel) g src = Raise IndexError.
Proof.
  intros H. unfold dijkstra. cbn [dijkstra_loop].
  rewrite get_too_large; [reflexivity|]. now rewrite repeat_length.
Qed.

Lemma dijkstra_unknown_source_witness :
  dijkstra 1 g_example 3 = Raise IndexError.
Proof. apply (dijkstra_unknown_source g_example 0 3). simpl. lia. Defined.

End DirectedRunFacts.

(** ** UndirectedGraph: [remove_edge] *)

Module UndirectedRemoveFacts.
Import Py PyFacts Undirected UndirectedSpec UndirectedFacts.

(** X23: on a well-formed graph [remove_edge(v, u)] with [v] not the empty
    label raises nothing and leaves a well-formed graph with the same
    vertices, whose edges are the old ones without the edge between [v]
    and [u]; when there is no such edge the graph is left as it was. *)
Theorem ud_remove_edge_spec (v u : string) (g : UndirectedGraph) :
  wf g -> v <> EmptyString ->
  exists g',
    remove_edge v u g = Ret g' /\ wf g' /\
    get_vertices g' = get_vertices g /\
    (forall a b, adjacent g' a b <->
                 adjacent g a b /\ ~ (a = v /\ b = u) /\ ~ (a = u /\ b = v)) /\
    (~ adjacent g v u -> g' = g).
Proof.
  intros Hwf Hv.
  assert (Ht : truthy v = true).
  { unfold truthy. destruct (String.eqb_spec v EmptyString); auto. }
  destruct (remove_edge_truthy v u g Hwf Ht) as (g' & E & Hk & Hadj & Hsame & _).
  destruct (remove_edge_wf v u g Hwf) as (g'' & E' & Hwf').
  assert (g'' = g') by congruence. subst g''.
  exists g'. auto.
Qed.

Lemma ud_remove_edge_spec_witness :
  exists g',
    remove_edge "A" "B" UndirectedCycles.g_triangle = Ret g' /\ wf g' /\
    get_vertices g' = get_vertices UndirectedCycles.g_triangle /\
    (forall a b, adjacent g' a b <->
                 adjacent UndirectedCycles.g_triangle a b /\
                 ~ (a = "A"%string /\ b = "B"%string) /\
                 ~ (a = "B"%string /\ b = "A"%string)) /\
    (~ adjacent UndirectedCycles.g_triangle "A" "B" ->
     g' = UndirectedCycles.g_triangle).
Proof.
  apply (ud_remove_edge_spec "A" "B" UndirectedCycles.g_triangle).
  - apply UndirectedCycleFacts.wf_g_triangle.
  - discriminate.
Defined.

End UndirectedRemoveFacts.

(** ** The queries on the graphs a client can build *)

Module SafetyFacts.
Import Py PyFacts SearchStop SearchStopFacts.

(** X24: on the graph left by any sequence of [add_vertex], [add_edge],
    [remove_edge] and [remove_vertex] calls, [get_edges], [is_valid_path]
    on any path, and [dfs] and [bfs] from any label to any target return;
    [count_connected_components] and [has_cycle] return when the recursion
    depth allows one nested call of their helper per vertex (fuel
    [length g]). *)
Theorem undirected_queries_return (cs : list Undirected.call) :
  exists g,
    Undirected.run cs = Ret g /\
    NoDup (Undirected.get_vertices g) /\
    (exists edges, UndirectedQueries.get_edges g = Ret edges) /\
    (forall path, exists b, UndirectedQueries.is_valid_path g path = Ret b) /\
    (forall v_start v_end,
       (exists fuel R, Undirected.dfs fuel g v_start v_end = Ret R) /\
       (exists fuel R, Undirected.bfs fuel g v_start v_end = Ret R)) /\
    (exists k, UndirectedQueries.count_connected_components (length g) g
               = Ret k) /\
    (exists b, Undirected.has_cycle (length g) g = Ret b).
Proof.
  destruct (UndirectedFacts.run_from_wf cs Undirected.empty
              UndirectedFacts.wf_empty) as (g & E & Hwf).
  exists g. split; [exact E|]. split; [apply Hwf|].
  split; [|split; [|split; [|split]]].
  - destruct (UndirectedQueryFacts.edges_over_listed g Hwf
                (Undirected.get_vertices g) [] []
                UndirectedQueryFacts.listed_nil)
      as (edges & Ee & _).
    + intros x Hx. exact Hx.
    + simpl. apply UndirectedQueryFacts.NoDup_pairs_of; auto. apply Hwf.
    + exists edges. exact Ee.
  - intros path. destruct path as [|a [|b rest]].
    + exists true. reflexivity.
    + simpl. destruct (Undirected.has_key a g); simpl; eauto.
    + destruct (UndirectedQueryFacts.valid_pairs_spec g (a :: b :: rest))
        as (r & Er & _).
      exists r. exact Er.
  - intros v_start v_end.
    destruct (Undirected.has_key v_start g) eqn:Hv.
    + destruct (UndirectedSearchFacts.ud_dfs_finished g Hwf v_start Hv)
        as (fd & Rd & Hd & _).
      destruct (UndirectedSearchFacts.ud_bfs_finished g Hwf v_start Hv)
        as (fb & Rb & Hb & _).
      specialize (Hd fd (Nat.le_refl _)). specialize (Hb fb (Nat.le_refl _)).
      destruct v_end as [e|];
        [|split; [exists fd, Rd; exact Hd|exists fb, Rb; exact Hb]].
      unfold Undirected.dfs, Undirected.bfs in *. rewrite Hv in *.
      simpl negb in *. cbv iota in *. split.
      * exists fd, (cut_after String.eqb e Rd).
        apply ud_dfs_loop_stop; auto.
      * exists fb, (cut_after String.eqb e Rb).
        apply ud_bfs_loop_stop; auto.
    + unfold Undirected.dfs, Undirected.bfs. rewrite Hv. simpl.
      split; exists O, []; reflexivity.
  - destruct (ComponentFacts.count_from_spec g (length g) Hwf (Nat.le_refl _)
                (Undirected.get_vertices g) [] [])
      as (vis & reps & Ec & _).
    + intros k Hk. now apply UndirectedFacts.has_key_In.
    + split; [constructor|intros u []|intros u []].
    + constructor.
    + intros x [].
    + intros w [].
    + intros r1 r2 [].
    + exists (length reps). exact Ec.
  - destruct (UndirectedCycleFacts.has_cycle_undirected g (length g) Hwf
                (Nat.le_refl _)) as (b & Eb & _).
    exists b. exact Eb.
Qed.

(** X25: on the graph left by any sequence of [add_vertex], [add_edge] and
    [remove_edge] calls, the queries of DirectedGraph return on vertices of
    the graph: [is_valid_path] yields a Boolean, [dfs] and [bfs] return
    from a start to any target and [dijkstra] from a source; [has_cycle]
    returns when the recursion depth allows one nested call of its helper
    per vertex (fuel [v_count]). *)
Theorem directed_queries_return (cs : list Directed.call) :
  (forall path,
     Forall (fun v => 0 <= v < Z.of_nat (Directed.v_count (Directed.run cs)))
            path ->
     exists b, DirectedQueries.is_valid_path (Directed.run cs) path
               = Ret (Some b)) /\
  (forall v_start v_end,
     0 <= v_start < Z.of_nat (Directed.v_count (Directed.run cs)) ->
     (exists fuel R,
        Directed.dfs fuel (Directed.run cs) v_start v_end = Ret R) /\
     (exists fuel R,
        Directed.bfs fuel (Directed.run cs) v_start v_end = Ret R)) /\
  (forall src,
     0 <= src < Z.of_nat (Directed.v_count (Directed.run cs)) ->
     exists fuel map, Directed.dijkstra fuel (Directed.run cs) src = Ret map) /\
  (exists b,
     Directed.has_cycle (Directed.v_count (Directed.run cs)) (Directed.run cs)
     = Ret b).
Proof.
  pose proof (DirectedFacts.square_run cs) as Hsq.
  pose proof (DirectedFacts.nonneg_run cs) as Hnn.
  set (g := Directed.run cs) in *.
  split; [|split; [|split]].
  - intros path Hr. destruct path as [|v rest].
    + exists true. reflexivity.
    + destruct (DirectedPathFacts.valid_path_from_spec g (v :: rest) Hsq
                  (v :: rest) []) as (b & Eb & _); auto; [discriminate|].
      exists b. exact Eb.
  - intros v_start v_end Hv.
    apply DirectedCycleFacts.vertices_In in Hv.
    destruct (DirectedSearchFacts.dfs_finished g Hsq v_start Hv)
      as (fd & Rd & Hd & _).
    destruct (DirectedSearchFacts.bfs_finished g Hsq v_start Hv)
      as (fb & Rb & Hb & _).
    specialize (Hd fd (Nat.le_refl _)). specialize (Hb fb (Nat.le_refl _)).
    destruct v_end as [e|];
        [|split; [exists fd, Rd; exact Hd|exists fb, Rb; exact Hb]].
    unfold Directed.dfs, Directed.bfs in *.
    destruct (v_start >? Directed.len_matrix g);
      [split; exists O, []; reflexivity|]. split.
    + exists fd, (cut_after Z.eqb e Rd). apply dfs_loop_stop; auto.
    + exists fb, (cut_after Z.eqb e Rb). apply bfs_loop_stop; auto.
  - intros src Hsrc.
    destruct (DijkstraFacts.dijkstra_total g src Hsq Hnn Hsrc)
      as (fuel0 & map & Hrun & _).
    exists fuel0, map. apply Hrun. apply Nat.le_refl.
  - destruct (DirectedCycleFacts.has_cycle_directed g (Directed.v_count g)
                Hsq (Nat.le_refl _)) as (b & Eb & _).
    exists b. exact Eb.
Qed.

Lemma directed_queries_return_witness :
  (exists b,
     DirectedQueries.is_valid_path
       (Directed.run [Directed.AddVertex; Directed.AddVertex;
                      Directed.AddEdge 0 1 10]) [0; 1] = Ret (Some b)) /\
  ((exists fuel R,
      Directed.dfs fuel
        (Directed.run [Directed.AddVertex; Directed.AddVertex;
                       Directed.AddEdge 0 1 10]) 0 (Some 1) = Ret R) /\
   (exists fuel R,
      Directed.bfs fuel
        (Directed.run [Directed.AddVertex; Directed.AddVertex;
                       Directed.AddEdge 0 1 10]) 0 (Some 1) = Ret R)) /\
  (exists fuel map,
     Directed.dijkstra fuel
       (Directed.run [Directed.AddVertex; Directed.AddVertex;
                      Directed.AddEdge 0 1 10]) 0 = Ret map).
Proof.
  split; [|split].
  - apply (proj1 (directed_queries_return
                    [Directed.AddVertex; Directed.AddVertex;
                     Directed.AddEdge 0 1 10])).
    repeat constructor; simpl; lia.
  - apply (proj1 (proj2 (directed_queries_return
                           [Directed.AddVertex; Directed.AddVertex;
                            Directed.AddEdge 0 1 10]))).
    simpl. lia.
  - apply (proj1 (proj2 (proj2 (directed_queries_return
                                  [Directed.AddVertex; Directed.AddVertex;
                                   Directed.AddEdge 0 1 10])))).
    simpl. lia.
Defined.

End SafetyFacts.

(** ** [has_cycle] on a cycle longer than the recursion limit *)

Module LongCycleFacts.
Import Py PyFacts LongCycles.




(** *** DirectedGraph *)










(** *** UndirectedGraph *)








(** The undirected ring is a well-formed graph with a cycle. *)








(** The two rings are what the constructors build from the listed edges,
    here on six vertices. *)
Lemma rings_as_built :
  Directed.init (ring_edges 6) = Ret (ring_graph 6) /\
  Undirected.init (ring_pairs 6) = Ret (ud_ring 6).
Proof. split; reflexivity. Qed.


End LongCycleFacts.
